(** * Overlap counting of fragments against sorted features

    A shallow embedding of [get_barcodes] and [count] from
    [episcanpy/count_matrix/_bld_atac_mtx.py], together with the two count
    tables that [count] fills (a dense list of lists, or a scipy [lil_matrix])
    and their conversion to compressed sparse rows.

    Python [str] values are Rocq strings whose characters are code points
    below 256; a fragments file is the list of its lines, each with its line
    ending, as iterating over the file handle yields them. *)

From Stdlib Require Import ZArith Lia String Ascii Bool.
From stdpp Require Import base option list gmap sets strings.

Local Open Scope string_scope.
Local Open Scope Z_scope.

(** ** Exceptions *)

(** The exception classes that can leave the two functions.  [Custom] stands
    for any class that is not a Python builtin, by its name. *)
Inductive exn : Type :=
  | IndexError
  | KeyError
  | ValueError
  | Custom (name : string).

Inductive result (A : Type) : Type :=
  | Ok (a : A)
  | Err (e : exn).
Arguments Ok {A} a.
Arguments Err {A} e.

(** ** String primitives of Python used by the reader *)

Module PyStr.

Definition tab : ascii := "009"%char.

(** [str.isspace] on the code points below 256. *)
Definition is_space (a : ascii) : bool :=
  let n := nat_of_ascii a in
  ((9 <=? n) && (n <=? 13) || (28 <=? n) && (n <=? 32)
   || (n =? 133) || (n =? 160))%nat.

Fixpoint lstrip (s : string) : string :=
  match s with
  | EmptyString => EmptyString
  | String a s' => if is_space a then lstrip s' else s
  end.

Definition is_empty (s : string) : bool :=
  match s with EmptyString => true | String _ _ => false end.

Fixpoint rstrip (s : string) : string :=
  match s with
  | EmptyString => EmptyString
  | String a s' =>
      let r := rstrip s' in
      if is_space a && is_empty r then EmptyString else String a r
  end.

(** [s.strip()] *)
Definition strip (s : string) : string := rstrip (lstrip s).

(** [s.split("\t")]: never the empty list. *)
Fixpoint split_tab (s : string) : list string :=
  match s with
  | EmptyString => [EmptyString]
  | String a s' =>
      if Ascii.eqb a tab then EmptyString :: split_tab s'
      else match split_tab s' with
           | [] => [String a EmptyString]
           | x :: xs => String a x :: xs
           end
  end.

(** [s.startswith(p)] *)
Definition startswith (s p : string) : bool := String.prefix p s.

Definition digit_val (a : ascii) : option Z :=
  let n := nat_of_ascii a in
  if ((48 <=? n) && (n <=? 57))%nat then Some (Z.of_nat n - 48) else None.

(** Decimal digits with single underscores between digits; [seen] tells
    whether the previous character was a digit. *)
Fixpoint int_digits (acc : Z) (seen : bool) (s : string) : option Z :=
  match s with
  | EmptyString => if seen then Some acc else None
  | String a r =>
      match digit_val a with
      | Some d => int_digits (10 * acc + d) true r
      | None =>
          if Ascii.eqb a "_"%char && seen then int_digits acc false r
          else None
      end
  end.

(** The whitespace that [int] skips around a number.  Below 127 it is the
    parser's own test (9 to 13 and the space): the separators 28 to 31, which
    [str.strip] removes, are refused.  The two spaces 133 and 160 are turned
    into a space before the parser sees the string. *)
Definition is_int_space (a : ascii) : bool :=
  let n := nat_of_ascii a in
  ((9 <=? n) && (n <=? 13) || (n =? 32) || (n =? 133) || (n =? 160))%nat.

Fixpoint int_lstrip (s : string) : string :=
  match s with
  | EmptyString => EmptyString
  | String a s' => if is_int_space a then int_lstrip s' else s
  end.

Fixpoint int_rstrip (s : string) : string :=
  match s with
  | EmptyString => EmptyString
  | String a s' =>
      let r := int_rstrip s' in
      if is_int_space a && is_empty r then EmptyString else String a r
  end.

(** The number of digit characters, underscores and sign left out. *)
Fixpoint count_digits (s : string) : nat :=
  match s with
  | EmptyString => 0%nat
  | String a r =>
      ((match digit_val a with Some _ => 1 | None => 0 end) + count_digits r)%nat
  end.

(** [sys.int_info.default_max_str_digits] *)
Definition max_str_digits : nat := 4300%nat.

(** A well-formed run of digits with more than [max_str_digits] digits is
    refused as well. *)
Definition int_body (s : string) : option Z :=
  match int_digits 0 false s with
  | Some v => if (max_str_digits <? count_digits s)%nat then None else Some v
  | None => None
  end.

(** [int(s)] for a string: surrounding whitespace, an optional sign, then
    decimal digits, under the interpreter's default limit on their number.
    [None] is [ValueError]. *)
Definition int (s : string) : option Z :=
  match int_rstrip (int_lstrip s) with
  | String "+"%char r => int_body r
  | String "-"%char r => Z.opp <$> int_body r
  | t => int_body t
  end.

End PyStr.

(** ** Reading a line (lines 105-124 and 176-195, the same code twice) *)

(** What the head of the loop body yields for one line. *)
Inductive line_view : Type :=
  | Skipped
  | Split (line_split : list string).

Record reader : Type := mkReader {
  check_for_comments : bool;
  use_strip : option bool
}.

Definition reader0 : reader :=
  {| check_for_comments := true; use_strip := None |}.

Definition read_line (comment : string) (rd : reader) (line : string)
  : reader * line_view :=
  if check_for_comments rd && PyStr.startswith line comment then (rd, Skipped)
  else
    match use_strip rd with
    | None =>
        let line_split := PyStr.split_tab (PyStr.strip line) in
        ({| check_for_comments := false;
            use_strip := Some (Nat.eqb (length line_split) 4%nat) |},
         Split line_split)
    | Some false =>
        ({| check_for_comments := false; use_strip := Some false |},
         Split (PyStr.split_tab line))
    | Some true =>
        ({| check_for_comments := false; use_strip := Some true |},
         Split (PyStr.split_tab (PyStr.strip line)))
    end.

(** ** get_barcodes *)

(** The loop of [get_barcodes]; the set is returned as such, the order of
    [list(barcodes)] being left open by Python. *)
Fixpoint get_barcodes_loop (comment : string) (rd : reader)
    (barcodes : gset string) (lines : list string) : result (gset string) :=
  match lines with
  | [] => Ok barcodes
  | line :: rest =>
      match read_line comment rd line with
      | (rd', Skipped) => get_barcodes_loop comment rd' barcodes rest
      | (rd', Split line_split) =>
          match line_split !! 3%nat with
          | None => Err IndexError
          | Some bc => get_barcodes_loop comment rd' ({[bc]} ∪ barcodes) rest
          end
      end
  end.

Definition get_barcodes (fragments : list string) (comment : string)
  : result (gset string) :=
  get_barcodes_loop comment reader0 ∅ fragments.

Definition nl : string := String "010"%char EmptyString.
Definition tb : string := String PyStr.tab EmptyString.

Definition mk_line (fields : list string) : string :=
  String.concat tb fields +:+ nl.

(** ** Data model *)

(** A feature is the list [[chr, start, stop]] that the callers pass. *)
Record feature : Type := mkFeature {
  f_chrom : string;
  f_start : Z;
  f_stop : Z
}.

(** Lines 161-165: a rank for every chromosome, by first appearance. *)
Fixpoint build_chrom_mapping (chroms : list string)
    (chrom_mapping : gmap string nat) (c : nat) : gmap string nat :=
  match chroms with
  | [] => chrom_mapping
  | chrom :: rest =>
      match chrom_mapping !! chrom with
      | None => build_chrom_mapping rest (<[chrom := c]> chrom_mapping) (S c)
      | Some _ => build_chrom_mapping rest chrom_mapping c
      end
  end.

Definition chrom_mapping_of (features : list feature) : gmap string nat :=
  build_chrom_mapping (map f_chrom features) ∅ 0%nat.

(** Line 145: [{bc: i for i, bc in enumerate(valid_bcs)}]; a later position
    of the same barcode overwrites an earlier one. *)
Fixpoint enumerate_into (i : nat) (bcs : list string)
    (bc_mapping : gmap string nat) : gmap string nat :=
  match bcs with
  | [] => bc_mapping
  | bc :: rest => enumerate_into (S i) rest (<[bc := i]> bc_mapping)
  end.

Definition bc_mapping_of (valid_bcs : list string) : gmap string nat :=
  enumerate_into 0 valid_bcs ∅.

(** ** Count tables *)

(** What [count] needs of a table: creation with a shape, [m[r, c] += 1]
    ([None] is Python's IndexError), and reading a cell. *)
Class Accumulator (A : Type) : Type := {
  acc_new : nat → nat → A;
  acc_incr : A → nat → nat → option A;
  acc_cell : A → nat → nat → Z
}.

(** *** Dense: a list of row lists (line 153) *)

Abbreviation dense := (list (list Z)).

Definition dense_new (n_bcs n_features : nat) : dense :=
  replicate n_bcs (replicate n_features 0).

Definition dense_incr (m : dense) (r c : nat) : option dense :=
  match m !! r with
  | None => None
  | Some row =>
      match row !! c with
      | None => None
      | Some v => Some (<[r := <[c := v + 1]> row]> m)
      end
  end.

Definition dense_cell (m : dense) (r c : nat) : Z :=
  default 0 (m !! r ≫= (.!! c)).

#[export] Instance dense_acc : Accumulator dense :=
  {| acc_new := dense_new; acc_incr := dense_incr; acc_cell := dense_cell |}.

(** *** Sparse: scipy's [lil_matrix] (line 156)

    Row [i] pairs up scipy's [rows[i]] (column indices, ascending) and
    [data[i]] (the values at these columns); values are the exact numbers
    that the float entries hold. *)

Record lil : Type := mkLil {
  lil_shape : nat * nat;
  lil_rows : list (list (nat * Z))
}.

Definition lil_new (n_bcs n_features : nat) : lil :=
  {| lil_shape := (n_bcs, n_features); lil_rows := replicate n_bcs [] |}.

Fixpoint row_get (j : nat) (row : list (nat * Z)) : Z :=
  match row with
  | [] => 0
  | (k, v) :: rest =>
      if (k <? j)%nat then row_get j rest
      else if (k =? j)%nat then v else 0
  end.

Fixpoint row_insert (j : nat) (x : Z) (row : list (nat * Z))
  : list (nat * Z) :=
  match row with
  | [] => [(j, x)]
  | (k, v) :: rest =>
      if (k <? j)%nat then (k, v) :: row_insert j x rest
      else if (k =? j)%nat then (j, x) :: rest
      else (j, x) :: row
  end.

Fixpoint row_delete (j : nat) (row : list (nat * Z)) : list (nat * Z) :=
  match row with
  | [] => []
  | (k, v) :: rest =>
      if (k <? j)%nat then (k, v) :: row_delete j rest
      else if (k =? j)%nat then rest
      else row
  end.

Definition in_shape (m : lil) (i j : nat) : bool :=
  ((i <? fst (lil_shape m)) && (j <? snd (lil_shape m)))%nat.

(** [m[i, j]] *)
Definition lil_get (m : lil) (i j : nat) : option Z :=
  if in_shape m i j then row_get j <$> lil_rows m !! i else None.

(** [m[i, j] = x]; storing zero removes the entry. *)
Definition lil_set (m : lil) (i j : nat) (x : Z) : option lil :=
  if in_shape m i j then
    match lil_rows m !! i with
    | None => None
    | Some row =>
        let row' := if x =? 0 then row_delete j row else row_insert j x row in
        Some {| lil_shape := lil_shape m; lil_rows := <[i := row']> (lil_rows m) |}
    end
  else None.

(** [m[i, j] += 1] *)
Definition lil_incr (m : lil) (i j : nat) : option lil :=
  match lil_get m i j with
  | None => None
  | Some v => lil_set m i j (v + 1)
  end.

Definition lil_cell (m : lil) (i j : nat) : Z := default 0 (lil_get m i j).

#[export] Instance lil_acc : Accumulator lil :=
  {| acc_new := lil_new; acc_incr := lil_incr; acc_cell := lil_cell |}.

(** *** Compressed sparse rows (lines 352-355) *)





(** The nonzero entries of a dense row with their columns, from column [j]. *)
Fixpoint nz_from (j : nat) (row : list Z) : list (nat * Z) :=
  match row with
  | [] => []
  | v :: rest =>
      if v =? 0 then nz_from (S j) rest else (j, v) :: nz_from (S j) rest
  end.



(** ** The scan (lines 176-294) *)

(** The variables that the loop of [count] mutates besides the reader's. *)
Record scan (A : Type) : Type := mkScan {
  feature_idx : nat;
  count_mtx : A
}.
Arguments mkScan {A} _ _.
Arguments feature_idx {A} _.
Arguments count_mtx {A} _.

(** How one pass through the loop body ends: at the next line ([continue] or
    the end of the body), with [break], or with an exception, which leaves
    the cursor where it was when raised. *)
Inductive ctl (A : Type) : Type :=
  | Next (sc : scan A)
  | Break (sc : scan A)
  | Raise (e : exn) (idx : nat).
Arguments Next {A} sc.
Arguments Break {A} sc.
Arguments Raise {A} e idx.

Section Scan.
Context {A : Type} `{Accumulator A}.
Variable features : list feature.
Variable chrom_mapping : gmap string nat.
Variable bc_mapping : gmap string nat.
Variable valid_bcs_set : gset string.

(** Line 219-220, over the features from the cursor on: the cursor after
    the loop and what the loop raised, if anything. *)
Fixpoint skip_chroms (chrom_int : nat) (fs : list feature) (idx : nat)
  : nat * option exn :=
  match fs with
  | [] => (idx, None)
  | f :: fs' =>
      match chrom_mapping !! f_chrom f with
      | None => (idx, Some KeyError)
      | Some r =>
          if (r <? chrom_int)%nat then skip_chroms chrom_int fs' (S idx)
          else (idx, None)
      end
  end.

(** Line 235-236. *)
Fixpoint skip_behind (start : Z) (chrom_int : nat) (fs : list feature)
    (idx : nat) : nat * option exn :=
  match fs with
  | [] => (idx, None)
  | f :: fs' =>
      if f_stop f <? start then
        match chrom_mapping !! f_chrom f with
        | None => (idx, Some KeyError)
        | Some r =>
            if (chrom_int =? r)%nat
            then skip_behind start chrom_int fs' (S idx)
            else (idx, None)
        end
      else (idx, None)
  end.

(** [count_mtx[bc_mapping[bc]][idx] += 1] (lines 249-252 and their copies) *)
Definition hit (bc : string) (idx : nat) (mtx : A) : result A :=
  match bc_mapping !! bc with
  | None => Err KeyError
  | Some row =>
      match acc_incr mtx row idx with
      | None => Err IndexError
      | Some mtx' => Ok mtx'
      end
  end.

(** The follow-up loop (lines 259-269 and 284-294), over the features from
    [tmp_idx] on. *)
Fixpoint follow_up (bc : string) (chrom_int : nat) (start stop : Z)
    (fs : list feature) (tmp_idx : nat) (mtx : A) : result A :=
  match fs with
  | [] => Ok mtx
  | f :: fs' =>
      let is_overlapping := negb ((stop <? f_start f) || (f_stop f <? start)) in
      match chrom_mapping !! f_chrom f with
      | None => Err KeyError
      | Some r =>
          let on_same_chrom := (chrom_int =? r)%nat in
          if is_overlapping && on_same_chrom then
            match hit bc tmp_idx mtx with
            | Err e => Err e
            | Ok mtx' => follow_up bc chrom_int start stop fs' (S tmp_idx) mtx'
            end
          else Ok mtx
      end
  end.

(** The two "overlap" blocks: a hit for the cursor's feature, then the
    follow-up from the next one.  The cursor does not move. *)
Definition overlap (bc : string) (chrom_int : nat) (start stop : Z)
    (idx : nat) (mtx : A) : ctl A :=
  match hit bc idx mtx with
  | Err e => Raise e idx
  | Ok mtx' =>
      match follow_up bc chrom_int start stop
              (drop (S idx) features) (S idx) mtx' with
      | Err e => Raise e idx
      | Ok mtx'' => Next (mkScan idx mtx'')
      end
  end.

(** Lines 226-294. *)
Definition intervals (line_split : list string) (bc : string)
    (chrom_int : nat) (idx : nat) (mtx : A) : ctl A :=
  match line_split !! 1%nat with
  | None => Raise IndexError idx
  | Some s1 =>
  match PyStr.int s1 with
  | None => Raise ValueError idx
  | Some start =>
  match line_split !! 2%nat with
  | None => Raise IndexError idx
  | Some s2 =>
  match PyStr.int s2 with
  | None => Raise ValueError idx
  | Some stop =>
  match features !! idx with
  | None => Raise IndexError idx
  | Some f =>
      if stop <? f_start f then Next (mkScan idx mtx)
      else if f_stop f <? start then
        match skip_behind start chrom_int (drop idx features) idx with
        | (idx', Some e) => Raise e idx'
        | (idx', None) =>
            if (length features <=? idx')%nat then Break (mkScan idx' mtx)
            else
              match features !! idx' with
              | None => Raise IndexError idx'
              | Some f' =>
                  match chrom_mapping !! f_chrom f' with
                  | None => Raise KeyError idx'
                  | Some r' =>
                      if negb (chrom_int =? r')%nat then Next (mkScan idx' mtx)
                      else if negb (stop <? f_start f')
                      then overlap bc chrom_int start stop idx' mtx
                      else Next (mkScan idx' mtx)
                  end
              end
        end
      else overlap bc chrom_int start stop idx mtx
  end end end end end.

(** Lines 199-294: the loop body after the line has been split. *)
Definition process (line_split : list string) (sc : scan A) : ctl A :=
  let idx := feature_idx sc in
  match line_split !! 3%nat with
  | None => Raise IndexError idx
  | Some bc =>
      if bool_decide (bc ∈ valid_bcs_set) then
        match line_split !! 0%nat with
        | None => Raise IndexError idx
        | Some chrom =>
            match chrom_mapping !! chrom with
            | None => Next sc
            | Some chrom_int =>
                match features !! idx with
                | None => Raise IndexError idx
                | Some f =>
                    match chrom_mapping !! f_chrom f with
                    | None => Raise KeyError idx
                    | Some r =>
                        if (chrom_int <? r)%nat then Next sc
                        else if (r <? chrom_int)%nat then
                          match skip_chroms chrom_int (drop idx features) idx with
                          | (idx', Some e) => Raise e idx'
                          | (idx', None) =>
                              if (length features <=? idx')%nat
                              then Break (mkScan idx' (count_mtx sc))
                              else intervals line_split bc chrom_int idx'
                                     (count_mtx sc)
                          end
                        else intervals line_split bc chrom_int idx (count_mtx sc)
                    end
                end
            end
        end
      else Next sc
  end.

(** How the [for] loop over the lines ends. *)
Inductive outcome : Type :=
  | Finished (rd : reader) (sc : scan A)
  | Exhausted (sc : scan A)
  | Failed (e : exn) (idx : nat).

Fixpoint run (comment : string) (rd : reader) (sc : scan A)
    (lines : list string) : outcome :=
  match lines with
  | [] => Finished rd sc
  | line :: rest =>
      match read_line comment rd line with
      | (rd', Skipped) => run comment rd' sc rest
      | (rd', Split line_split) =>
          match process line_split sc with
          | Next sc' => run comment rd' sc' rest
          | Break sc' => Exhausted sc'
          | Raise e idx => Failed e idx
          end
      end
  end.

Definition cursor_of (o : outcome) : nat :=
  match o with
  | Finished _ sc | Exhausted sc => feature_idx sc
  | Failed _ idx => idx
  end.

Definition returned (o : outcome) : result A :=
  match o with
  | Finished _ sc | Exhausted sc => Ok (count_mtx sc)
  | Failed e _ => Err e
  end.

End Scan.

Arguments outcome A : clear implicits.

(** ** count *)

(** The loop of [count] on the lines of the fragments file, with the tables
    of lines 144-165 built, for either kind of count table. *)
Definition count_run {A : Type} `{Accumulator A} (fragments : list string)
    (features : list feature) (valid_bcs : list string) (comment : string)
  : outcome A :=
  run features (chrom_mapping_of features) (bc_mapping_of valid_bcs)
      (list_to_set valid_bcs) comment reader0
      (mkScan 0%nat (acc_new (length valid_bcs) (length features)))
      fragments.

Inductive table : Type :=
  | DenseT (m : dense)
  | SparseT (m : lil).

Definition fmap_result {A B : Type} (f : A → B) (r : result A) : result B :=
  match r with Ok a => Ok (f a) | Err e => Err e end.

Definition count (fragments : list string) (features : list feature)
    (valid_bcs : list string) (fast : bool) (comment : string) : result table :=
  if fast
  then fmap_result DenseT (returned (count_run (A := dense) fragments features valid_bcs comment))
  else fmap_result SparseT (returned (count_run (A := lil) fragments features valid_bcs comment)).

Definition cell (t : table) (r c : nat) : Z :=
  match t with DenseT m => dense_cell m r c | SparseT m => lil_cell m r c end.


(** [m[r][c]] on the list of lists: [None] is [IndexError]. *)
Definition dense_get (m : dense) (r c : nat) : option Z := m !! r ≫= (.!! c).

(** [t[r][c]], respectively [t[r, c]]. *)
Definition get (t : table) (r c : nat) : option Z :=
  match t with DenseT m => dense_get m r c | SparseT m => lil_get m r c end.

(** ** The stream as records, and what a full overlap count would be *)

Record fragment : Type := mkFragment {
  fr_chrom : string;
  fr_start : Z;
  fr_stop : Z;
  fr_barcode : string
}.

(** The record that a split line stands for: its first four fields, the
    coordinates read by [int]. *)
Definition parse_fragment (line_split : list string) : option fragment :=
  match line_split with
  | chrom :: s1 :: s2 :: bc :: _ =>
      match PyStr.int s1, PyStr.int s2 with
      | Some start, Some stop => Some (mkFragment chrom start stop bc)
      | _, _ => None
      end
  | _ => None
  end.

(** The values that [line_split] takes over the lines of a file, in order,
    when the loop reads all of them. *)
Fixpoint line_splits (comment : string) (rd : reader) (lines : list string)
  : list (list string) :=
  match lines with
  | [] => []
  | line :: rest =>
      match read_line comment rd line with
      | (rd', Skipped) => line_splits comment rd' rest
      | (rd', Split line_split) => line_split :: line_splits comment rd' rest
      end
  end.

(** The records of a file, when every line read stands for one. *)
Definition read_fragments (comment : string) (lines : list string)
  : option (list fragment) :=
  mapM parse_fragment (line_splits comment reader0 lines).

(** Closed-interval overlap on the same chromosome. *)
Definition overlaps (fr : fragment) (f : feature) : bool :=
  (f_start f <=? fr_stop fr) && (fr_start fr <=? f_stop f).

Definition hits (fr : fragment) (f : feature) : bool :=
  String.eqb (fr_chrom fr) (f_chrom f) && overlaps fr f.

(** The number of fragments of valid barcode that overlap feature [f]. *)
Definition overlapping (valid_bcs : list string) (frs : list fragment)
    (f : feature) : nat :=
  length (filter (λ fr, fr_barcode fr ∈ valid_bcs ∧ hits fr f = true) frs).

(** The hits recorded for the feature at position [j]: its column summed
    over the [n] barcode rows. *)
Fixpoint sum_rows (x : nat → Z) (n : nat) : Z :=
  match n with
  | O => 0
  | S n' => sum_rows x n' + x n'
  end.

Definition feature_total (t : table) (n j : nat) : Z :=
  sum_rows (λ r, cell t r j) n.

Definition n_rows (t : table) : nat :=
  match t with DenseT m => length m | SparseT m => fst (lil_shape m) end.

(** *** Orders on the inputs *)

Fixpoint all_pairs {X : Type} (le : X → X → bool) (l : list X) : bool :=
  match l with
  | [] => true
  | x :: rest => forallb (le x) rest && all_pairs le rest
  end.

(** The order in which the callers sort: chromosomes in the order of their
    ranks, then start, then stop. *)
Definition feature_lex_le (chrom_mapping : gmap string nat) (f g : feature)
  : bool :=
  match chrom_mapping !! f_chrom f, chrom_mapping !! f_chrom g with
  | Some a, Some b =>
      (a <? b)%nat
      || (a =? b)%nat
         && ((f_start f <? f_start g)
             || (f_start f =? f_start g) && (f_stop f <=? f_stop g))
  | _, _ => false
  end.

Definition features_sorted (features : list feature) : bool :=
  all_pairs (feature_lex_le (chrom_mapping_of features)) features.

(** The same with, in addition, no feature ending after a later one of its
    chromosome. *)
Definition feature_le (chrom_mapping : gmap string nat) (f g : feature)
  : bool :=
  match chrom_mapping !! f_chrom f, chrom_mapping !! f_chrom g with
  | Some a, Some b =>
      (a <? b)%nat
      || (a =? b)%nat && (f_start f <=? f_start g) && (f_stop f <=? f_stop g)
  | _, _ => false
  end.

Definition features_sorted_unnested (features : list feature) : bool :=
  all_pairs (feature_le (chrom_mapping_of features)) features.

(** Fragments: by the rank of the chromosome, then by start; fragments of a
    chromosome without rank may stand anywhere. *)
Definition fragment_le (chrom_mapping : gmap string nat) (x y : fragment)
  : bool :=
  match chrom_mapping !! fr_chrom x, chrom_mapping !! fr_chrom y with
  | Some a, Some b =>
      (a <? b)%nat || (a =? b)%nat && (fr_start x <=? fr_start y)
  | _, _ => true
  end.

Definition fragments_sorted (features : list feature) (frs : list fragment)
  : bool :=
  all_pairs (fragment_le (chrom_mapping_of features)) frs.

(** ** A table that only records the increments *)

Record trace : Type := mkTrace {
  tr_shape : nat * nat;
  tr_events : list (nat * nat)
}.

Definition trace_new (n_bcs n_features : nat) : trace :=
  {| tr_shape := (n_bcs, n_features); tr_events := [] |}.

Definition trace_incr (t : trace) (r c : nat) : option trace :=
  if ((r <? fst (tr_shape t)) && (c <? snd (tr_shape t)))%nat
  then Some {| tr_shape := tr_shape t; tr_events := (r, c) :: tr_events t |}
  else None.

Definition trace_cell (t : trace) (r c : nat) : Z :=
  Z.of_nat (length (filter (λ e, e = (r, c)) (tr_events t))).

#[export] Instance trace_acc : Accumulator trace :=
  {| acc_new := trace_new; acc_incr := trace_incr; acc_cell := trace_cell |}.

(** ** The loop without the reader *)

Section Splits.
Context {A : Type} `{Accumulator A}.
Variable features : list feature.
Variable chrom_mapping : gmap string nat.
Variable bc_mapping : gmap string nat.
Variable valid_bcs_set : gset string.

(** [run] on lines already split; the reader's state is of no use. *)
Fixpoint scan_splits (sc : scan A) (splits : list (list string))
  : ctl A :=
  match splits with
  | [] => Next sc
  | line_split :: rest =>
      match process features chrom_mapping bc_mapping valid_bcs_set
              line_split sc with
      | Next sc' => scan_splits sc' rest
      | Break sc' => Break sc'
      | Raise e idx => Raise e idx
      end
  end.

End Splits.

(** ** The reference that strips every line *)





(** The lines after the leading block of comment lines. *)
Fixpoint drop_comments (comment : string) (lines : list string)
  : list string :=
  match lines with
  | [] => []
  | line :: rest =>
      if PyStr.startswith line comment then drop_comments comment rest
      else lines
  end.



Definition ctl_cursor {A : Type} (c : ctl A) : nat :=
  match c with
  | Next sc | Break sc => feature_idx sc
  | Raise _ idx => idx
  end.

(** ** Where the cursor can be *)

(** Where the loop body leaves the cursor when it starts inside the list:
    inside the list when the loop goes on and when an exception leaves the
    body, at the end of the list when the body breaks. *)
Definition ctl_in_range {A : Type} (features : list feature) (c : ctl A) : Prop :=
  match c with
  | Next sc => (feature_idx sc < length features)%nat
  | Break sc => feature_idx sc = length features
  | Raise _ idx => (idx < length features)%nat
  end.

(** A cursor that the scan can use: an index of the list, or the initial 0
    when there is no feature. *)
Definition cursor_inside (features : list feature) (idx : nat) : Prop :=
  (idx < length features)%nat ∨ (features = [] ∧ idx = 0%nat).

Definition outcome_in_range {A : Type} (features : list feature) (o : outcome A)
  : Prop :=
  match o with
  | Finished _ sc => cursor_inside features (feature_idx sc)
  | Exhausted sc => feature_idx sc = length features
  | Failed _ idx => cursor_inside features idx
  end.

(** What the scan has committed to once it has read the lines [pre].  As
    long as the loop goes on, and when an exception ends it, the cursor is
    inside the list: no access to the features is made at the end of the
    list.  After a [break] the cursor stands at the end of the list, no
    further line changes the outcome, and the table is the one that the scan
    had before the line that made it break.  So a cursor that has reached
    the end of a list of features has ended the scan by [break], and [count]
    returns the table. *)
Definition exhaustion_final {A : Type} `{Accumulator A} (features : list feature)
    (valid_bcs : list string) (comment : string) (pre rest : list string) : Prop :=
  match count_run (A := A) pre features valid_bcs comment with
  | Exhausted sc =>
      feature_idx sc = length features
      ∧ count_run (A := A) (pre ++ rest) features valid_bcs comment = Exhausted sc
      ∧ ∃ before line after rd sc0,
          pre = (before ++ line :: after)%list
          ∧ count_run (A := A) before features valid_bcs comment = Finished rd sc0
          ∧ (feature_idx sc0 < length features)%nat
          ∧ count_mtx sc = count_mtx sc0
  | Finished _ sc => cursor_inside features (feature_idx sc)
  | Failed _ idx => cursor_inside features idx
  end
  ∧ (features ≠ [] →
     cursor_of (count_run (A := A) pre features valid_bcs comment)
     = length features →
     ∃ sc, count_run (A := A) pre features valid_bcs comment = Exhausted sc
           ∧ returned (count_run (A := A) (pre ++ rest) features valid_bcs comment)
             = Ok (count_mtx sc)).

(** ** Relating two kinds of table *)

Definition ctl_rel {A B : Type} (R : A → B → Prop) (c1 : ctl A) (c2 : ctl B)
  : Prop :=
  match c1, c2 with
  | Next s1, Next s2 | Break s1, Break s2 =>
      feature_idx s1 = feature_idx s2 ∧ R (count_mtx s1) (count_mtx s2)
  | Raise e1 i1, Raise e2 i2 => e1 = e2 ∧ i1 = i2
  | _, _ => False
  end.

Definition outcome_rel {A B : Type} (R : A → B → Prop) (o1 : outcome A)
    (o2 : outcome B) : Prop :=
  match o1, o2 with
  | Finished rd1 s1, Finished rd2 s2 =>
      rd1 = rd2 ∧ feature_idx s1 = feature_idx s2
      ∧ R (count_mtx s1) (count_mtx s2)
  | Exhausted s1, Exhausted s2 =>
      feature_idx s1 = feature_idx s2 ∧ R (count_mtx s1) (count_mtx s2)
  | Failed e1 i1, Failed e2 i2 => e1 = e2 ∧ i1 = i2
  | _, _ => False
  end.

Definition result_rel {A B : Type} (R : A → B → Prop) (r1 : result A)
    (r2 : result B) : Prop :=
  match r1, r2 with
  | Ok a, Ok b => R a b
  | Err e1, Err e2 => e1 = e2
  | _, _ => False
  end.

(** The sparse table holds, row by row, the nonzero entries of the dense
    one, whose rows all have the sparse table's number of columns. *)
Definition dense_lil (m : dense) (l : lil) : Prop :=
  fst (lil_shape l) = length m
  ∧ Forall (λ row, length row = snd (lil_shape l)) m
  ∧ lil_rows l = map (nz_from 0) m.





(** ** The loop on split lines and on lines *)

Definition ctl_of_outcome {A : Type} (o : outcome A) : ctl A :=
  match o with
  | Finished _ sc => Next sc
  | Exhausted sc => Break sc
  | Failed e idx => Raise e idx
  end.

(** What [count] returns when the loop ends as [c]. *)
Definition ctl_returned {A : Type} (c : ctl A) : result A :=
  match c with
  | Next sc | Break sc => Ok (count_mtx sc)
  | Raise e _ => Err e
  end.

(** ** The merge and its invariant *)

(** No feature before position [idx] is hit by a fragment of [frs] with a
    valid barcode. *)
Definition no_hit_before (features : list feature) (valid_bcs : list string)
    (idx : nat) (frs : list fragment) : Prop :=
  ∀ j f fr, (j < idx)%nat → features !! j = Some f → fr ∈ frs →
            fr_barcode fr ∈ valid_bcs → hits fr f = false.

(** The increments recorded for column [j]. *)
Definition col_count (j : nat) (t : trace) : nat :=
  length (filter (λ e, e.2 = j) (tr_events t)).

Definition hit_once (valid_bcs : list string) (fr : fragment) (f : feature)
  : nat :=
  if decide (fr_barcode fr ∈ valid_bcs ∧ hits fr f = true) then 1%nat else 0%nat.

(** From [t] to [t'], every feature that [fr] hits has got one increment
    and no other feature any. *)
Definition counted (features : list feature) (valid_bcs : list string)
    (fr : fragment) (t t' : trace) : Prop :=
  tr_shape t' = tr_shape t
  ∧ ∀ j f, features !! j = Some f →
           col_count j t' = (col_count j t + hit_once valid_bcs fr f)%nat.

(** The dense table holds in each cell the number of increments recorded
    for it. *)
Definition dense_trace (m : dense) (t : trace) : Prop :=
  fst (tr_shape t) = length m
  ∧ Forall (λ row, length row = snd (tr_shape t)) m
  ∧ Forall (λ e, (e.1 < fst (tr_shape t))%nat) (tr_events t)
  ∧ ∀ r c, dense_cell m r c = trace_cell t r c.

(** What one pass through the loop body, from cursor [idx] and table [t],
    must achieve for the fragment [fr] that is followed by [rest]. *)
Definition step_post (features : list feature) (valid_bcs : list string)
    (fr : fragment) (rest : list fragment) (idx : nat) (t : trace)
    (c : ctl trace) : Prop :=
  match c with
  | Next sc' | Break sc' =>
      (idx <= feature_idx sc')%nat
      ∧ counted features valid_bcs fr t (count_mtx sc')
      ∧ no_hit_before features valid_bcs (feature_idx sc') (fr :: rest)
  | Raise _ _ => False
  end.

(** ** Tables before any hit, and rows that no barcode has *)

(** The table of lines 152-156. *)
Definition empty_table (fast : bool) (n_bcs n_features : nat) : table :=
  if fast then DenseT (dense_new n_bcs n_features)
  else SparseT (lil_new n_bcs n_features).


(** ** Inputs of the scenarios *)

Definition bc1_line (chrom start stop : string) : string :=
  mk_line [chrom; start; stop; "bc1"].

Definition feature_200_300 : list feature := [ mkFeature "chr1" 200 300 ].

Definition features_adjacent : list feature :=
  [ mkFeature "chr1" 100 150; mkFeature "chr1" 140 160;
    mkFeature "chr1" 155 300 ].

Definition features_adjacent_more : list feature :=
  features_adjacent ++ [ mkFeature "chr1" 400 500; mkFeature "chr2" 100 200 ].

Definition features_nested : list feature :=
  [ mkFeature "chr1" 0 1000; mkFeature "chr1" 10 20;
    mkFeature "chr1" 30 2000 ].

Definition demo_fragments : list string :=
  [ "# fragments" +:+ nl;
    mk_line ["chr1"; "60"; "70"; "bc1"; "2"];
    mk_line ["chr1"; "120"; "130"; "bc2"; "1"];
    mk_line ["chrM"; "1"; "2"; "bc1"; "1"];
    mk_line ["chr1"; "140"; "400"; "bc9"; "1"];
    mk_line ["chr2"; "5"; "6"; "bc1"; "1"] ].

Definition demo_records : list fragment :=
  [ mkFragment "chr1" 60 70 "bc1"; mkFragment "chr1" 120 130 "bc2";
    mkFragment "chrM" 1 2 "bc1"; mkFragment "chr1" 140 400 "bc9";
    mkFragment "chr2" 5 6 "bc1" ].

Definition demo_features : list feature :=
  [ mkFeature "chr1" 0 100; mkFeature "chr1" 50 150; mkFeature "chr2" 0 10 ].

(** ** get_barcodes on split lines *)

(** The loop of [get_barcodes] on lines already split. *)
Fixpoint barcodes_of_splits (barcodes : gset string)
    (splits : list (list string)) : result (gset string) :=
  match splits with
  | [] => Ok barcodes
  | line_split :: rest =>
      match line_split !! 3%nat with
      | None => Err IndexError
      | Some bc => barcodes_of_splits ({[bc]} ∪ barcodes) rest
      end
  end.

Definition short_line : string := mk_line ["chr1"; "1"; "2"].


(** ** Further notions for the properties of the loop *)

(** Features whose chromosomes come in groups: ranks do not decrease. *)
Definition rank_le (chrom_mapping : gmap string nat) (f g : feature) : bool :=
  match chrom_mapping !! f_chrom f, chrom_mapping !! f_chrom g with
  | Some a, Some b => (a <=? b)%nat
  | _, _ => false
  end.

Definition features_grouped (features : list feature) : bool :=
  all_pairs (rank_le (chrom_mapping_of features)) features.

(** What in a split line makes the loop body raise [e]: too few fields for
    [line_split[3]], or a coordinate that [int] does not read. *)
Definition raises_on (line_split : list string) (e : exn) : Prop :=
  (e = IndexError ∧ (length line_split < 4)%nat)
  ∨ (e = ValueError
     ∧ ∃ k s, (k = 1%nat ∨ k = 2%nat) ∧ line_split !! k = Some s
              ∧ PyStr.int s = None).

(** From [t] to [t'], no column has got an increment that is not a hit of
    [fr]. *)
Definition counted_le (features : list feature) (valid_bcs : list string)
    (fr : fragment) (t t' : trace) : Prop :=
  tr_shape t' = tr_shape t
  ∧ ∀ j f, features !! j = Some f →
           (col_count j t' <= col_count j t + hit_once valid_bcs fr f)%nat.

(** A table of [n] rows of [k] cells, none of them below the cell of [m0]. *)
Definition dense_above (m0 : dense) (a b : dense) : Prop :=
  a = b ∧ ∀ r c, dense_cell m0 r c <= dense_cell a r c.

Definition dense_shaped (n k : nat) (a b : dense) : Prop :=
  a = b ∧ length a = n ∧ Forall (λ row, length row = k) a.

Definition lil_shaped (n k : nat) (a b : lil) : Prop :=
  a = b ∧ lil_shape a = (n, k) ∧ length (lil_rows a) = n.

(** The line of a fragment that the loop drops without a look at its
    coordinates: its barcode is not valid, or its chromosome has no
    feature. *)
Definition dropped_split (features : list feature) (valid_bcs : list string)
    (line_split : list string) : Prop :=
  ∃ bc, line_split !! 3%nat = Some bc
        ∧ (bc ∉ valid_bcs
           ∨ ∃ chrom, line_split !! 0%nat = Some chrom
                      ∧ chrom_mapping_of features !! chrom = None).

(** * Properties *)

(** ** Examples *)

(** [int] on the fields of a line: the whitespace it skips is not that of
    [str.strip], and a run of more than 4300 digits is refused. *)
Example int_ex :
  PyStr.int "50" = Some 50
  ∧ PyStr.int (" 60" +:+ nl) = Some 60
  ∧ PyStr.int "-7" = Some (-7)
  ∧ PyStr.int "+1_000" = Some 1000
  ∧ PyStr.int "1__0" = None
  ∧ PyStr.int "5 0" = None
  ∧ PyStr.int "" = None
  ∧ PyStr.int "0x10" = None
  ∧ PyStr.strip (String (ascii_of_nat 28) "5") = "5"
  ∧ PyStr.int (String (ascii_of_nat 28) "5") = None
  ∧ PyStr.int (String (ascii_of_nat 160) "5") = Some 5
  ∧ PyStr.int (string_of_list_ascii (replicate 4300 "1"%char)) ≠ None
  ∧ PyStr.int (string_of_list_ascii (replicate 4301 "1"%char)) = None.
Proof. repeat split; try (vm_compute; reflexivity); vm_compute; discriminate. Qed.

Example get_barcodes_ex :
  get_barcodes [ "# header" +:+ nl; mk_line ["chr1"; "1"; "2"; "bcA"; "3"];
                 mk_line ["chr1"; "5"; "9"; "bcB"; "1"] ] "#"
  = Ok ({[ "bcA"; "bcB" ]} : gset string).
Proof. vm_compute. reflexivity. Qed.

Example count_ex_dense :
  count [ mk_line ["chr1"; "50"; "60"; "bc1"];
          mk_line ["chr1"; "200"; "210"; "bc1"];
          mk_line ["chr2"; "10"; "20"; "bc1"] ]
        [ mkFeature "chr1" 0 100 ] ["bc1"] true "#"
  = Ok (DenseT [[1]]).
Proof. vm_compute. reflexivity. Qed.

(** ** The loop and the cursor *)

Section Cursor.
Context {A : Type} `{Accumulator A}.
Variable features : list feature.
Variable chrom_mapping : gmap string nat.
Variable bc_mapping : gmap string nat.
Variable valid_bcs_set : gset string.

Lemma run_app comment rd sc pre rest :
  run features chrom_mapping bc_mapping valid_bcs_set comment rd sc (pre ++ rest)
  = match run features chrom_mapping bc_mapping valid_bcs_set comment rd sc pre with
    | Finished rd' sc' =>
        run features chrom_mapping bc_mapping valid_bcs_set comment rd' sc' rest
    | o => o
    end.
Proof.
  revert rd sc. induction pre as [|line pre IH]; intros rd sc; simpl.
  - reflexivity.
  - destruct (read_line comment rd line) as [rd' [|ls]].
    + apply IH.
    + destruct (process _ _ _ _ ls sc); auto.
Qed.

Lemma skip_chroms_ge chrom_int fs idx :
  (idx <= fst (skip_chroms chrom_mapping chrom_int fs idx))%nat.
Proof.
  revert idx. induction fs as [|f fs IH]; intros idx; simpl.
  - lia.
  - destruct (chrom_mapping !! f_chrom f); simpl; [|lia].
    destruct (_ <? _)%nat; simpl; [|lia].
    specialize (IH (S idx)). lia.
Qed.

Lemma skip_behind_ge start chrom_int fs idx :
  (idx <= fst (skip_behind chrom_mapping start chrom_int fs idx))%nat.
Proof.
  revert idx. induction fs as [|f fs IH]; intros idx; simpl.
  - lia.
  - destruct (_ <? _); simpl; [|lia].
    destruct (chrom_mapping !! f_chrom f); simpl; [|lia].
    destruct (_ =? _)%nat; simpl; [|lia].
    specialize (IH (S idx)). lia.
Qed.

Lemma overlap_cursor bc chrom_int start stop idx mtx :
  ctl_cursor (overlap features chrom_mapping bc_mapping bc chrom_int start stop idx mtx)
  = idx.
Proof.
  unfold overlap. destruct (hit _ _ _ _); simpl; [|reflexivity].
  destruct (follow_up _ _ _ _ _ _ _ _ _); reflexivity.
Qed.

Ltac split_cases :=
  repeat (match goal with
          | |- context [match ?x with _ => _ end] =>
              lazymatch x with
              | skip_behind _ _ _ _ _ => fail
              | skip_chroms _ _ _ _ => fail
              | overlap _ _ _ _ _ _ _ _ _ => fail
              | intervals _ _ _ _ _ _ _ _ => fail
              | _ => destruct x eqn:?
              end
          end; simpl; try lia).

Lemma intervals_cursor ls bc chrom_int idx mtx :
  (idx <= ctl_cursor (intervals features chrom_mapping bc_mapping ls bc chrom_int idx mtx))%nat.
Proof.
  unfold intervals. split_cases.
  - match goal with
    | |- context [skip_behind ?m ?s ?c ?fs ?i] =>
        pose proof (skip_behind_ge s c fs i) as Hge;
        destruct (skip_behind m s c fs i) as [idx' [e|]]
    end; simpl in *; [lia|].
    split_cases. rewrite overlap_cursor. lia.
  - rewrite overlap_cursor. lia.
Qed.

Lemma process_cursor ls sc :
  (feature_idx sc
   <= ctl_cursor (process features chrom_mapping bc_mapping valid_bcs_set ls sc))%nat.
Proof.
  unfold process. split_cases.
  - match goal with
    | |- context [skip_chroms ?m ?c ?fs ?i] =>
        pose proof (skip_chroms_ge c fs i) as Hge;
        destruct (skip_chroms m c fs i) as [idx' [e|]]
    end; simpl in *; [lia|].
    destruct (_ <=? _)%nat; simpl; [lia|].
    etrans; [|apply intervals_cursor]. lia.
  - apply intervals_cursor.
Qed.

Lemma run_cursor comment rd sc lines :
  (feature_idx sc
   <= cursor_of (run features chrom_mapping bc_mapping valid_bcs_set comment rd sc lines))%nat.
Proof.
  revert rd sc. induction lines as [|line lines IH]; intros rd sc; simpl.
  - lia.
  - destruct (read_line comment rd line) as [rd' [|ls]]; [apply IH|].
    pose proof (process_cursor ls sc) as Hp.
    destruct (process _ _ _ _ ls sc) as [sc'|sc'|e idx]; simpl in *; [|lia|lia].
    etrans; [|apply IH]. lia.
Qed.

Lemma run_prefix_cursor comment rd sc pre rest :
  (cursor_of (run features chrom_mapping bc_mapping valid_bcs_set comment rd sc pre)
   <= cursor_of (run features chrom_mapping bc_mapping valid_bcs_set comment rd sc
                   (pre ++ rest)))%nat.
Proof.
  rewrite run_app.
  destruct (run _ _ _ _ comment rd sc pre) as [rd' sc'|sc'|e idx]; simpl; try lia.
  apply run_cursor.
Qed.

End Cursor.

(** C4. The cursor of [count] starts at 0 and never moves back: after a
    prefix of the stream extended by more lines it is at least what it is
    after the prefix alone, with either kind of table, and also when the scan
    ends early or raises. *)
Theorem cursor_monotone (features : list feature) (valid_bcs : list string)
    (comment : string) (pre rest : list string) :
  cursor_of (count_run (A := dense) [] features valid_bcs comment) = 0%nat
  ∧ cursor_of (count_run (A := lil) [] features valid_bcs comment) = 0%nat
  ∧ (cursor_of (count_run (A := dense) pre features valid_bcs comment)
     <= cursor_of (count_run (A := dense) (pre ++ rest) features valid_bcs comment))%nat
  ∧ (cursor_of (count_run (A := lil) pre features valid_bcs comment)
     <= cursor_of (count_run (A := lil) (pre ++ rest) features valid_bcs comment))%nat.
Proof.
  repeat split; try reflexivity; apply run_prefix_cursor.
Qed.

(** ** The end of the feature list *)

Section Exhaustion.
Context {A : Type} `{Accumulator A}.
Variable features : list feature.
Variable chrom_mapping : gmap string nat.
Variable bc_mapping : gmap string nat.
Variable valid_bcs_set : gset string.

Lemma skip_chroms_le chrom_int fs idx :
  (fst (skip_chroms chrom_mapping chrom_int fs idx) <= idx + length fs)%nat.
Proof.
  revert idx. induction fs as [|f fs IH]; intros idx; simpl.
  - lia.
  - destruct (chrom_mapping !! f_chrom f); simpl; [|lia].
    destruct (_ <? _)%nat; simpl; [|lia].
    specialize (IH (S idx)). lia.
Qed.

Lemma skip_behind_le start chrom_int fs idx :
  (fst (skip_behind chrom_mapping start chrom_int fs idx) <= idx + length fs)%nat.
Proof.
  revert idx. induction fs as [|f fs IH]; intros idx; simpl.
  - lia.
  - destruct (_ <? _); simpl; [|lia].
    destruct (chrom_mapping !! f_chrom f); simpl; [|lia].
    destruct (_ =? _)%nat; simpl; [|lia].
    specialize (IH (S idx)). lia.
Qed.

Lemma skip_chroms_raise_lt chrom_int fs idx idx' e :
  skip_chroms chrom_mapping chrom_int fs idx = (idx', Some e) →
  (idx' < idx + length fs)%nat.
Proof.
  revert idx. induction fs as [|f fs IH]; intros idx; simpl; [done|].
  destruct (chrom_mapping !! f_chrom f); [|intros [= <- _]; lia].
  destruct (_ <? _)%nat; [|done].
  intros Hs. apply IH in Hs. lia.
Qed.

Lemma skip_behind_raise_lt start chrom_int fs idx idx' e :
  skip_behind chrom_mapping start chrom_int fs idx = (idx', Some e) →
  (idx' < idx + length fs)%nat.
Proof.
  revert idx. induction fs as [|f fs IH]; intros idx; simpl; [done|].
  destruct (_ <? _); [|done].
  destruct (chrom_mapping !! f_chrom f); [|intros [= <- _]; lia].
  destruct (_ =? _)%nat; [|done].
  intros Hs. apply IH in Hs. lia.
Qed.

Lemma overlap_in_range bc chrom_int start stop idx mtx :
  (idx < length features)%nat →
  ctl_in_range features (overlap features chrom_mapping bc_mapping bc chrom_int start stop idx mtx).
Proof.
  intros Hidx. unfold overlap. destruct (hit _ _ _ _); simpl; [|done].
  destruct (follow_up _ _ _ _ _ _ _ _ _); simpl; done.
Qed.

Ltac split_range :=
  repeat (match goal with
          | |- context [match ?x with _ => _ end] =>
              lazymatch x with
              | skip_behind _ _ _ _ _ => fail
              | skip_chroms _ _ _ _ => fail
              | overlap _ _ _ _ _ _ _ _ _ => fail
              | intervals _ _ _ _ _ _ _ _ => fail
              | _ => destruct x eqn:?
              end
          end; simpl; try done).

Lemma intervals_in_range ls bc chrom_int idx mtx :
  (idx < length features)%nat →
  ctl_in_range features (intervals features chrom_mapping bc_mapping ls bc chrom_int idx mtx).
Proof.
  intros Hidx. unfold intervals. split_range.
  - match goal with
    | |- context [skip_behind ?m ?s ?c ?fs ?i] =>
        pose proof (skip_behind_le s c fs i) as Hle;
        destruct (skip_behind m s c fs i) as [idx' [e|]] eqn:Hskip
    end; simpl in *.
    { apply skip_behind_raise_lt in Hskip. rewrite length_drop in Hskip. lia. }
    rewrite length_drop in Hle.
    destruct (_ <=? _)%nat eqn:Hend; simpl.
    + apply Nat.leb_le in Hend. lia.
    + apply Nat.leb_gt in Hend. split_range.
      by apply overlap_in_range.
  - by apply overlap_in_range.
Qed.

Lemma process_in_range ls sc :
  (feature_idx sc < length features)%nat →
  ctl_in_range features (process features chrom_mapping bc_mapping valid_bcs_set ls sc).
Proof.
  intros Hidx. unfold process. split_range.
  - match goal with
    | |- context [skip_chroms ?m ?c ?fs ?i] =>
        pose proof (skip_chroms_le c fs i) as Hle;
        destruct (skip_chroms m c fs i) as [idx' [e|]] eqn:Hskip
    end; simpl in *.
    { apply skip_chroms_raise_lt in Hskip. rewrite length_drop in Hskip. lia. }
    rewrite length_drop in Hle.
    destruct (_ <=? _)%nat eqn:Hend; simpl.
    + apply Nat.leb_le in Hend. lia.
    + apply Nat.leb_gt in Hend. by apply intervals_in_range.
  - by apply intervals_in_range.
Qed.

(** A cursor outside the list lets no line through to the second access of
    the features. *)
Lemma process_out_of_range ls sc :
  (length features <= feature_idx sc)%nat →
  match process features chrom_mapping bc_mapping valid_bcs_set ls sc with
  | Next sc' => sc' = sc
  | Break _ => False
  | Raise _ idx => idx = feature_idx sc
  end.
Proof.
  intros Hidx. unfold process.
  apply lookup_ge_None_2 in Hidx. rewrite Hidx.
  destruct (ls !! 3%nat) as [bc|]; [|done].
  destruct (bool_decide _); [|done].
  destruct (ls !! 0%nat) as [chrom|]; [|done].
  by destruct (chrom_mapping !! chrom).
Qed.

(** The line that makes the body break counts nothing. *)
Lemma intervals_break_table ls bc chrom_int idx mtx sc' :
  intervals features chrom_mapping bc_mapping ls bc chrom_int idx mtx = Break sc' →
  count_mtx sc' = mtx.
Proof.
  unfold intervals, overlap.
  repeat (match goal with
          | |- context [match ?x with _ => _ end] => destruct x
          end; try done);
    by intros [= <-].
Qed.

Lemma process_break_table ls sc sc' :
  process features chrom_mapping bc_mapping valid_bcs_set ls sc = Break sc' →
  count_mtx sc' = count_mtx sc.
Proof.
  unfold process.
  repeat (match goal with
          | |- context [match ?x with _ => _ end] =>
              lazymatch x with
              | intervals _ _ _ _ _ _ _ _ => fail
              | _ => destruct x
              end
          end; try done);
    try (by intros [= <-]); apply intervals_break_table.
Qed.

Lemma run_in_range comment rd sc lines :
  cursor_inside features (feature_idx sc) →
  outcome_in_range features
    (run features chrom_mapping bc_mapping valid_bcs_set comment rd sc lines).
Proof.
  revert rd sc. induction lines as [|line lines IH]; intros rd sc Hsc; simpl.
  - done.
  - destruct (read_line comment rd line) as [rd' [|ls]]; [by apply IH|].
    destruct Hsc as [Hlt|[Hnil Hzero]].
    + pose proof (process_in_range ls sc Hlt) as Hp.
      destruct (process _ _ _ _ ls sc) as [sc'|sc'|e idx]; simpl in *;
        [apply IH| |]; try done; by left.
    + pose proof (process_out_of_range ls sc) as Hp.
      rewrite Hnil in Hp at 1. specialize (Hp ltac:(simpl; lia)).
      destruct (process _ _ _ _ ls sc) as [sc'|sc'|e idx]; simpl in *; try done.
      * subst sc'. apply IH. by right.
      * subst idx. by right.
Qed.

Lemma run_exhausted_stays comment rd sc pre rest sc' :
  run features chrom_mapping bc_mapping valid_bcs_set comment rd sc pre = Exhausted sc' →
  run features chrom_mapping bc_mapping valid_bcs_set comment rd sc (pre ++ rest)
  = Exhausted sc'.
Proof. intros Hpre. by rewrite run_app, Hpre. Qed.

(** A scan that has ended with [break] has read some lines without leaving
    the list, and then one that moved the cursor to the end of the list and
    left the table as it was. *)
Lemma run_exhausted_split comment rd sc lines sc' :
  run features chrom_mapping bc_mapping valid_bcs_set comment rd sc lines
  = Exhausted sc' →
  ∃ before line after rd0 sc0,
    lines = (before ++ line :: after)%list
    ∧ run features chrom_mapping bc_mapping valid_bcs_set comment rd sc before
      = Finished rd0 sc0
    ∧ (feature_idx sc0 < length features)%nat
    ∧ count_mtx sc' = count_mtx sc0.
Proof.
  revert rd sc. induction lines as [|line lines IH]; intros rd sc; simpl; [done|].
  destruct (read_line comment rd line) as [rd' [|ls]] eqn:Hread.
  - intros Hrun. apply IH in Hrun
      as (before & l & after & rd0 & sc0 & -> & Hbefore & Hlt & Htable).
    exists (line :: before), l, after, rd0, sc0. simpl. by rewrite Hread.
  - destruct (process _ _ _ _ ls sc) as [sc1|sc1|e idx] eqn:Hproc; [| |done].
    + intros Hrun. apply IH in Hrun
        as (before & l & after & rd0 & sc0 & -> & Hbefore & Hlt & Htable).
      exists (line :: before), l, after, rd0, sc0. simpl.
      by rewrite Hread, Hproc.
    + intros [= <-]. exists [], line, lines, rd, sc. simpl.
      split; [done|]. split; [done|]. split.
      * destruct (decide (feature_idx sc < length features)%nat) as [|Hge];
          [done|].
        pose proof (process_out_of_range ls sc ltac:(lia)) as Hp.
        by rewrite Hproc in Hp.
      * by apply (process_break_table ls).
Qed.

End Exhaustion.

Lemma count_run_in_range {A : Type} `{Accumulator A} fragments features
    valid_bcs comment :
  outcome_in_range features (count_run (A := A) fragments features valid_bcs comment).
Proof.
  unfold count_run. apply run_in_range; simpl.
  destruct features; [by right|left; simpl; lia].
Qed.

Lemma exhaustion_final_holds {A : Type} `{Accumulator A} features valid_bcs
    comment pre rest :
  exhaustion_final (A := A) features valid_bcs comment pre rest.
Proof.
  unfold exhaustion_final.
  pose proof (count_run_in_range (A := A) pre features valid_bcs comment) as Hr.
  destruct (count_run pre features valid_bcs comment) as [rd sc|sc|e idx] eqn:Hrun;
    simpl in *.
  - split; [done|]. intros Hne Hend. destruct Hr as [Hlt|[Hnil _]]; [lia|done].
  - unfold count_run in *.
    pose proof (run_exhausted_stays _ _ _ _ _ _ _ _ rest _ Hrun) as Hstay.
    split.
    + split; [done|]. split; [done|]. by apply run_exhausted_split in Hrun.
    + intros _ _. exists sc. split; [done|]. by rewrite Hstay.
  - split; [done|]. intros Hne Hend. destruct Hr as [Hlt|[Hnil _]]; [lia|done].
Qed.

(** C5. Once the cursor has moved past the end of the feature list the scan
    is over: the body breaks instead of reading a feature there, the lines
    that remain change nothing, and the line that made the body break has
    counted nothing; in every other outcome, an exception included, the
    cursor is inside the list.  In the scenario of one feature and three
    fragments the scan ends in the loop of lines 235-240 and the table is
    1 x 1 with value 1, for both kinds of table, the third line never being
    read.  With features of one chromosome that are not next to each other
    the scan ends in the loop of lines 219-222, here with an empty table
    although the third fragment lies in the third feature. *)
Theorem exhausted_features_end_scan (features : list feature)
    (valid_bcs : list string) (comment : string) (pre rest : list string) :
  exhaustion_final (A := dense) features valid_bcs comment pre rest
  ∧ exhaustion_final (A := lil) features valid_bcs comment pre rest
  ∧ (let frags := [ mk_line ["chr1"; "50"; "60"; "bc1"];
                    mk_line ["chr1"; "200"; "210"; "bc1"];
                    mk_line ["chr2"; "10"; "20"; "bc1"] ] in
     let feats := [ mkFeature "chr1" 0 100 ] in
     count frags feats ["bc1"] true "#" = Ok (DenseT [[1]])
     ∧ count frags feats ["bc1"] false "#"
       = Ok (SparseT {| lil_shape := (1, 1)%nat; lil_rows := [[(0%nat, 1)]] |})
     ∧ count_run (A := dense) (take 1 frags) feats ["bc1"] "#"
       = Finished (mkReader false (Some true)) (mkScan 0%nat [[1]])
     ∧ count_run (A := dense) (take 2 frags) feats ["bc1"] "#"
       = Exhausted (mkScan 1%nat [[1]])
     ∧ count (take 2 frags ++ rest) feats ["bc1"] true "#" = Ok (DenseT [[1]]))
  ∧ (let frags := [ mk_line ["chrA"; "50"; "60"; "bc1"];
                    mk_line ["chrA"; "70"; "80"; "bc1"];
                    mk_line ["chrB"; "25"; "26"; "bc1"] ] in
     let feats := [ mkFeature "chrB" 0 10; mkFeature "chrA" 0 10;
                    mkFeature "chrB" 20 30 ] in
     count_run (A := dense) (take 1 frags) feats ["bc1"] "#"
     = Finished (mkReader false (Some true)) (mkScan 2%nat [[0; 0; 0]])
     ∧ count_run (A := dense) (take 2 frags) feats ["bc1"] "#"
       = Exhausted (mkScan 3%nat [[0; 0; 0]])
     ∧ count (take 2 frags ++ rest) feats ["bc1"] true "#"
       = Ok (DenseT [[0; 0; 0]])
     ∧ count frags feats ["bc1"] true "#" = Ok (DenseT [[0; 0; 0]])
     ∧ count frags feats ["bc1"] false "#"
       = Ok (SparseT {| lil_shape := (1, 3)%nat; lil_rows := [[]] |})).
Proof.
  split; [apply exhaustion_final_holds|].
  split; [apply exhaustion_final_holds|].
  split.
  - cbv zeta. split; [vm_compute; reflexivity|].
    split; [vm_compute; reflexivity|].
    split; [vm_compute; reflexivity|].
    assert (count_run (A := dense)
              (take 2 [ mk_line ["chr1"; "50"; "60"; "bc1"];
                        mk_line ["chr1"; "200"; "210"; "bc1"];
                        mk_line ["chr2"; "10"; "20"; "bc1"] ])
              [ mkFeature "chr1" 0 100 ] ["bc1"] "#"
            = Exhausted (mkScan 1%nat [[1]])) as Hrun
      by (vm_compute; reflexivity).
    split; [exact Hrun|].
    unfold count, count_run in *.
    by rewrite (run_exhausted_stays _ _ _ _ _ _ _ _ rest _ Hrun).
  - cbv zeta.
    split; [vm_compute; reflexivity|].
    assert (count_run (A := dense)
              (take 2 [ mk_line ["chrA"; "50"; "60"; "bc1"];
                        mk_line ["chrA"; "70"; "80"; "bc1"];
                        mk_line ["chrB"; "25"; "26"; "bc1"] ])
              [ mkFeature "chrB" 0 10; mkFeature "chrA" 0 10;
                mkFeature "chrB" 20 30 ] ["bc1"] "#"
            = Exhausted (mkScan 3%nat [[0; 0; 0]])) as Hrun
      by (vm_compute; reflexivity).
    split; [exact Hrun|].
    split; [|split; vm_compute; reflexivity].
    unfold count, count_run in *.
    by rewrite (run_exhausted_stays _ _ _ _ _ _ _ _ rest _ Hrun).
Qed.

(** ** Two kinds of table under the same scan *)

Section Simulation.
Context {A B : Type} `{HA : Accumulator A} `{HB : Accumulator B}.
Variable features : list feature.
Variable chrom_mapping : gmap string nat.
Variable bc_mapping : gmap string nat.
Variable valid_bcs_set : gset string.
Variable R : A → B → Prop.

(** [R] is kept by an increment in a row that some barcode has. *)
Hypothesis R_incr : ∀ a b bc r c,
  bc_mapping !! bc = Some r →
  R a b → option_Forall2 R (acc_incr a r c) (acc_incr b r c).

Lemma hit_sim bc idx a b :
  R a b →
  result_rel R (hit bc_mapping bc idx a) (hit bc_mapping bc idx b).
Proof.
  intros HR. unfold hit. destruct (bc_mapping !! bc) as [row|] eqn:Hrow; [|done].
  by destruct (R_incr a b bc row idx Hrow HR).
Qed.

Lemma follow_up_sim bc chrom_int start stop fs tmp_idx a b :
  R a b →
  result_rel R (follow_up chrom_mapping bc_mapping bc chrom_int start stop fs tmp_idx a)
               (follow_up chrom_mapping bc_mapping bc chrom_int start stop fs tmp_idx b).
Proof.
  revert tmp_idx a b. induction fs as [|f fs IH]; intros tmp_idx a b HR; simpl.
  - done.
  - destruct (chrom_mapping !! f_chrom f) as [r|]; [|done].
    destruct (_ && _); [|done].
    pose proof (hit_sim bc tmp_idx a b HR) as Hh.
    destruct (hit _ _ _ a), (hit _ _ _ b); simpl in Hh; try done.
    by apply IH.
Qed.

Lemma overlap_sim bc chrom_int start stop idx a b :
  R a b →
  ctl_rel R (overlap features chrom_mapping bc_mapping bc chrom_int start stop idx a)
            (overlap features chrom_mapping bc_mapping bc chrom_int start stop idx b).
Proof.
  intros HR. unfold overlap.
  pose proof (hit_sim bc idx a b HR) as Hh.
  destruct (hit _ _ _ a) as [a'|], (hit _ _ _ b) as [b'|]; simpl in Hh; try done.
  pose proof (follow_up_sim bc chrom_int start stop
                (drop (S idx) features) (S idx) a' b' Hh) as Hf.
  destruct (follow_up _ _ _ _ _ _ _ _ a'), (follow_up _ _ _ _ _ _ _ _ b');
    simpl in Hf; done.
Qed.

Lemma intervals_sim ls bc chrom_int idx a b :
  R a b →
  ctl_rel R (intervals features chrom_mapping bc_mapping ls bc chrom_int idx a)
            (intervals features chrom_mapping bc_mapping ls bc chrom_int idx b).
Proof.
  intros HR. unfold intervals.
  destruct (ls !! 1%nat) as [s1|]; [|done].
  destruct (PyStr.int s1) as [start|]; [|done].
  destruct (ls !! 2%nat) as [s2|]; [|done].
  destruct (PyStr.int s2) as [stop|]; [|done].
  destruct (features !! idx) as [f|]; [|done].
  destruct (stop <? f_start f); [done|].
  destruct (f_stop f <? start); [|by apply overlap_sim].
  destruct (skip_behind _ _ _ _ _) as [idx' [e|]]; [done|].
  destruct (_ <=? _)%nat; [done|].
  destruct (features !! idx') as [f'|]; [|done].
  destruct (chrom_mapping !! f_chrom f') as [r'|]; [|done].
  destruct (negb _); [done|].
  destruct (negb _); [by apply overlap_sim|done].
Qed.

Lemma process_sim ls s1 s2 :
  feature_idx s1 = feature_idx s2 → R (count_mtx s1) (count_mtx s2) →
  ctl_rel R (process features chrom_mapping bc_mapping valid_bcs_set ls s1)
            (process features chrom_mapping bc_mapping valid_bcs_set ls s2).
Proof.
  intros Hidx HR. unfold process. rewrite <- Hidx.
  destruct (ls !! 3%nat) as [bc|]; [|done].
  destruct (bool_decide _); [|done].
  destruct (ls !! 0%nat) as [chrom|]; [|done].
  destruct (chrom_mapping !! chrom) as [chrom_int|]; [|done].
  destruct (features !! feature_idx s1) as [f|]; [|done].
  destruct (chrom_mapping !! f_chrom f) as [r|]; [|done].
  destruct (_ <? _)%nat; [done|].
  destruct (_ <? _)%nat; [|by apply intervals_sim].
  destruct (skip_chroms _ _ _ _) as [idx' [e|]]; [done|].
  destruct (_ <=? _)%nat; [done|].
  by apply intervals_sim.
Qed.

Lemma run_sim comment rd s1 s2 lines :
  feature_idx s1 = feature_idx s2 → R (count_mtx s1) (count_mtx s2) →
  outcome_rel R
    (run features chrom_mapping bc_mapping valid_bcs_set comment rd s1 lines)
    (run features chrom_mapping bc_mapping valid_bcs_set comment rd s2 lines).
Proof.
  revert rd s1 s2. induction lines as [|line lines IH]; intros rd s1 s2 Hidx HR; simpl.
  - done.
  - destruct (read_line comment rd line) as [rd' [|ls]]; [by apply IH|].
    pose proof (process_sim ls s1 s2 Hidx HR) as Hp.
    destruct (process _ _ _ _ ls s1), (process _ _ _ _ ls s2);
      simpl in Hp; try done.
    destruct Hp. by apply IH.
Qed.

Lemma scan_splits_sim s1 s2 splits :
  feature_idx s1 = feature_idx s2 → R (count_mtx s1) (count_mtx s2) →
  ctl_rel R
    (scan_splits features chrom_mapping bc_mapping valid_bcs_set s1 splits)
    (scan_splits features chrom_mapping bc_mapping valid_bcs_set s2 splits).
Proof.
  revert s1 s2. induction splits as [|ls splits IH]; intros s1 s2 Hidx HR; simpl.
  - done.
  - pose proof (process_sim ls s1 s2 Hidx HR) as Hp.
    destruct (process _ _ _ _ ls s1), (process _ _ _ _ ls s2);
      simpl in Hp; try done.
    destruct Hp. by apply IH.
Qed.

End Simulation.

Lemma outcome_rel_returned {A B : Type} (R : A → B → Prop) o1 o2 :
  outcome_rel R o1 o2 → result_rel R (returned o1) (returned o2).
Proof. destruct o1, o2; simpl; tauto. Qed.

(** *** The dense table and scipy's list of lists *)

Lemma row_get_nz_lt j k row : (j < k)%nat → row_get j (nz_from k row) = 0.
Proof.
  intros Hjk. revert k Hjk. induction row as [|v row IH]; intros k Hjk; simpl.
  - done.
  - destruct (v =? 0); [apply IH; lia|]. simpl.
    destruct (k <? j)%nat eqn:E1; [apply Nat.ltb_lt in E1; lia|].
    destruct (k =? j)%nat eqn:E2; [apply Nat.eqb_eq in E2; lia|done].
Qed.

Lemma row_get_nz j c row :
  row_get (j + c) (nz_from j row) = default 0 (row !! c).
Proof.
  revert j c. induction row as [|v row IH]; intros j c; simpl.
  - done.
  - destruct c as [|c]; simpl.
    + rewrite Nat.add_0_r. destruct (v =? 0) eqn:Ev.
      * apply Z.eqb_eq in Ev. subst v. apply row_get_nz_lt. lia.
      * simpl. rewrite Nat.ltb_irrefl, Nat.eqb_refl. done.
    + replace (j + S c)%nat with (S j + c)%nat by lia.
      destruct (v =? 0); [apply IH|].
      assert ((j <? S j + c)%nat = true) as E1 by (apply Nat.ltb_lt; lia).
      cbn [row_get]. rewrite E1. apply IH.
Qed.

Lemma row_delete_nz_lt j k row :
  (j < k)%nat → row_delete j (nz_from k row) = nz_from k row.
Proof.
  intros Hjk. revert k Hjk. induction row as [|v row IH]; intros k Hjk; simpl.
  - done.
  - destruct (v =? 0); [apply IH; lia|]. simpl.
    destruct (k <? j)%nat eqn:E1; [apply Nat.ltb_lt in E1; lia|].
    destruct (k =? j)%nat eqn:E2; [apply Nat.eqb_eq in E2; lia|done].
Qed.

Lemma row_insert_nz_lt j k x row :
  (j < k)%nat → row_insert j x (nz_from k row) = (j, x) :: nz_from k row.
Proof.
  intros Hjk. revert k Hjk. induction row as [|v row IH]; intros k Hjk; simpl.
  - done.
  - destruct (v =? 0); [apply IH; lia|]. simpl.
    destruct (k <? j)%nat eqn:E1; [apply Nat.ltb_lt in E1; lia|].
    destruct (k =? j)%nat eqn:E2; [apply Nat.eqb_eq in E2; lia|done].
Qed.

Lemma nz_from_insert j c x row :
  (c < length row)%nat →
  nz_from j (<[c := x]> row)
  = if x =? 0 then row_delete (j + c) (nz_from j row)
    else row_insert (j + c) x (nz_from j row).
Proof.
  revert j c. induction row as [|v row IH]; intros j c Hc; simpl in *.
  - lia.
  - destruct c as [|c]; simpl.
    + rewrite Nat.add_0_r. destruct (x =? 0) eqn:Ex, (v =? 0) eqn:Ev; simpl;
        rewrite ?Nat.ltb_irrefl, ?Nat.eqb_refl; try done.
      * symmetry. apply row_delete_nz_lt. lia.
      * symmetry. apply row_insert_nz_lt. lia.
    + replace (j + S c)%nat with (S j + c)%nat by lia.
      rewrite (IH (S j) c) by lia.
      destruct (v =? 0) eqn:Ev; [done|].
      assert ((j <? S j + c)%nat = true) as E1 by (apply Nat.ltb_lt; lia).
      destruct (x =? 0); cbn [row_delete row_insert]; by rewrite E1.
Qed.

Lemma nz_from_zeros j n : nz_from j (replicate n 0) = [].
Proof. revert j. induction n as [|n IH]; intros j; simpl; [done|apply IH]. Qed.

Lemma dense_lil_new n_bcs n_features :
  dense_lil (dense_new n_bcs n_features) (lil_new n_bcs n_features).
Proof.
  unfold dense_lil, dense_new, lil_new; simpl. split; [|split].
  - by rewrite length_replicate.
  - apply Forall_replicate. by rewrite length_replicate.
  - change (map (nz_from 0)) with (fmap (M := list) (nz_from 0)).
    by rewrite fmap_replicate, nz_from_zeros.
Qed.

Lemma dense_lil_incr m l r c :
  dense_lil m l → option_Forall2 dense_lil (dense_incr m r c) (lil_incr l r c).
Proof.
  intros (Hrows & Hcols & Hnz). unfold dense_incr, lil_incr, lil_get, lil_set, in_shape.
  rewrite Hrows, Hnz.
  change (map (nz_from 0) m) with (nz_from 0 <$> m).
  rewrite list_lookup_fmap.
  destruct (m !! r) as [row|] eqn:Hr; simpl.
  - assert (r < length m)%nat as Hlt by (by eapply lookup_lt_Some).
    assert (length row = snd (lil_shape l)) as Hlen.
    { eapply (proj1 (Forall_lookup _ _)) in Hcols; eauto. }
    apply Nat.ltb_lt in Hlt. rewrite Hlt. simpl.
    destruct (row !! c) as [v|] eqn:Hc.
    + assert (c < length row)%nat as Hcl by (by eapply lookup_lt_Some).
      assert ((c <? snd (lil_shape l))%nat = true) as Hcb
        by (apply Nat.ltb_lt; lia).
      rewrite Hcb. simpl.
      pose proof (row_get_nz 0 c row) as Hg. simpl in Hg. rewrite Hg, Hc. simpl.
      constructor. split; [|split]; simpl.
      * by rewrite length_insert.
      * apply Forall_insert; [done|]. by rewrite length_insert.
      * change (map (nz_from 0) (<[r:=<[c:=v + 1]> row]> m))
          with (nz_from 0 <$> <[r:=<[c:=v + 1]> row]> m).
        rewrite list_fmap_insert. f_equal.
        pose proof (nz_from_insert 0 c (v + 1) row Hcl) as Hi. simpl in Hi.
        by rewrite Hi.
    + apply lookup_ge_None in Hc.
      assert ((c <? snd (lil_shape l))%nat = false) as Hcb
        by (apply Nat.ltb_ge; lia).
      rewrite Hcb. simpl. constructor.
  - apply lookup_ge_None in Hr.
    assert ((r <? length m)%nat = false) as Hlt by (apply Nat.ltb_ge; lia).
    rewrite Hlt. simpl. constructor.
Qed.

Lemma dense_lil_cell m l r c : dense_lil m l → lil_cell l r c = dense_cell m r c.
Proof.
  intros (Hrows & Hcols & Hnz). unfold lil_cell, dense_cell, lil_get, in_shape.
  rewrite Hrows, Hnz.
  change (map (nz_from 0) m) with (nz_from 0 <$> m).
  rewrite list_lookup_fmap.
  destruct (m !! r) as [row|] eqn:Hr; simpl.
  - assert (length row = snd (lil_shape l)) as Hlen.
    { eapply (proj1 (Forall_lookup _ _)) in Hcols; eauto. }
    pose proof (row_get_nz 0 c row) as Hg. simpl in Hg.
    destruct (_ && _) eqn:Hin; simpl; [done|].
    apply andb_false_iff in Hin as [Hin|Hin]; apply Nat.ltb_ge in Hin.
    + apply lookup_lt_Some in Hr. lia.
    + rewrite lookup_ge_None_2; [done|lia].
  - by destruct (_ && _).
Qed.

(** The tables that the two kinds of run return, if they return. *)
Lemma count_run_dense_lil fragments features valid_bcs comment :
  result_rel dense_lil
    (returned (count_run (A := dense) fragments features valid_bcs comment))
    (returned (count_run (A := lil) fragments features valid_bcs comment)).
Proof.
  apply outcome_rel_returned. unfold count_run.
  apply run_sim; [intros; by apply dense_lil_incr|done|apply dense_lil_new].
Qed.

Lemma dense_lil_get m l r c : dense_lil m l → dense_get m r c = lil_get l r c.
Proof.
  intros (Hrows & Hcols & Hnz). unfold dense_get, lil_get, in_shape.
  rewrite Hrows, Hnz.
  change (map (nz_from 0) m) with (nz_from 0 <$> m).
  rewrite list_lookup_fmap.
  destruct (m !! r) as [row|] eqn:Hr; simpl.
  - assert (length row = snd (lil_shape l)) as Hlen.
    { eapply (proj1 (Forall_lookup _ _)) in Hcols; eauto. }
    assert ((r <? length m)%nat = true) as ->.
    { apply Nat.ltb_lt. by eapply lookup_lt_Some. }
    pose proof (row_get_nz 0 c row) as Hg. simpl in Hg. rewrite Hg.
    destruct (row !! c) as [v|] eqn:Hc; simpl.
    + assert ((c <? snd (lil_shape l))%nat = true) as ->; [|done].
      apply Nat.ltb_lt. apply lookup_lt_Some in Hc. lia.
    + assert ((c <? snd (lil_shape l))%nat = false) as ->; [|done].
      apply Nat.ltb_ge. apply lookup_ge_None in Hc. lia.
  - by destruct (_ && _).
Qed.








(** ** Lines, split lines and records *)

Lemma run_scan_splits {A : Type} `{Accumulator A} features chrom_mapping
    bc_mapping valid_bcs_set comment rd (sc : scan A) lines :
  ctl_of_outcome
    (run features chrom_mapping bc_mapping valid_bcs_set comment rd sc lines)
  = scan_splits features chrom_mapping bc_mapping valid_bcs_set sc
      (line_splits comment rd lines).
Proof.
  revert rd sc. induction lines as [|line lines IH]; intros rd sc; simpl.
  - done.
  - destruct (read_line comment rd line) as [rd' [|ls]]; simpl; [apply IH|].
    destruct (process _ _ _ _ ls sc); simpl; [apply IH|done|done].
Qed.

Lemma ctl_returned_outcome {A : Type} (o : outcome A) :
  ctl_returned (ctl_of_outcome o) = returned o.
Proof. by destruct o. Qed.

Lemma parse_fragment_Some ls fr :
  parse_fragment ls = Some fr →
  ∃ s1 s2 rest,
    ls = fr_chrom fr :: s1 :: s2 :: fr_barcode fr :: rest
    ∧ PyStr.int s1 = Some (fr_start fr) ∧ PyStr.int s2 = Some (fr_stop fr).
Proof.
  unfold parse_fragment. intros Hp.
  destruct ls as [|chrom [|s1 [|s2 [|bc rest]]]]; try done.
  destruct (PyStr.int s1) as [start|] eqn:E1; [|done].
  destruct (PyStr.int s2) as [stop|] eqn:E2; [|done].
  inversion Hp; subst; simpl. by exists s1, s2, rest.
Qed.

Lemma read_fragments_Some comment lines frs :
  read_fragments comment lines = Some frs →
  Forall2 (λ ls fr, parse_fragment ls = Some fr)
          (line_splits comment reader0 lines) frs.
Proof. unfold read_fragments. intros Hm. by apply mapM_Some_1 in Hm. Qed.

(** ** The two dictionaries *)

Lemma build_chrom_mapping_spec chroms m c :
  (∀ k r, m !! k = Some r → (r < c)%nat) →
  (∀ k1 k2 r, m !! k1 = Some r → m !! k2 = Some r → k1 = k2) →
  let m' := build_chrom_mapping chroms m c in
  (∀ k, is_Some (m' !! k) ↔ is_Some (m !! k) ∨ k ∈ chroms)
  ∧ (∀ k1 k2 r, m' !! k1 = Some r → m' !! k2 = Some r → k1 = k2).
Proof.
  revert m c. induction chroms as [|chrom chroms IH]; intros m c Hlt Hinj; simpl.
  - split; [|done]. intros k. split; [by left|]. intros [?|Hin]; [done|].
    by apply elem_of_nil in Hin.
  - destruct (m !! chrom) as [r0|] eqn:Hm.
    + destruct (IH m c Hlt Hinj) as [Hdom Hinj']. split; [|done].
      intros k. rewrite Hdom, elem_of_cons. split; [tauto|].
      intros [?|[->|?]]; [tauto| |tauto]. left. by rewrite Hm.
    + destruct (IH (<[chrom := c]> m) (S c)) as [Hdom Hinj'].
      * intros k r. rewrite lookup_insert. case_decide; [intros [= <-]; lia|].
        intros Hk. apply Hlt in Hk. lia.
      * intros k1 k2 r. rewrite !lookup_insert.
        repeat case_decide; subst; try done.
        -- intros [= <-] Hk. apply Hlt in Hk. lia.
        -- intros Hk [= <-]. apply Hlt in Hk. lia.
        -- apply Hinj.
      * split; [|done]. intros k. rewrite Hdom, elem_of_cons, lookup_insert.
        case_decide; subst.
        -- split; [intros _; right; by left|intros _; by left].
        -- intuition congruence.
Qed.

Lemma chrom_mapping_dom features chrom :
  is_Some (chrom_mapping_of features !! chrom)
  ↔ ∃ f, f ∈ features ∧ f_chrom f = chrom.
Proof.
  unfold chrom_mapping_of.
  destruct (build_chrom_mapping_spec (map f_chrom features) ∅ 0) as [Hdom _].
  - intros k r. by rewrite lookup_empty.
  - intros k1 k2 r. by rewrite lookup_empty.
  - rewrite Hdom, lookup_empty. split.
    + intros [[? ?]|Hin]; [done|].
      change (map f_chrom features) with (f_chrom <$> features) in Hin.
      apply list_elem_of_fmap in Hin as (f & -> & Hf). eauto.
    + intros (f & Hf & <-). right.
      change (map f_chrom features) with (f_chrom <$> features).
      apply list_elem_of_fmap. eauto.
Qed.

Lemma chrom_mapping_inj features c1 c2 r :
  chrom_mapping_of features !! c1 = Some r →
  chrom_mapping_of features !! c2 = Some r → c1 = c2.
Proof.
  unfold chrom_mapping_of.
  destruct (build_chrom_mapping_spec (map f_chrom features) ∅ 0) as [_ Hinj].
  - intros k r'. by rewrite lookup_empty.
  - intros k1 k2 r'. by rewrite lookup_empty.
  - apply Hinj.
Qed.

(** The position that line 145 gives a barcode is that of its last
    occurrence. *)
Lemma enumerate_into_spec bcs i m bc row :
  enumerate_into i bcs m !! bc = Some row
  ↔ (∃ k, row = (i + k)%nat ∧ (bcs !! k = Some bc)
          ∧ (∀ k', (k < k')%nat → bcs !! k' ≠ Some bc))
    ∨ ((bc ∉ bcs) ∧ m !! bc = Some row).
Proof.
  revert i m. induction bcs as [|b bcs IH]; intros i m; simpl.
  - split.
    + intros Hm. right. split; [apply not_elem_of_nil|done].
    + intros [(k & _ & Hk & _)|[_ Hm]]; [by rewrite lookup_nil in Hk|done].
  - rewrite IH. split.
    + intros [(k & -> & Hk & Hlast)|[Hnin Hm]].
      * left. exists (S k). split; [lia|]. split; [done|].
        intros [|k'] Hlt; [lia|]. simpl. apply Hlast. lia.
      * rewrite lookup_insert in Hm. case_decide as Hb.
        -- subst b. inversion Hm; subst row. left. exists 0%nat.
           split; [lia|]. split; [done|].
           intros [|k'] Hlt; [lia|]. simpl. intros Hk'.
           apply Hnin. by eapply list_elem_of_lookup_2.
        -- right. split; [|done]. rewrite elem_of_cons. intuition congruence.
    + intros [(k & -> & Hk & Hlast)|[Hnin Hm]].
      * destruct k as [|k]; simpl in Hk.
        -- inversion Hk; subst b. right. split.
           ++ intros Hin. apply list_elem_of_lookup_1 in Hin as [k' Hk'].
              by apply (Hlast (S k')); [lia|].
           ++ rewrite lookup_insert_eq. f_equal. lia.
        -- left. exists k. split; [lia|]. split; [done|].
           intros k' Hlt. apply (Hlast (S k')). lia.
      * rewrite elem_of_cons in Hnin. right. split; [tauto|].
        rewrite lookup_insert_ne; [done|]. intuition congruence.
Qed.

Lemma bc_mapping_last valid_bcs bc row :
  bc_mapping_of valid_bcs !! bc = Some row
  ↔ valid_bcs !! row = Some bc
    ∧ ∀ k, (row < k)%nat → valid_bcs !! k ≠ Some bc.
Proof.
  unfold bc_mapping_of. rewrite enumerate_into_spec. rewrite lookup_empty. split.
  - intros [(k & -> & Hk & Hlast)|[_ ?]]; [|done]. done.
  - intros [Hrow Hlast]. left. by exists row.
Qed.

Lemma bc_mapping_valid valid_bcs bc :
  bc ∈ valid_bcs →
  ∃ row, bc_mapping_of valid_bcs !! bc = Some row ∧ (row < length valid_bcs)%nat.
Proof.
  intros Hin.
  destruct (bc_mapping_of valid_bcs !! bc) as [row|] eqn:Hm.
  - exists row. split; [done|]. apply bc_mapping_last in Hm as [Hrow _].
    by eapply lookup_lt_Some.
  - exfalso. unfold bc_mapping_of in Hm.
    assert (∀ bcs i m, bc ∈ bcs → is_Some (enumerate_into i bcs m !! bc)) as Hsome.
    { clear. induction bcs as [|b bcs IH]; intros i m Hin; simpl.
      - by apply elem_of_nil in Hin.
      - destruct (decide (bc ∈ bcs)) as [Hin'|Hnin]; [by apply IH|].
        apply elem_of_cons in Hin as [->|?]; [|done].
        assert (∀ bcs i m, b ∉ bcs → enumerate_into i bcs m !! b = m !! b) as Hkeep.
        { clear. induction bcs as [|b' bcs IH]; intros i m Hnin; simpl; [done|].
          rewrite elem_of_cons in Hnin. rewrite IH by tauto.
          rewrite lookup_insert_ne; [done|]. intuition congruence. }
        rewrite Hkeep by done. rewrite lookup_insert_eq. eauto. }
    destruct (Hsome valid_bcs 0%nat ∅ Hin) as [row Hrow]. congruence.
Qed.

(** ** Sorted inputs *)

Lemma all_pairs_lookup {X : Type} (le : X → X → bool) l i j x y :
  all_pairs le l = true → (i < j)%nat →
  l !! i = Some x → l !! j = Some y → le x y = true.
Proof.
  revert i j. induction l as [|a l IH]; intros i j Hall Hij Hi Hj; simpl in *.
  - by rewrite lookup_nil in Hi.
  - apply andb_true_iff in Hall as [Ha Hall].
    destruct j as [|j]; [lia|]. simpl in Hj. destruct i as [|i]; simpl in Hi.
    + inversion Hi; subst a. rewrite forallb_forall in Ha. apply Ha.
      apply list_elem_of_In. by eapply list_elem_of_lookup_2.
    + eapply (IH i j); eauto. lia.
Qed.

Lemma all_pairs_cons {X : Type} (le : X → X → bool) a l y :
  all_pairs le (a :: l) = true → y ∈ l → le a y = true.
Proof.
  simpl. intros Hall Hy. apply andb_true_iff in Hall as [Ha _].
  rewrite forallb_forall in Ha. apply Ha. by apply list_elem_of_In.
Qed.

Lemma all_pairs_tail {X : Type} (le : X → X → bool) a l :
  all_pairs le (a :: l) = true → all_pairs le l = true.
Proof. simpl. intros Hall. by apply andb_true_iff in Hall as [_ ?]. Qed.

Section Merge.
Variable features : list feature.
Variable valid_bcs : list string.
Hypothesis features_ok : features_sorted_unnested features = true.

Local Abbreviation cm := (chrom_mapping_of features).
Local Abbreviation bm := (bc_mapping_of valid_bcs).
Local Abbreviation vs := (list_to_set valid_bcs : gset string).

Lemma feature_ranked j f :
  features !! j = Some f → is_Some (cm !! f_chrom f).
Proof.
  intros Hj. apply chrom_mapping_dom. exists f. split; [|done].
  by eapply list_elem_of_lookup_2.
Qed.

(** In a sorted list, ranks do not decrease, and inside a chromosome
    neither starts nor stops do. *)
Lemma sorted_pair i j fi fj :
  (i <= j)%nat → features !! i = Some fi → features !! j = Some fj →
  ∃ a b, cm !! f_chrom fi = Some a ∧ cm !! f_chrom fj = Some b
         ∧ (a <= b)%nat
         ∧ (a = b → f_start fi <= f_start fj ∧ f_stop fi <= f_stop fj).
Proof.
  intros Hij Hi Hj. destruct (decide (i = j)) as [->|Hne].
  - rewrite Hi in Hj. inversion Hj; subst fj.
    destruct (feature_ranked _ _ Hi) as [a Ha]. exists a, a. repeat split; try done; lia.
  - pose proof (all_pairs_lookup _ _ i j fi fj features_ok ltac:(lia) Hi Hj) as Hle.
    unfold feature_le in Hle.
    destruct (cm !! f_chrom fi) as [a|]; [|done].
    destruct (cm !! f_chrom fj) as [b|]; [|done].
    exists a, b. split; [done|]. split; [done|].
    apply orb_true_iff in Hle as [Hlt|Heq].
    + apply Nat.ltb_lt in Hlt. split; [lia|]. intros ->. lia.
    + apply andb_true_iff in Heq as [Heq Hstop].
      apply andb_true_iff in Heq as [Heq Hstart].
      apply Nat.eqb_eq in Heq. apply Z.leb_le in Hstart, Hstop.
      split; [lia|]. done.
Qed.

Lemma suffix_head (fs : list feature) f fs' idx :
  (∀ k, (f :: fs') !! k = features !! (idx + k)%nat) →
  features !! idx = Some f ∧ ∀ k, fs' !! k = features !! (S idx + k)%nat.
Proof.
  intros Hs. split.
  - specialize (Hs 0%nat). rewrite Nat.add_0_r in Hs. done.
  - intros k. specialize (Hs (S k)). simpl in Hs.
    by replace (idx + S k)%nat with (S (idx + k))%nat in Hs by lia.
Qed.

Lemma suffix_drop idx k : drop idx features !! k = features !! (idx + k)%nat.
Proof. apply lookup_drop. Qed.

Lemma skip_chroms_spec chrom_int fs idx :
  (∀ k, fs !! k = features !! (idx + k)%nat) →
  ∃ idx', skip_chroms cm chrom_int fs idx = (idx', None)
    ∧ (idx <= idx')%nat
    ∧ (∀ j f r, (idx <= j < idx')%nat → features !! j = Some f →
                cm !! f_chrom f = Some r → (r < chrom_int)%nat)
    ∧ (∀ f r, features !! idx' = Some f → cm !! f_chrom f = Some r →
              (chrom_int <= r)%nat).
Proof.
  revert idx. induction fs as [|f fs IH]; intros idx Hs; simpl.
  - exists idx. split; [done|]. split; [done|]. split; [intros; lia|].
    intros f r Hf. specialize (Hs 0%nat). rewrite Nat.add_0_r in Hs.
    by rewrite Hf in Hs.
  - apply (suffix_head fs) in Hs as [Hf Hs].
    destruct (feature_ranked _ _ Hf) as [r Hr]. rewrite Hr.
    destruct (r <? chrom_int)%nat eqn:Hlt.
    + apply Nat.ltb_lt in Hlt.
      destruct (IH (S idx) Hs) as (idx' & -> & Hge & Hbelow & Hat).
      exists idx'. split; [done|]. split; [lia|]. split; [|done].
      intros j g r' Hj Hg Hr'. destruct (decide (j = idx)) as [->|Hne].
      * rewrite Hf in Hg. inversion Hg; subst g. rewrite Hr in Hr'.
        inversion Hr'; subst. done.
      * eapply Hbelow; eauto. lia.
    + apply Nat.ltb_ge in Hlt. exists idx. split; [done|]. split; [done|].
      split; [intros; lia|]. intros g r' Hg Hr'.
      rewrite Hf in Hg. inversion Hg; subst g. rewrite Hr in Hr'.
      by inversion Hr'; subst.
Qed.

Lemma skip_behind_spec start chrom_int fs idx :
  (∀ k, fs !! k = features !! (idx + k)%nat) →
  ∃ idx', skip_behind cm start chrom_int fs idx = (idx', None)
    ∧ (idx <= idx')%nat
    ∧ (∀ j f, (idx <= j < idx')%nat → features !! j = Some f →
              f_stop f < start ∧ cm !! f_chrom f = Some chrom_int)
    ∧ (∀ f, features !! idx' = Some f →
            ¬ (f_stop f < start ∧ cm !! f_chrom f = Some chrom_int)).
Proof.
  revert idx. induction fs as [|f fs IH]; intros idx Hs; simpl.
  - exists idx. split; [done|]. split; [done|]. split; [intros; lia|].
    intros f Hf. specialize (Hs 0%nat). rewrite Nat.add_0_r in Hs.
    by rewrite Hf in Hs.
  - apply (suffix_head fs) in Hs as [Hf Hs].
    destruct (feature_ranked _ _ Hf) as [r Hr]. rewrite Hr.
    destruct (f_stop f <? start) eqn:Hlt.
    + apply Z.ltb_lt in Hlt. destruct (chrom_int =? r)%nat eqn:Heq.
      * apply Nat.eqb_eq in Heq. subst r.
        destruct (IH (S idx) Hs) as (idx' & -> & Hge & Hbelow & Hat).
        exists idx'. split; [done|]. split; [lia|]. split; [|done].
        intros j g Hj Hg. destruct (decide (j = idx)) as [->|Hne].
        -- rewrite Hf in Hg. by inversion Hg; subst g.
        -- eapply Hbelow; eauto. lia.
      * apply Nat.eqb_neq in Heq. exists idx. split; [done|]. split; [done|].
        split; [intros; lia|]. intros g Hg [_ Hr'].
        rewrite Hf in Hg. inversion Hg; subst g. congruence.
    + apply Z.ltb_ge in Hlt. exists idx. split; [done|]. split; [done|].
      split; [intros; lia|]. intros g Hg [Hlt' _].
      rewrite Hf in Hg. inversion Hg; subst g. lia.
Qed.

Lemma cond_hits fr f chrom_int r :
  cm !! fr_chrom fr = Some chrom_int → cm !! f_chrom f = Some r →
  negb ((fr_stop fr <? f_start f) || (f_stop f <? fr_start fr))
  && (chrom_int =? r)%nat
  = hits fr f.
Proof.
  intros Hfr Hf. unfold hits, overlaps.
  assert ((chrom_int =? r)%nat = String.eqb (fr_chrom fr) (f_chrom f)) as ->.
  { destruct (String.eqb_spec (fr_chrom fr) (f_chrom f)) as [Heq|Hne].
    - rewrite Heq, Hf in Hfr. inversion Hfr; subst. apply Nat.eqb_refl.
    - apply Nat.eqb_neq. intros ->. apply Hne.
      by eapply chrom_mapping_inj. }
  destruct (String.eqb _ _); [|by rewrite andb_false_r].
  rewrite andb_true_r. simpl.
  destruct (Z.ltb_spec (fr_stop fr) (f_start f)),
           (Z.ltb_spec (f_stop f) (fr_start fr)),
           (Z.leb_spec (f_start f) (fr_stop fr)),
           (Z.leb_spec (fr_start fr) (f_stop f)); simpl; try done; lia.
Qed.

Lemma hits_same_chrom fr f :
  hits fr f = true → fr_chrom fr = f_chrom f ∧ overlaps fr f = true.
Proof.
  unfold hits. intros Hh. apply andb_true_iff in Hh as [Hc Ho].
  by apply String.eqb_eq in Hc.
Qed.

Lemma col_count_cons j r c shape events :
  col_count j {| tr_shape := shape; tr_events := (r, c) :: events |}
  = ((if decide (c = j) then 1 else 0)
     + col_count j {| tr_shape := shape; tr_events := events |})%nat.
Proof.
  unfold col_count. simpl. rewrite filter_cons. simpl.
  by case_decide.
Qed.

Lemma hit_spec bc row idx tr :
  bm !! bc = Some row → (row < fst (tr_shape tr))%nat →
  (idx < snd (tr_shape tr))%nat →
  ∃ tr', hit bm bc idx tr = Ok tr' ∧ tr_shape tr' = tr_shape tr
    ∧ ∀ j, col_count j tr' = ((if decide (idx = j) then 1 else 0) + col_count j tr)%nat.
Proof.
  intros Hrow Hr Hc. unfold hit. rewrite Hrow. simpl. unfold trace_incr.
  apply Nat.ltb_lt in Hr, Hc. rewrite Hr, Hc. simpl.
  eexists. split; [done|]. split; [done|].
  intros j. destruct tr as [shape events]. simpl. apply col_count_cons.
Qed.

Lemma follow_up_spec fr chrom_int row fs tmp_idx tr :
  cm !! fr_chrom fr = Some chrom_int → bm !! fr_barcode fr = Some row →
  (row < fst (tr_shape tr))%nat → snd (tr_shape tr) = length features →
  (∀ k, fs !! k = features !! (tmp_idx + k)%nat) →
  (∀ j1 j2 f1 f2, (tmp_idx <= j1 <= j2)%nat →
     features !! j1 = Some f1 → features !! j2 = Some f2 →
     hits fr f2 = true → hits fr f1 = true) →
  ∃ tr',
    follow_up cm bm (fr_barcode fr) chrom_int (fr_start fr) (fr_stop fr)
      fs tmp_idx tr = Ok tr'
    ∧ tr_shape tr' = tr_shape tr
    ∧ ∀ j f, features !! j = Some f →
        col_count j tr'
        = (col_count j tr
           + if decide ((tmp_idx <= j)%nat ∧ hits fr f = true) then 1 else 0)%nat.
Proof.
  intros Hci Hrow. revert tmp_idx tr.
  induction fs as [|f fs IH]; intros tmp_idx tr Hr Hcols Hs Hclosed; simpl.
  - exists tr. split; [done|]. split; [done|]. intros j g Hg.
    case_decide as Hd; [|lia]. exfalso. destruct Hd as [Hle _].
    specialize (Hs 0%nat). rewrite Nat.add_0_r in Hs. simpl in Hs. symmetry in Hs.
    apply lookup_ge_None in Hs. apply lookup_lt_Some in Hg. lia.
  - apply (suffix_head fs) in Hs as [Hf Hs].
    destruct (feature_ranked _ _ Hf) as [r Hrk]. rewrite Hrk.
    rewrite (cond_hits fr f chrom_int r Hci Hrk).
    destruct (hits fr f) eqn:Hh.
    + destruct (hit_spec (fr_barcode fr) row tmp_idx tr Hrow Hr) as (tr1 & -> & Hsh1 & Hc1).
      { rewrite Hcols. by eapply lookup_lt_Some. }
      destruct (IH (S tmp_idx) tr1) as (tr' & -> & Hsh' & Hc').
      * by rewrite Hsh1.
      * by rewrite Hsh1.
      * done.
      * intros j1 j2 f1 f2 Hj. apply Hclosed. lia.
      * exists tr'. split; [done|]. split; [congruence|].
        intros j g Hg. rewrite (Hc' j g Hg), Hc1.
        destruct (decide (tmp_idx = j)) as [->|Hne].
        -- rewrite Hf in Hg. inversion Hg; subst g.
           rewrite decide_False by lia. rewrite decide_True by (split; [lia|done]). lia.
        -- repeat case_decide; try lia; exfalso;
           match goal with Hn : ¬ (_ ∧ _) |- _ => apply Hn; split; [lia|tauto] end.
    + exists tr. split; [done|]. split; [done|]. intros j g Hg.
      case_decide as Hd; [|lia]. exfalso. destruct Hd as [Hle Hhg].
      assert (hits fr f = true) as Hcontra; [|congruence].
      eapply (Hclosed tmp_idx j f g); eauto; lia.
Qed.

(** After a hit of the cursor's feature, the features that the fragment
    hits are the ones that the follow-up loop walks through. *)
Lemma hits_closed fr idx f j1 j2 f1 f2 :
  features !! idx = Some f → hits fr f = true →
  (idx <= j1 <= j2)%nat →
  features !! j1 = Some f1 → features !! j2 = Some f2 →
  hits fr f2 = true → hits fr f1 = true.
Proof.
  intros Hf Hh Hj H1 H2 Hh2.
  apply hits_same_chrom in Hh as [Hc Ho].
  apply hits_same_chrom in Hh2 as [Hc2 Ho2].
  destruct (sorted_pair idx j1 f f1 ltac:(lia) Hf H1) as (a & b & Ha & Hb & Hab & Hab').
  destruct (sorted_pair j1 j2 f1 f2 ltac:(lia) H1 H2) as (b' & c & Hb' & Hc' & Hbc & Hbc').
  rewrite Hb in Hb'. inversion Hb'; subst b'.
  rewrite <- Hc2, Hc, Ha in Hc'. inversion Hc'; subst c.
  assert (a = b) as -> by lia.
  destruct (Hab' eq_refl) as [_ Hstop]. destruct (Hbc' eq_refl) as [Hstart _].
  unfold hits. apply andb_true_iff. split.
  - apply String.eqb_eq. rewrite Hc. eapply chrom_mapping_inj; eauto.
  - unfold overlaps in *. apply andb_true_iff in Ho as [Ho1 Ho3].
    apply andb_true_iff in Ho2 as [Ho4 Ho5].
    apply Z.leb_le in Ho1, Ho3, Ho4, Ho5.
    apply andb_true_iff. split; apply Z.leb_le; lia.
Qed.

Lemma overlap_spec fr chrom_int idx f tr :
  cm !! fr_chrom fr = Some chrom_int → fr_barcode fr ∈ valid_bcs →
  tr_shape tr = (length valid_bcs, length features) →
  features !! idx = Some f → hits fr f = true →
  no_hit_before features valid_bcs idx [fr] →
  ∃ tr',
    overlap features cm bm (fr_barcode fr) chrom_int (fr_start fr) (fr_stop fr)
      idx tr = Next (mkScan idx tr')
    ∧ counted features valid_bcs fr tr tr'.
Proof.
  intros Hci Hbc Hshape Hf Hh Hbefore. unfold overlap.
  destruct (bc_mapping_valid valid_bcs _ Hbc) as (row & Hrow & Hlt).
  destruct (hit_spec (fr_barcode fr) row idx tr Hrow) as (tr1 & -> & Hsh1 & Hc1).
  { by rewrite Hshape. }
  { rewrite Hshape. simpl. by eapply lookup_lt_Some. }
  destruct (follow_up_spec fr chrom_int row (drop (S idx) features) (S idx) tr1)
    as (tr' & -> & Hsh' & Hc'); try done.
  - by rewrite Hsh1, Hshape.
  - by rewrite Hsh1, Hshape.
  - apply suffix_drop.
  - intros j1 j2 f1 f2 Hj. eapply (hits_closed fr idx f); eauto. lia.
  - exists tr'. split; [done|]. split; [congruence|].
    intros j g Hg. rewrite (Hc' j g Hg), Hc1. unfold hit_once.
    destruct (decide (idx = j)) as [->|Hne].
    + rewrite Hf in Hg. inversion Hg; subst g.
      rewrite decide_False by lia.
      rewrite decide_True by (split; assumption). lia.
    + destruct (decide (j < idx)%nat) as [Hlt'|Hge].
      * rewrite decide_False by lia.
        rewrite decide_False; [lia|]. intros [_ Hhg].
        rewrite (Hbefore j g fr Hlt' Hg) in Hhg; [done| |done].
        apply list_elem_of_singleton. done.
      * repeat case_decide; try lia; exfalso;
          match goal with
          | Hn : ¬ (_ ∧ _) |- _ => apply Hn; split; solve [lia|tauto|assumption]
          end.
Qed.

Lemma counted_none fr tr :
  (fr_barcode fr ∈ valid_bcs →
   ∀ j g, features !! j = Some g → hits fr g = false) →
  counted features valid_bcs fr tr tr.
Proof.
  intros Hnone. split; [done|]. intros j g Hg. unfold hit_once.
  rewrite decide_False; [lia|]. intros [Hbc Hh].
  by rewrite (Hnone Hbc j g Hg) in Hh.
Qed.

(** A later fragment that hits a feature is on a chromosome of at least the
    rank of the present one, and does not start before it on the same. *)
Lemma later_fragment fr fr' g chrom_int r :
  fragment_le cm fr fr' = true → cm !! fr_chrom fr = Some chrom_int →
  hits fr' g = true → cm !! f_chrom g = Some r →
  (chrom_int <= r)%nat ∧ (chrom_int = r → fr_start fr <= fr_start fr').
Proof.
  intros Hle Hci Hh Hr. apply hits_same_chrom in Hh as [Hc _].
  unfold fragment_le in Hle. rewrite Hci, Hc, Hr in Hle.
  apply orb_true_iff in Hle as [Hlt|Heq].
  - apply Nat.ltb_lt in Hlt. split; [lia|]. intros ->. lia.
  - apply andb_true_iff in Heq as [Heq Hstart].
    apply Nat.eqb_eq in Heq. apply Z.leb_le in Hstart. split; [lia|done].
Qed.

Lemma no_hit_before_tail idx fr rest :
  no_hit_before features valid_bcs idx (fr :: rest) →
  no_hit_before features valid_bcs idx rest.
Proof.
  intros Hb j g fr' Hj Hg Hin. apply (Hb j g fr' Hj Hg). by right.
Qed.

Lemma no_hit_before_head idx fr rest :
  no_hit_before features valid_bcs idx (fr :: rest) →
  no_hit_before features valid_bcs idx [fr].
Proof.
  intros Hb j g fr' Hj Hg Hin. apply list_elem_of_singleton in Hin as ->.
  apply (Hb j g fr Hj Hg). by left.
Qed.

(** The features that line 235 walks past are hit neither by the present
    fragment nor by a later one. *)
Lemma skip_behind_keeps fr rest chrom_int idx idx' :
  cm !! fr_chrom fr = Some chrom_int →
  (∀ fr', fr' ∈ rest → fragment_le cm fr fr' = true) →
  no_hit_before features valid_bcs idx (fr :: rest) →
  (∀ j f, (idx <= j < idx')%nat → features !! j = Some f →
          f_stop f < fr_start fr ∧ cm !! f_chrom f = Some chrom_int) →
  no_hit_before features valid_bcs idx' (fr :: rest).
Proof.
  intros Hci Hle Hb Hbelow j g fr' Hj Hg Hin Hbc.
  destruct (decide (j < idx)%nat) as [Hlt|Hge]; [by eapply Hb|].
  destruct (Hbelow j g ltac:(lia) Hg) as [Hstop Hr].
  destruct (hits fr' g) eqn:Hh; [|done]. exfalso.
  assert (fr_start fr <= fr_start fr') as Hstart.
  { apply elem_of_cons in Hin as [->|Hin]; [lia|].
    by destruct (later_fragment fr fr' g chrom_int chrom_int (Hle _ Hin) Hci Hh Hr)
      as [_ Hs]; apply Hs. }
  apply hits_same_chrom in Hh as [_ Ho]. unfold overlaps in Ho.
  apply andb_true_iff in Ho as [_ Ho]. apply Z.leb_le in Ho. lia.
Qed.

(** The same for the features that line 219 walks past. *)
Lemma skip_chroms_keeps fr rest chrom_int idx idx' :
  cm !! fr_chrom fr = Some chrom_int →
  (∀ fr', fr' ∈ rest → fragment_le cm fr fr' = true) →
  no_hit_before features valid_bcs idx (fr :: rest) →
  (∀ j f r, (idx <= j < idx')%nat → features !! j = Some f →
            cm !! f_chrom f = Some r → (r < chrom_int)%nat) →
  no_hit_before features valid_bcs idx' (fr :: rest).
Proof.
  intros Hci Hle Hb Hbelow j g fr' Hj Hg Hin Hbc.
  destruct (decide (j < idx)%nat) as [Hlt|Hge]; [by eapply Hb|].
  destruct (feature_ranked _ _ Hg) as [r Hr].
  pose proof (Hbelow j g r ltac:(lia) Hg Hr) as Hlt.
  destruct (hits fr' g) eqn:Hh; [|done]. exfalso.
  apply elem_of_cons in Hin as [->|Hin].
  - apply hits_same_chrom in Hh as [Hc _]. rewrite Hc, Hr in Hci.
    inversion Hci. lia.
  - destruct (later_fragment fr fr' g chrom_int r (Hle _ Hin) Hci Hh Hr). lia.
Qed.

(** A fragment that ends before the cursor's feature starts hits no feature
    from the cursor on. *)
Lemma no_hit_from fr chrom_int idx f j g :
  cm !! fr_chrom fr = Some chrom_int →
  features !! idx = Some f → cm !! f_chrom f = Some chrom_int →
  fr_stop fr < f_start f →
  (idx <= j)%nat → features !! j = Some g → hits fr g = false.
Proof.
  intros Hci Hf Hr Hstop Hj Hg.
  destruct (hits fr g) eqn:Hh; [|done]. exfalso.
  apply hits_same_chrom in Hh as [Hc Ho].
  destruct (sorted_pair idx j f g Hj Hf Hg) as (a & b & Ha & Hb & _ & Hab).
  rewrite Hr in Ha. inversion Ha; subst a.
  rewrite <- Hc, Hci in Hb. inversion Hb; subst b.
  destruct (Hab eq_refl) as [Hstart _].
  unfold overlaps in Ho. apply andb_true_iff in Ho as [Ho _].
  apply Z.leb_le in Ho. lia.
Qed.

(** Nor does a fragment of a chromosome that ranks before the cursor's. *)
Lemma no_hit_later_chrom fr chrom_int idx f r j g :
  cm !! fr_chrom fr = Some chrom_int →
  features !! idx = Some f → cm !! f_chrom f = Some r →
  (chrom_int < r)%nat →
  (idx <= j)%nat → features !! j = Some g → hits fr g = false.
Proof.
  intros Hci Hf Hr Hlt Hj Hg.
  destruct (hits fr g) eqn:Hh; [|done]. exfalso.
  apply hits_same_chrom in Hh as [Hc _].
  destruct (sorted_pair idx j f g Hj Hf Hg) as (a & b & Ha & Hb & Hab & _).
  rewrite Hr in Ha. inversion Ha; subst a.
  rewrite <- Hc, Hci in Hb. inversion Hb; subst b. lia.
Qed.

Lemma same_rank_hits fr chrom_int f :
  cm !! fr_chrom fr = Some chrom_int → cm !! f_chrom f = Some chrom_int →
  f_start f <= fr_stop fr → fr_start fr <= f_stop f → hits fr f = true.
Proof.
  intros Hci Hr H1 H2. unfold hits, overlaps.
  apply andb_true_iff. split.
  - apply String.eqb_eq. by eapply chrom_mapping_inj.
  - apply andb_true_iff. split; by apply Z.leb_le.
Qed.

Lemma intervals_spec ls fr rest chrom_int idx f tr :
  parse_fragment ls = Some fr →
  cm !! fr_chrom fr = Some chrom_int → fr_barcode fr ∈ valid_bcs →
  tr_shape tr = (length valid_bcs, length features) →
  features !! idx = Some f → cm !! f_chrom f = Some chrom_int →
  no_hit_before features valid_bcs idx (fr :: rest) →
  (∀ fr', fr' ∈ rest → fragment_le cm fr fr' = true) →
  step_post features valid_bcs fr rest idx tr
    (intervals features cm bm ls (fr_barcode fr) chrom_int idx tr).
Proof.
  intros Hparse Hci Hbc Hshape Hf Hr Hb Hle.
  apply parse_fragment_Some in Hparse as (s1 & s2 & more & -> & Hs1 & Hs2).
  unfold intervals. simpl. rewrite Hs1, Hs2, Hf.
  destruct (Z.ltb_spec (fr_stop fr) (f_start f)) as [Hbefore|Hnb]; simpl.
  { split; [done|]. split; [|done]. apply counted_none. intros _ j g Hg.
    destruct (decide (j < idx)%nat) as [Hlt|Hge].
    - eapply Hb; eauto. by left.
    - apply (no_hit_from fr chrom_int idx f j g); auto; lia. }
  destruct (Z.ltb_spec (f_stop f) (fr_start fr)) as [Hbehind|Hnbh].
  2:{ destruct (overlap_spec fr chrom_int idx f tr) as (tr' & -> & Hcnt); try done.
      - by apply same_rank_hits with chrom_int.
      - by eapply no_hit_before_head. }
  destruct (skip_behind_spec (fr_start fr) chrom_int (drop idx features) idx)
    as (idx' & -> & Hge & Hbelow & Hat); [apply suffix_drop|].
  pose proof (skip_behind_keeps fr rest chrom_int idx idx' Hci Hle Hb Hbelow) as Hb'.
  destruct (Nat.leb_spec (length features) idx') as [Hend|Hin].
  { simpl. split; [done|]. split; [|done]. apply counted_none. intros _ j g Hg.
    eapply Hb'; eauto; [|by left]. apply lookup_lt_Some in Hg. lia. }
  destruct (lookup_lt_is_Some_2 features idx' Hin) as [f' Hf']. rewrite Hf'.
  destruct (feature_ranked _ _ Hf') as [r' Hr']. rewrite Hr'.
  destruct (Nat.eqb_spec chrom_int r') as [<-|Hne]; simpl.
  2:{ split; [done|]. split; [|done]. apply counted_none. intros _ j g Hg.
      destruct (decide (j < idx')%nat) as [Hlt|Hge'].
      - eapply Hb'; eauto. by left.
      - destruct (sorted_pair idx idx' f f' Hge Hf Hf') as (a & b & Ha & Hb0 & Hab & _).
        rewrite Hr in Ha. inversion Ha; subst a.
        rewrite Hr' in Hb0. inversion Hb0; subst b.
        apply (no_hit_later_chrom fr chrom_int idx' f' r' j g); auto; lia. }
  assert (fr_start fr <= f_stop f') as Hreach.
  { destruct (Z.le_gt_cases (fr_start fr) (f_stop f')) as [?|Hgt]; [done|].
    exfalso. apply (Hat f' Hf'). split; [lia|done]. }
  destruct (Z.ltb_spec (fr_stop fr) (f_start f')) as [Hbefore'|Hnb']; simpl.
  - split; [done|]. split; [|done]. apply counted_none. intros _ j g Hg.
    destruct (decide (j < idx')%nat) as [Hlt|Hge'].
    + eapply Hb'; eauto. by left.
    + apply (no_hit_from fr chrom_int idx' f' j g); auto; lia.
  - destruct (overlap_spec fr chrom_int idx' f' tr) as (tr' & -> & Hcnt); try done.
    + by apply same_rank_hits with chrom_int.
    + by eapply no_hit_before_head.
Qed.

Lemma step_post_from fr rest idx idx' tr c :
  (idx <= idx')%nat →
  step_post features valid_bcs fr rest idx' tr c →
  step_post features valid_bcs fr rest idx tr c.
Proof.
  intros Hle. destruct c as [sc'|sc'|e i]; simpl; try done;
    intros (Hge & Hcnt & Hb); (split; [lia|done]).
Qed.

Lemma ranked_nonempty chrom chrom_int :
  cm !! chrom = Some chrom_int →
  ∃ k g, features !! k = Some g ∧ f_chrom g = chrom.
Proof.
  intros Hci. assert (is_Some (cm !! chrom)) as Hsome by eauto.
  apply chrom_mapping_dom in Hsome as (g & Hg & Hc).
  apply list_elem_of_lookup_1 in Hg as [k Hk]. eauto.
Qed.

Lemma process_spec ls fr rest sc :
  parse_fragment ls = Some fr →
  tr_shape (count_mtx sc) = (length valid_bcs, length features) →
  (feature_idx sc < length features)%nat ∨ features = [] →
  no_hit_before features valid_bcs (feature_idx sc) (fr :: rest) →
  (∀ fr', fr' ∈ rest → fragment_le cm fr fr' = true) →
  step_post features valid_bcs fr rest (feature_idx sc) (count_mtx sc)
    (process features cm bm vs ls sc).
Proof.
  intros Hparse Hshape Hrange Hb Hle.
  pose proof Hparse as Hparse'.
  apply parse_fragment_Some in Hparse' as (s1 & s2 & more & Hls & Hs1 & Hs2).
  subst ls. unfold process.
  cbn [lookup list_lookup].
  destruct (bool_decide_reflect (fr_barcode fr ∈ vs)) as [Hbc|Hbc].
  2:{ simpl. split; [done|]. split; [|done]. apply counted_none.
      intros Hin. exfalso. apply Hbc. by apply elem_of_list_to_set. }
  apply elem_of_list_to_set in Hbc.
  destruct (cm !! fr_chrom fr) as [chrom_int|] eqn:Hci.
  2:{ simpl. split; [done|]. split; [|done]. apply counted_none.
      intros _ j g Hg. destruct (hits fr g) eqn:Hh; [|done]. exfalso.
      apply hits_same_chrom in Hh as [Hc _].
      destruct (feature_ranked _ _ Hg) as [r Hr]. congruence. }
  destruct (ranked_nonempty _ _ Hci) as (k & g0 & Hk & Hc0).
  assert (feature_idx sc < length features)%nat as Hidx.
  { destruct Hrange as [?|Hnil]; [done|]. rewrite Hnil in Hk.
    by rewrite lookup_nil in Hk. }
  destruct (lookup_lt_is_Some_2 features _ Hidx) as [f Hf]. rewrite Hf.
  destruct (feature_ranked _ _ Hf) as [r Hr]. rewrite Hr.
  destruct (Nat.ltb_spec chrom_int r) as [Hlt|Hge].
  { simpl. split; [done|]. split; [|done]. apply counted_none.
    intros _ j g Hg. destruct (decide (j < feature_idx sc)%nat) as [Hj|Hj].
    - eapply Hb; eauto. by left.
    - apply (no_hit_later_chrom fr chrom_int (feature_idx sc) f r j g); auto; lia. }
  destruct (Nat.ltb_spec r chrom_int) as [Hgt|Hle'].
  2:{ assert (r = chrom_int) as -> by lia.
      by apply intervals_spec with f. }
  destruct (skip_chroms_spec chrom_int (drop (feature_idx sc) features) (feature_idx sc))
    as (idx' & -> & Hge' & Hbelow & Hat); [apply suffix_drop|].
  pose proof (skip_chroms_keeps fr rest chrom_int _ idx' Hci Hle Hb Hbelow) as Hb'.
  destruct (Nat.leb_spec (length features) idx') as [Hend|Hin].
  { simpl. split; [done|]. split; [|done]. apply counted_none. intros _ j g Hg.
    eapply Hb'; eauto; [|by left]. apply lookup_lt_Some in Hg. lia. }
  destruct (lookup_lt_is_Some_2 features idx' Hin) as [f' Hf'].
  destruct (feature_ranked _ _ Hf') as [r' Hr'].
  assert (r' = chrom_int) as ->.
  { pose proof (Hat f' r' Hf' Hr') as Hge''.
    assert (cm !! f_chrom g0 = Some chrom_int) as Hr0 by (by rewrite Hc0).
    destruct (decide (k < feature_idx sc)%nat) as [Hk1|Hk1].
    - destruct (sorted_pair k (feature_idx sc) g0 f ltac:(lia) Hk Hf)
        as (a & b & Ha & Hb0 & Hab & _).
      rewrite Hr0 in Ha. rewrite Hr in Hb0. inversion Ha. inversion Hb0. lia.
    - destruct (decide (k < idx')%nat) as [Hk2|Hk2].
      + pose proof (Hbelow k g0 chrom_int ltac:(lia) Hk Hr0). lia.
      + destruct (sorted_pair idx' k f' g0 ltac:(lia) Hf' Hk)
          as (a & b & Ha & Hb0 & Hab & _).
        rewrite Hr' in Ha. rewrite Hr0 in Hb0. inversion Ha. inversion Hb0. lia. }
  apply step_post_from with idx'; [done|].
  by apply intervals_spec with f'.
Qed.

Lemma overlapping_cons fr frs f :
  overlapping valid_bcs (fr :: frs) f
  = (hit_once valid_bcs fr f + overlapping valid_bcs frs f)%nat.
Proof.
  unfold overlapping, hit_once. rewrite filter_cons.
  by case_decide.
Qed.

Lemma overlapping_none frs f :
  (∀ fr, fr ∈ frs → fr_barcode fr ∈ valid_bcs → hits fr f = false) →
  overlapping valid_bcs frs f = 0%nat.
Proof.
  induction frs as [|fr frs IH]; intros Hnone; [done|].
  rewrite overlapping_cons, IH.
  - unfold hit_once. rewrite decide_False; [done|]. intros [Hbc Hh].
    rewrite Hnone in Hh; [done|by left|done].
  - intros fr' Hin. apply Hnone. by right.
Qed.

(** The scan of records in order counts, for every feature, the fragments
    of valid barcode that hit it, whether it reads all of them or stops at
    the end of the features. *)
Lemma scan_splits_spec splits frs sc :
  Forall2 (λ ls fr, parse_fragment ls = Some fr) splits frs →
  all_pairs (fragment_le cm) frs = true →
  tr_shape (count_mtx sc) = (length valid_bcs, length features) →
  (feature_idx sc < length features)%nat ∨ features = [] →
  no_hit_before features valid_bcs (feature_idx sc) frs →
  ∃ t', ctl_returned (scan_splits features cm bm vs sc splits) = Ok t'
    ∧ tr_shape t' = (length valid_bcs, length features)
    ∧ ∀ j f, features !! j = Some f →
        col_count j t'
        = (col_count j (count_mtx sc) + overlapping valid_bcs frs f)%nat.
Proof.
  intros Hparse. revert sc.
  induction Hparse as [|ls fr splits frs Hls Hrest IH];
    intros sc Hsorted Hshape Hrange Hb; simpl.
  - exists (count_mtx sc). split; [done|]. split; [done|].
    intros j f _. unfold overlapping. simpl. lia.
  - pose proof (process_spec ls fr frs sc Hls Hshape Hrange Hb
                  (λ fr' Hin, all_pairs_cons _ _ _ _ Hsorted Hin)) as Hpost.
    assert (ctl_in_range features (process features cm bm vs ls sc)
            ∨ features = []) as Hin.
    { destruct Hrange as [Hlt|Hnil]; [left|by right].
      by apply process_in_range. }
    destruct (process features cm bm vs ls sc) as [sc'|sc'|e i];
      simpl in Hpost; [| |done].
    + destruct Hpost as (Hge & [Hsh Hcnt] & Hb').
      destruct (IH sc') as (t' & Hret & Hsh' & Hcols).
      * by eapply all_pairs_tail.
      * congruence.
      * destruct Hin as [Hin|Hnil]; [by left|by right].
      * by eapply no_hit_before_tail.
      * exists t'. split; [done|]. split; [done|].
        intros j f Hf. rewrite (Hcols j f Hf), (Hcnt j f Hf), overlapping_cons. lia.
    + destruct Hpost as (Hge & [Hsh Hcnt] & Hb').
      exists (count_mtx sc'). split; [done|]. split; [congruence|].
      intros j f Hf. rewrite (Hcnt j f Hf), overlapping_cons.
      rewrite (overlapping_none frs f); [lia|].
      intros fr' Hfr' Hbc. eapply Hb'; eauto; [|by right].
      destruct Hin as [Hin|Hnil].
      * simpl in Hin. rewrite Hin. by eapply lookup_lt_Some.
      * rewrite Hnil in Hf. by rewrite lookup_nil in Hf.
Qed.

End Merge.

(** ** From recorded increments to the cells of the tables *)

Lemma sum_rows_ext x y n :
  (∀ r, (r < n)%nat → x r = y r) → sum_rows x n = sum_rows y n.
Proof.
  induction n as [|n IH]; intros Hxy; simpl; [done|].
  rewrite IH, Hxy; [done|lia|]. intros r Hr. apply Hxy. lia.
Qed.

Lemma sum_rows_add x y n :
  sum_rows (λ r, x r + y r) n = sum_rows x n + sum_rows y n.
Proof. induction n as [|n IH]; simpl; [done|]. rewrite IH. lia. Qed.

Lemma sum_rows_zero n : sum_rows (λ _, 0) n = 0.
Proof. induction n as [|n IH]; simpl; [done|]. rewrite IH. lia. Qed.

Lemma sum_rows_one r0 n :
  sum_rows (λ r, if decide (r = r0) then 1 else 0) n
  = if decide (r0 < n)%nat then 1 else 0.
Proof.
  induction n as [|n IH]; cbn [sum_rows].
  - case_decide; [lia|done].
  - rewrite IH. repeat case_decide; lia.
Qed.

Lemma sum_rows_events events n j :
  Forall (λ e : nat * nat, (e.1 < n)%nat) events →
  sum_rows (λ r, Z.of_nat (length (filter (λ e, e = (r, j)) events))) n
  = Z.of_nat (length (filter (λ e : nat * nat, e.2 = j) events)).
Proof.
  induction events as [|[r0 c0] events IH]; intros Hrows.
  - simpl. apply sum_rows_zero.
  - apply Forall_cons in Hrows as [Hr0 Hrows]. simpl in Hr0.
    rewrite (sum_rows_ext _
               (λ r, (if decide (r = r0) then if decide (c0 = j) then 1 else 0 else 0)
                     + Z.of_nat (length (filter (λ e, e = (r, j)) events)))).
    + rewrite sum_rows_add, IH by done. rewrite filter_cons. simpl.
      destruct (decide (c0 = j)) as [->|Hne].
      * rewrite sum_rows_one. rewrite decide_True by done. simpl. lia.
      * rewrite (sum_rows_ext _ (λ _, 0)), sum_rows_zero; [lia|].
        intros r _. by case_decide.
    + intros r _. rewrite filter_cons.
      destruct (decide (r = r0)) as [->|Hne].
      * destruct (decide (c0 = j)) as [->|Hne'].
        -- rewrite decide_True by done. simpl. lia.
        -- rewrite decide_False by congruence. lia.
      * rewrite decide_False by congruence. lia.
Qed.

Lemma dense_trace_new n_bcs n_features :
  dense_trace (dense_new n_bcs n_features) (trace_new n_bcs n_features).
Proof.
  unfold dense_trace, dense_new, trace_new; simpl.
  split; [by rewrite length_replicate|].
  split; [apply Forall_replicate; by rewrite length_replicate|].
  split; [done|]. intros r c. unfold dense_cell, trace_cell. simpl.
  destruct (replicate n_bcs (replicate n_features 0) !! r) as [row|] eqn:Hrow; [|done].
  apply lookup_replicate in Hrow as [-> _]. simpl.
  destruct (replicate n_features 0 !! c) as [v|] eqn:Hv; [|done].
  by apply lookup_replicate in Hv as [-> _].
Qed.

Lemma dense_trace_incr m t r c :
  dense_trace m t → option_Forall2 dense_trace (dense_incr m r c) (trace_incr t r c).
Proof.
  intros (Hrows & Hcols & Hev & Hcell). unfold dense_incr, trace_incr.
  destruct (m !! r) as [row|] eqn:Hr.
  - assert (r < length m)%nat as Hlt by (by eapply lookup_lt_Some).
    assert (length row = snd (tr_shape t)) as Hlen.
    { eapply (proj1 (Forall_lookup _ _)) in Hcols; eauto. }
    destruct (row !! c) as [v|] eqn:Hc.
    + assert (c < length row)%nat as Hcl by (by eapply lookup_lt_Some).
      assert ((r <? fst (tr_shape t))%nat = true) as -> by (apply Nat.ltb_lt; lia).
      assert ((c <? snd (tr_shape t))%nat = true) as -> by (apply Nat.ltb_lt; lia).
      simpl. constructor. split; [|split; [|split]]; simpl.
      * by rewrite length_insert.
      * apply Forall_insert; [done|]. by rewrite length_insert.
      * apply Forall_cons. split; [simpl; lia|done].
      * intros r' c'. unfold dense_cell, trace_cell. simpl.
        rewrite filter_cons.
        pose proof (Hcell r' c') as Hold. unfold dense_cell, trace_cell in Hold.
        destruct (decide (r' = r)) as [->|Hner].
        -- rewrite list_lookup_insert_eq by done. simpl.
           rewrite Hr in Hold. simpl in Hold.
           destruct (decide (c' = c)) as [->|Hnec].
           ++ rewrite list_lookup_insert_eq by done. rewrite Hc in Hold.
              simpl in *. rewrite decide_True by done. simpl. lia.
           ++ rewrite list_lookup_insert_ne by done.
              rewrite decide_False by congruence. done.
        -- rewrite list_lookup_insert_ne by done.
           rewrite decide_False by congruence. done.
    + apply lookup_ge_None in Hc.
      assert ((c <? snd (tr_shape t))%nat = false) as -> by (apply Nat.ltb_ge; lia).
      rewrite andb_false_r. constructor.
  - apply lookup_ge_None in Hr.
    assert ((r <? fst (tr_shape t))%nat = false) as -> by (apply Nat.ltb_ge; lia).
    simpl. constructor.
Qed.

Lemma feature_total_dense m t j :
  dense_trace m t →
  feature_total (DenseT m) (fst (tr_shape t)) j = Z.of_nat (col_count j t).
Proof.
  intros (Hrows & Hcols & Hev & Hcell). unfold feature_total, col_count. simpl.
  rewrite <- sum_rows_events with (n := fst (tr_shape t)) by done.
  apply sum_rows_ext. intros r _. apply Hcell.
Qed.

Lemma feature_total_sparse m l n j :
  dense_lil m l → feature_total (SparseT l) n j = feature_total (DenseT m) n j.
Proof.
  intros Hml. unfold feature_total. simpl. apply sum_rows_ext.
  intros r _. by apply dense_lil_cell.
Qed.

Lemma count_run_dense_trace fragments features valid_bcs comment :
  result_rel dense_trace
    (returned (count_run (A := dense) fragments features valid_bcs comment))
    (returned (count_run (A := trace) fragments features valid_bcs comment)).
Proof.
  apply outcome_rel_returned. unfold count_run.
  apply run_sim; [intros; by apply dense_trace_incr|done|apply dense_trace_new].
Qed.

Lemma count_run_trace_exact fragments features valid_bcs comment frs :
  read_fragments comment fragments = Some frs →
  features_sorted_unnested features = true →
  fragments_sorted features frs = true →
  ∃ t, returned (count_run (A := trace) fragments features valid_bcs comment) = Ok t
    ∧ tr_shape t = (length valid_bcs, length features)
    ∧ ∀ j f, features !! j = Some f →
        col_count j t = overlapping valid_bcs frs f.
Proof.
  intros Hread Hfeat Hfrag. apply read_fragments_Some in Hread.
  unfold count_run. rewrite <- ctl_returned_outcome, run_scan_splits.
  destruct (scan_splits_spec features valid_bcs Hfeat
              (line_splits comment reader0 fragments) frs
              (mkScan 0%nat (acc_new (length valid_bcs) (length features))))
    as (t & Hret & Hshape & Hcols); try done.
  - simpl. destruct features; [by right|left; simpl; lia].
  - intros j f fr Hj. simpl in Hj. lia.
  - exists t. split; [done|]. split; [done|]. intros j f Hf.
    by rewrite (Hcols j f Hf).
Qed.

(** ** Hit counts *)

Lemma all_pairs_impl {X : Type} (le le' : X → X → bool) l :
  (∀ x y, le x y = true → le' x y = true) →
  all_pairs le l = true → all_pairs le' l = true.
Proof.
  intros Himpl. induction l as [|a l IH]; simpl; [done|].
  intros Hall. apply andb_true_iff in Hall as [Ha Hall].
  apply andb_true_iff. split; [|by apply IH].
  rewrite forallb_forall in *. intros y Hy. apply Himpl. by apply Ha.
Qed.

(** The order with stops that do not decrease is a case of the order in
    which the callers sort. *)
Lemma features_sorted_unnested_sorted features :
  features_sorted_unnested features = true → features_sorted features = true.
Proof.
  apply all_pairs_impl. intros f g. unfold feature_le, feature_lex_le.
  destruct (chrom_mapping_of features !! f_chrom f) as [a|]; [|done].
  destruct (chrom_mapping_of features !! f_chrom g) as [b|]; [|done].
  destruct (a <? b)%nat; [done|]. simpl.
  destruct (a =? b)%nat; [|done]. simpl.
  intros Hle. apply andb_true_iff in Hle as [Hstart Hstop].
  apply Z.leb_le in Hstart. rewrite Hstop.
  destruct (Z.ltb_spec (f_start f) (f_start g)); [done|]. simpl.
  rewrite andb_true_r. apply Z.eqb_eq. lia.
Qed.

(** For features sorted so that, within a chromosome, neither starts nor
    stops decrease, and fragments sorted by rank and start, the dense run
    returns a table in which the total of every feature's column is the
    number of fragments that hit the feature. *)
Lemma count_dense_totals (fragments : list string) (features : list feature)
    (valid_bcs : list string) (comment : string) (frs : list fragment) :
  read_fragments comment fragments = Some frs →
  features_sorted_unnested features = true →
  fragments_sorted features frs = true →
  ∃ m, returned (count_run (A := dense) fragments features valid_bcs comment)
       = Ok m
    ∧ ∀ j f, features !! j = Some f →
        feature_total (DenseT m) (length valid_bcs) j
        = Z.of_nat (overlapping valid_bcs frs f).
Proof.
  intros Hread Hfeat Hfrag.
  destruct (count_run_trace_exact fragments features valid_bcs comment frs
              Hread Hfeat Hfrag) as (t & Hret & Hshape & Hcols).
  pose proof (count_run_dense_trace fragments features valid_bcs comment) as Hdt.
  rewrite Hret in Hdt.
  destruct (returned (count_run (A := dense) _ _ _ _)) as [m|]; simpl in Hdt; [|done].
  exists m. split; [done|]. intros j f Hf. rewrite <- (Hcols j f Hf).
  rewrite <- (feature_total_dense m t j Hdt). by rewrite Hshape.
Qed.

(** C1, as the code has it. For features sorted so that, within a
    chromosome, neither starts nor stops decrease, and fragments sorted by
    chromosome rank and start, [count] returns a table in which the total of
    every feature's column is the number of fragments of valid barcode on the
    feature's chromosome whose closed interval overlaps the feature's. *)
Theorem hit_counts_exact_unnested (fragments : list string)
    (features : list feature) (valid_bcs : list string) (fast : bool)
    (comment : string) (frs : list fragment) :
  read_fragments comment fragments = Some frs →
  features_sorted_unnested features = true →
  fragments_sorted features frs = true →
  ∃ t, count fragments features valid_bcs fast comment = Ok t
    ∧ ∀ j f, features !! j = Some f →
        feature_total t (length valid_bcs) j
        = Z.of_nat (overlapping valid_bcs frs f).
Proof.
  intros Hread Hfeat Hfrag.
  destruct (count_dense_totals fragments features valid_bcs comment frs
              Hread Hfeat Hfrag) as (m & Hret & Hdense).
  pose proof (count_run_dense_lil fragments features valid_bcs comment) as Hdl.
  unfold count. rewrite Hret in *. destruct fast; simpl.
  - by exists (DenseT m).
  - destruct (returned (count_run (A := lil) _ _ _ _)) as [l|]; simpl in Hdl; [|done].
    exists (SparseT l). split; [done|]. intros j f Hf.
    rewrite (feature_total_sparse m l _ j Hdl). by apply Hdense.
Qed.

Lemma hit_counts_exact_unnested_witness :
  read_fragments "#" demo_fragments = Some demo_records
  ∧ features_sorted_unnested demo_features = true
  ∧ fragments_sorted demo_features demo_records = true
  ∧ ∃ t, count demo_fragments demo_features ["bc1"; "bc2"] false "#" = Ok t
      ∧ ∀ j f, demo_features !! j = Some f →
          feature_total t (length ["bc1"; "bc2"]) j
          = Z.of_nat (overlapping ["bc1"; "bc2"] demo_records f).
Proof.
  assert (read_fragments "#" demo_fragments = Some demo_records) as Hread
    by (vm_compute; reflexivity).
  assert (features_sorted_unnested demo_features = true) as Hfeat
    by (vm_compute; reflexivity).
  assert (fragments_sorted demo_features demo_records = true) as Hfrag
    by (vm_compute; reflexivity).
  split; [exact Hread|]. split; [exact Hfeat|]. split; [exact Hfrag|].
  exact (hit_counts_exact_unnested demo_fragments demo_features ["bc1"; "bc2"]
           false "#" demo_records Hread Hfeat Hfrag).
Defined.

(** C1, as stated, fails: a feature that lies inside an earlier one ends
    the follow-up loop, and a later feature that the fragment overlaps is
    not counted. *)
Lemma hit_counts_miss_nested :
  ¬ (∀ (fragments : list string) (features : list feature)
       (valid_bcs : list string) (fast : bool) (comment : string)
       (frs : list fragment),
       read_fragments comment fragments = Some frs →
       features_sorted features = true →
       fragments_sorted features frs = true →
       ∃ t, count fragments features valid_bcs fast comment = Ok t
         ∧ ∀ j f, features !! j = Some f →
             feature_total t (length valid_bcs) j
             = Z.of_nat (overlapping valid_bcs frs f)).
Proof.
  intros Hclaim.
  destruct (Hclaim [ bc1_line "chr1" "500" "600" ] features_nested
              ["bc1"] true "#" [ mkFragment "chr1" 500 600 "bc1" ])
    as (t & Hcount & Htotal); try (vm_compute; reflexivity).
  vm_compute in Hcount. inversion Hcount; subst t.
  specialize (Htotal 2%nat (mkFeature "chr1" 30 2000) eq_refl).
  vm_compute in Htotal. discriminate.
Qed.

(** ** Single features and fragments *)

Lemma single_feature_sorted f : features_sorted_unnested [f] = true.
Proof. reflexivity. Qed.

Lemma single_fragment_sorted features fr : fragments_sorted features [fr] = true.
Proof. reflexivity. Qed.

(** C3. One fragment of valid barcode against one feature of its chromosome
    is a hit exactly when [stop >= fstart] and [start <= fstop]; the fragment
    [100, 200] hits the feature [200, 300] once, the fragment [100, 199]
    does not, with either kind of table. *)
Theorem closed_interval_overlap (line : string) (fr : fragment) (f : feature)
    (fast : bool) (comment : string) :
  read_fragments comment [line] = Some [fr] →
  fr_chrom fr = f_chrom f →
  (∃ t, count [line] [f] [fr_barcode fr] fast comment = Ok t
     ∧ cell t 0 0
       = if (f_start f <=? fr_stop fr) && (fr_start fr <=? f_stop f)
         then 1 else 0)
  ∧ count [bc1_line "chr1" "100" "200"] feature_200_300 ["bc1"] true "#"
    = Ok (DenseT [[1]])
  ∧ count [bc1_line "chr1" "100" "200"] feature_200_300 ["bc1"] false "#"
    = Ok (SparseT {| lil_shape := (1, 1)%nat; lil_rows := [[(0%nat, 1)]] |})
  ∧ count [bc1_line "chr1" "100" "199"] feature_200_300 ["bc1"] true "#"
    = Ok (DenseT [[0]])
  ∧ count [bc1_line "chr1" "100" "199"] feature_200_300 ["bc1"] false "#"
    = Ok (SparseT {| lil_shape := (1, 1)%nat; lil_rows := [[]] |}).
Proof.
  intros Hread Hchrom. split; [|repeat split; vm_compute; reflexivity].
  destruct (count_dense_totals [line] [f] [fr_barcode fr] comment [fr] Hread
              (single_feature_sorted f) (single_fragment_sorted [f] fr))
    as (m & Hret & Htotal).
  specialize (Htotal 0%nat f eq_refl).
  unfold feature_total in Htotal. cbn [sum_rows length cell] in Htotal.
  rewrite Z.add_0_l in Htotal.
  assert (dense_cell m 0 0
          = if (f_start f <=? fr_stop fr) && (fr_start fr <=? f_stop f)
            then 1 else 0) as Hcell.
  { rewrite Htotal. unfold overlapping, hits, overlaps.
    rewrite filter_cons, filter_nil. rewrite Hchrom, String.eqb_refl. simpl.
    destruct ((f_start f <=? fr_stop fr) && (fr_start fr <=? f_stop f)).
    - rewrite decide_True; [done|]. split; [by left|done].
    - rewrite decide_False; [done|]. by intros [_ ?]. }
  pose proof (count_run_dense_lil [line] [f] [fr_barcode fr] comment) as Hdl.
  unfold count. rewrite Hret in *. destruct fast; simpl.
  - by exists (DenseT m).
  - destruct (returned (count_run (A := lil) _ _ _ _)) as [l|]; simpl in Hdl; [|done].
    exists (SparseT l). split; [done|]. simpl.
    by rewrite (dense_lil_cell m l 0 0 Hdl).
Qed.

Lemma closed_interval_overlap_witness :
  read_fragments "#" [bc1_line "chr1" "100" "200"]
  = Some [mkFragment "chr1" 100 200 "bc1"]
  ∧ fr_chrom (mkFragment "chr1" 100 200 "bc1") = f_chrom (mkFeature "chr1" 200 300)
  ∧ ∃ t, count [bc1_line "chr1" "100" "200"] [mkFeature "chr1" 200 300]
           [fr_barcode (mkFragment "chr1" 100 200 "bc1")] true "#" = Ok t
       ∧ cell t 0 0 = 1.
Proof.
  assert (read_fragments "#" [bc1_line "chr1" "100" "200"]
          = Some [mkFragment "chr1" 100 200 "bc1"]) as Hread
    by (vm_compute; reflexivity).
  split; [exact Hread|]. split; [reflexivity|].
  exact (proj1 (closed_interval_overlap (bc1_line "chr1" "100" "200")
                  (mkFragment "chr1" 100 200 "bc1") (mkFeature "chr1" 200 300)
                  true "#" Hread eq_refl)).
Defined.

(** C9, as the code has it. A fragment that overlaps several consecutive
    features gets one hit for each through the follow-up loop, which leaves
    the cursor where it is.  Against [100,150], [140,160], [155,300] the
    fragment [145, 145] increments the first two columns once and not the
    third, which starts after it; the fragment [145, 155] increments the
    three columns once, and no column of further features. *)
Theorem follow_up_hits_adjacent (features : list feature)
    (chrom_mapping bc_mapping : gmap string nat) (bc : string)
    (chrom_int : nat) (start stop : Z) (idx : nat) (mtx : dense) :
  ctl_cursor (overlap features chrom_mapping bc_mapping bc chrom_int
                start stop idx mtx) = idx
  ∧ count [bc1_line "chr1" "145" "145"] features_adjacent ["bc1"] true "#"
    = Ok (DenseT [[1; 1; 0]])
  ∧ count [bc1_line "chr1" "145" "145"] features_adjacent ["bc1"] false "#"
    = Ok (SparseT {| lil_shape := (1, 3)%nat;
                     lil_rows := [[(0%nat, 1); (1%nat, 1)]] |})
  ∧ count_run (A := dense) [bc1_line "chr1" "145" "155"] features_adjacent
      ["bc1"] "#"
    = Finished {| check_for_comments := false; use_strip := Some true |}
        (mkScan 0%nat [[1; 1; 1]])
  ∧ count [bc1_line "chr1" "145" "155"] features_adjacent ["bc1"] true "#"
    = Ok (DenseT [[1; 1; 1]])
  ∧ count [bc1_line "chr1" "145" "155"] features_adjacent ["bc1"] false "#"
    = Ok (SparseT {| lil_shape := (1, 3)%nat;
                     lil_rows := [[(0%nat, 1); (1%nat, 1); (2%nat, 1)]] |})
  ∧ count [bc1_line "chr1" "145" "155"] features_adjacent_more ["bc0"; "bc1"]
      true "#"
    = Ok (DenseT [[0; 0; 0; 0; 0]; [1; 1; 1; 0; 0]]).
Proof.
  split; [apply overlap_cursor|].
  repeat split; vm_compute; reflexivity.
Qed.

(** C9, as stated, fails: the fragment [145, 145] ends before the feature
    [155, 300] starts, and the third column stays at zero. *)
Lemma fragment_145_misses_third :
  count [bc1_line "chr1" "145" "145"] features_adjacent ["bc1"] true "#"
  ≠ Ok (DenseT [[1; 1; 1]])
  ∧ (∃ t, count [bc1_line "chr1" "145" "145"] features_adjacent ["bc1"] true "#"
          = Ok t ∧ cell t 0 2 = 0)
  ∧ overlaps (mkFragment "chr1" 145 145 "bc1") (mkFeature "chr1" 155 300) = false.
Proof.
  split; [|split].
  - vm_compute. discriminate.
  - exists (DenseT [[1; 1; 0]]). split; vm_compute; reflexivity.
  - reflexivity.
Qed.

(** ** Degenerate inputs *)

Lemma scan_splits_discard {A : Type} `{Accumulator A} features chrom_mapping
    bc_mapping valid_bcs_set (sc : scan A) splits :
  forallb (λ ls : list string, (4 <=? length ls)%nat) splits = true →
  chrom_mapping = ∅ ∨ valid_bcs_set = ∅ →
  scan_splits features chrom_mapping bc_mapping valid_bcs_set sc splits = Next sc.
Proof.
  intros Hall Hempty. induction splits as [|ls splits IH]; [done|].
  cbn [forallb] in Hall. cbn [scan_splits].
  apply andb_true_iff in Hall as [Hls Hall]. apply Nat.leb_le in Hls.
  assert (process features chrom_mapping bc_mapping valid_bcs_set ls sc = Next sc)
    as ->; [|by apply IH].
  unfold process.
  destruct (lookup_lt_is_Some_2 ls 3%nat ltac:(lia)) as [bc ->].
  destruct (lookup_lt_is_Some_2 ls 0%nat ltac:(lia)) as [chrom ->].
  destruct Hempty as [->| ->].
  - rewrite lookup_empty. by destruct (bool_decide _).
  - rewrite bool_decide_eq_false_2; [done|]. apply not_elem_of_empty.
Qed.

(** C6. With no feature or with no valid barcode, and lines of at least four
    fields, [count] raises nothing and returns the table it started with:
    one row for each barcode, one column for each feature, zero in all
    cells. *)
Theorem degenerate_inputs_zero_table (fragments : list string)
    (features : list feature) (valid_bcs : list string) (fast : bool)
    (comment : string) :
  forallb (λ ls : list string, (4 <=? length ls)%nat)
          (line_splits comment reader0 fragments) = true →
  features = [] ∨ valid_bcs = [] →
  count fragments features valid_bcs fast comment
  = Ok (empty_table fast (length valid_bcs) (length features))
  ∧ n_rows (empty_table fast (length valid_bcs) (length features))
    = length valid_bcs
  ∧ (∀ r c, cell (empty_table fast (length valid_bcs) (length features)) r c = 0)
  ∧ (features = [] →
     empty_table fast (length valid_bcs) (length features)
     = if fast then DenseT (replicate (length valid_bcs) [])
       else SparseT {| lil_shape := (length valid_bcs, 0%nat);
                       lil_rows := replicate (length valid_bcs) [] |})
  ∧ (valid_bcs = [] →
     empty_table fast (length valid_bcs) (length features)
     = if fast then DenseT []
       else SparseT {| lil_shape := (0%nat, length features); lil_rows := [] |}).
Proof.
  intros Hlines Hdeg. split; [|split; [|split; [|split]]].
  - assert (chrom_mapping_of features = ∅ ∨ (list_to_set valid_bcs : gset string) = ∅)
      as Hempty.
    { destruct Hdeg as [-> | ->]; [by left|by right]. }
    unfold count, empty_table.
    destruct fast; unfold count_run;
      rewrite <- ctl_returned_outcome, run_scan_splits;
      rewrite scan_splits_discard by done; reflexivity.
  - destruct fast; simpl; [|done]. unfold dense_new. by rewrite length_replicate.
  - intros r c. pose proof (dense_trace_new (length valid_bcs) (length features))
      as (_ & _ & _ & Hcell).
    destruct fast; simpl.
    + rewrite Hcell. reflexivity.
    + rewrite (dense_lil_cell _ _ r c (dense_lil_new _ _)), Hcell. reflexivity.
  - intros ->. by destruct fast.
  - intros ->. by destruct fast.
Qed.

Lemma degenerate_inputs_zero_table_witness :
  forallb (λ ls : list string, (4 <=? length ls)%nat)
          (line_splits "#" reader0 demo_fragments) = true
  ∧ ([] = @nil feature ∨ ["bc1"; "bc2"] = [])
  ∧ count demo_fragments [] ["bc1"; "bc2"] false "#"
    = Ok (empty_table false 2 0).
Proof.
  assert (forallb (λ ls : list string, (4 <=? length ls)%nat)
            (line_splits "#" reader0 demo_fragments) = true) as Hlines
    by (vm_compute; reflexivity).
  split; [exact Hlines|]. split; [left; reflexivity|].
  exact (proj1 (degenerate_inputs_zero_table demo_fragments [] ["bc1"; "bc2"]
                  false "#" Hlines (or_introl eq_refl))).
Defined.

(** ** A barcode given twice *)






(** ** Fields of a line, stripped or not *)

Lemma split_tab_cons a s :
  length (PyStr.split_tab (String a s))
  = ((if Ascii.eqb a PyStr.tab then 1 else 0) + length (PyStr.split_tab s))%nat.
Proof.
  simpl. destruct (Ascii.eqb a PyStr.tab); simpl; [done|].
  destruct (PyStr.split_tab s) eqn:Hs; [|done].
  exfalso. by destruct s; simpl in Hs; repeat case_match.
Qed.

Lemma split_tab_pos s : (1 <= length (PyStr.split_tab s))%nat.
Proof.
  destruct s as [|a s]; [simpl; lia|].
  rewrite split_tab_cons. induction s as [|b s IH]; [simpl; lia|].
  rewrite split_tab_cons. destruct (Ascii.eqb a PyStr.tab), (Ascii.eqb b PyStr.tab);
    simpl in *; lia.
Qed.

Lemma lstrip_fields s :
  (length (PyStr.split_tab (PyStr.lstrip s)) <= length (PyStr.split_tab s))%nat.
Proof.
  induction s as [|a s IH]; [done|].
  cbn [PyStr.lstrip]. destruct (PyStr.is_space a); [|done].
  rewrite split_tab_cons. lia.
Qed.

Lemma rstrip_fields s :
  (length (PyStr.split_tab (PyStr.rstrip s)) <= length (PyStr.split_tab s))%nat.
Proof.
  induction s as [|a s IH]; [done|].
  cbn [PyStr.rstrip]. destruct (PyStr.is_space a && PyStr.is_empty (PyStr.rstrip s)).
  - pose proof (split_tab_pos (String a s)). simpl in *. lia.
  - rewrite !split_tab_cons. lia.
Qed.

Lemma strip_fields s :
  (length (PyStr.split_tab (PyStr.strip s)) <= length (PyStr.split_tab s))%nat.
Proof.
  unfold PyStr.strip. etrans; [apply rstrip_fields|apply lstrip_fields].
Qed.

(** ** What the reader yields *)

Lemma read_line_data comment rd l :
  check_for_comments rd = false ∨ PyStr.startswith l comment = false →
  ∃ rd' ls, read_line comment rd l = (rd', Split ls)
    ∧ check_for_comments rd' = false
    ∧ (length ls <= length (PyStr.split_tab l))%nat.
Proof.
  intros Hdata. unfold read_line.
  assert (check_for_comments rd && PyStr.startswith l comment = false) as ->.
  { destruct Hdata as [-> | ->]; [done|apply andb_false_r]. }
  destruct (use_strip rd) as [[|]|]; eexists _, _; (split; [done|]);
    (split; [done|]); try apply strip_fields. done.
Qed.

Lemma line_splits_skip_comments comment rd lines :
  check_for_comments rd = true →
  line_splits comment rd lines
  = line_splits comment rd (drop_comments comment lines).
Proof.
  intros Hcheck. induction lines as [|l lines IH]; [done|].
  cbn [drop_comments]. destruct (PyStr.startswith l comment) eqn:Hl; [|done].
  cbn [line_splits]. unfold read_line. rewrite Hcheck, Hl. simpl. apply IH.
Qed.

Lemma drop_comments_head comment lines l rest :
  drop_comments comment lines = l :: rest → PyStr.startswith l comment = false.
Proof.
  induction lines as [|l' lines IH]; [done|]. cbn [drop_comments].
  destruct (PyStr.startswith l' comment) eqn:Hl; [done|].
  intros Heq. by inversion Heq; subst.
Qed.

Lemma line_splits_short comment rd lines l :
  check_for_comments rd = false →
  l ∈ lines → (length (PyStr.split_tab l) < 4)%nat →
  ∃ ls, ls ∈ line_splits comment rd lines ∧ (length ls < 4)%nat.
Proof.
  intros Hcheck Hin Hshort. revert rd Hcheck.
  induction lines as [|l' lines IH]; intros rd Hcheck.
  - by apply elem_of_nil in Hin.
  - destruct (read_line_data comment rd l' (or_introl Hcheck))
      as (rd' & ls & Hread & Hcheck' & Hlen).
    cbn [line_splits]. rewrite Hread.
    apply elem_of_cons in Hin as [<-|Hin].
    + exists ls. split; [by left|lia].
    + destruct (IH Hin rd' Hcheck') as (ls' & Hls' & Hlen').
      exists ls'. split; [by right|done].
Qed.

Lemma line_splits_short_data comment lines l :
  l ∈ drop_comments comment lines → (length (PyStr.split_tab l) < 4)%nat →
  ∃ ls, ls ∈ line_splits comment reader0 lines ∧ (length ls < 4)%nat.
Proof.
  intros Hin Hshort. rewrite line_splits_skip_comments by done.
  destruct (drop_comments comment lines) as [|l0 rest] eqn:Hdrop.
  - by apply elem_of_nil in Hin.
  - apply drop_comments_head in Hdrop.
    destruct (read_line_data comment reader0 l0 (or_intror Hdrop))
      as (rd' & ls & Hread & Hcheck' & Hlen).
    cbn [line_splits]. rewrite Hread.
    apply elem_of_cons in Hin as [<-|Hin].
    + exists ls. split; [by left|lia].
    + destruct (line_splits_short comment rd' rest l Hcheck' Hin Hshort)
        as (ls' & Hls' & Hlen').
      exists ls'. split; [by right|done].
Qed.

Lemma get_barcodes_loop_splits comment rd barcodes lines :
  get_barcodes_loop comment rd barcodes lines
  = barcodes_of_splits barcodes (line_splits comment rd lines).
Proof.
  revert rd barcodes. induction lines as [|l lines IH]; intros rd barcodes; [done|].
  cbn [get_barcodes_loop line_splits].
  destruct (read_line comment rd l) as [rd' [|ls]]; [apply IH|].
  cbn [barcodes_of_splits]. destruct (ls !! 3%nat); [apply IH|done].
Qed.

Lemma barcodes_of_splits_short barcodes splits ls :
  ls ∈ splits → (length ls < 4)%nat →
  barcodes_of_splits barcodes splits = Err IndexError.
Proof.
  intros Hin Hshort. revert barcodes.
  induction splits as [|ls' splits IH]; intros barcodes.
  - by apply elem_of_nil in Hin.
  - cbn [barcodes_of_splits]. destruct (ls' !! 3%nat) as [bc|] eqn:Hbc; [|done].
    apply elem_of_cons in Hin as [->|Hin]; [|by apply IH].
    apply lookup_lt_Some in Hbc. lia.
Qed.

Lemma count_run_outcome_dense_lil fragments features valid_bcs comment :
  outcome_rel dense_lil
    (count_run (A := dense) fragments features valid_bcs comment)
    (count_run (A := lil) fragments features valid_bcs comment).
Proof.
  unfold count_run.
  apply run_sim; [intros; by apply dense_lil_incr|done|apply dense_lil_new].
Qed.

Lemma run_short_line {A : Type} `{Accumulator A} features chrom_mapping
    bc_mapping valid_bcs_set comment rd (sc : scan A) l post :
  check_for_comments rd = false ∨ PyStr.startswith l comment = false →
  (length (PyStr.split_tab l) < 4)%nat →
  returned (run features chrom_mapping bc_mapping valid_bcs_set comment rd sc
              (l :: post)) = Err IndexError.
Proof.
  intros Hdata Hshort.
  destruct (read_line_data comment rd l Hdata) as (rd' & ls & Hread & _ & Hlen).
  cbn [run]. rewrite Hread. unfold process.
  rewrite (lookup_ge_None_2 ls 3%nat) by lia. done.
Qed.

(** C7, as the code has it. A line of fewer than four tab-separated fields
    that the loop reads as data makes [get_barcodes] raise Python's
    IndexError, and [count] too when its scan gets as far as that line;
    no exception of another class is raised for such a line. *)
Theorem short_line_raises_index_error (comment : string)
    (lines pre post : list string) (l : string) (features : list feature)
    (valid_bcs : list string) (fast : bool) (rd : reader) (sc : scan dense) :
  (length (PyStr.split_tab l) < 4)%nat →
  (l ∈ drop_comments comment lines →
   get_barcodes lines comment = Err IndexError)
  ∧ (count_run (A := dense) pre features valid_bcs comment = Finished rd sc →
     check_for_comments rd = false ∨ PyStr.startswith l comment = false →
     count (pre ++ l :: post) features valid_bcs fast comment = Err IndexError).
Proof.
  intros Hshort. split.
  - intros Hin. unfold get_barcodes. rewrite get_barcodes_loop_splits.
    destruct (line_splits_short_data comment lines l Hin Hshort) as (ls & Hls & Hlen).
    by eapply barcodes_of_splits_short.
  - intros Hpre Hdata. unfold count.
    pose proof (count_run_outcome_dense_lil pre features valid_bcs comment) as Hrel.
    rewrite Hpre in Hrel.
    destruct (count_run (A := lil) pre features valid_bcs comment)
      as [rd' sc'|sc'|e i] eqn:Hpre'; simpl in Hrel; try done.
    destruct Hrel as (<- & _ & _).
    unfold count_run in *. rewrite !run_app, Hpre, Hpre'.
    rewrite !run_short_line by done. by destruct fast.
Qed.

Lemma short_line_raises_index_error_witness :
  (length (PyStr.split_tab short_line) < 4)%nat
  ∧ short_line ∈ drop_comments "#" ["# header" +:+ nl; short_line]
  ∧ get_barcodes ["# header" +:+ nl; short_line] "#" = Err IndexError
  ∧ count_run (A := dense) [bc1_line "chr1" "100" "200"] feature_200_300
      ["bc1"] "#"
    = Finished {| check_for_comments := false; use_strip := Some true |}
        (mkScan 0%nat [[1]])
  ∧ count ([bc1_line "chr1" "100" "200"] ++ short_line :: []) feature_200_300
      ["bc1"] false "#" = Err IndexError.
Proof.
  assert (length (PyStr.split_tab short_line) < 4)%nat as Hshort
    by (vm_compute; lia).
  assert (short_line ∈ drop_comments "#" ["# header" +:+ nl; short_line]) as Hin
    by (vm_compute; left).
  assert (count_run (A := dense) [bc1_line "chr1" "100" "200"] feature_200_300
            ["bc1"] "#"
          = Finished {| check_for_comments := false; use_strip := Some true |}
              (mkScan 0%nat [[1]])) as Hpre
    by (vm_compute; reflexivity).
  split; [exact Hshort|]. split; [exact Hin|].
  split; [exact (proj1 (short_line_raises_index_error "#"
                          ["# header" +:+ nl; short_line]
                          [bc1_line "chr1" "100" "200"] [] short_line
                          feature_200_300 ["bc1"] false
                          {| check_for_comments := false; use_strip := Some true |}
                          (mkScan 0%nat [[1]]) Hshort) Hin)|].
  split; [exact Hpre|].
  exact (proj2 (short_line_raises_index_error "#"
                  ["# header" +:+ nl; short_line]
                  [bc1_line "chr1" "100" "200"] [] short_line
                  feature_200_300 ["bc1"] false
                          {| check_for_comments := false; use_strip := Some true |}
                          (mkScan 0%nat [[1]]) Hshort) Hpre
               (or_introl eq_refl)).
Defined.

(** C7, as stated, fails: the code has no MalformedRecord; a short line
    raises the IndexError of [line_split[3]]. *)
Lemma short_line_not_malformed_record :
  ¬ (∀ (lines : list string) (comment : string) (features : list feature)
       (valid_bcs : list string) (fast : bool) (l : string),
       l ∈ lines → PyStr.startswith l comment = false →
       (length (PyStr.split_tab l) < 4)%nat →
       get_barcodes lines comment = Err (Custom "MalformedRecord")
       ∧ count lines features valid_bcs fast comment
         = Err (Custom "MalformedRecord")).
Proof.
  intros Hclaim.
  destruct (Hclaim [short_line] "#" feature_200_300 ["bc1"] true short_line)
    as [Hget _].
  - by left.
  - vm_compute. reflexivity.
  - vm_compute. lia.
  - vm_compute in Hget. discriminate.
Qed.

(** ** Stripping every line, or deciding once *)

Section FirstFields.
Context {A : Type} `{Accumulator A}.
Variable features : list feature.
Variable chrom_mapping : gmap string nat.
Variable bc_mapping : gmap string nat.
Variable valid_bcs_set : gset string.

Lemma take4_lookup (ls ls' : list string) k :
  take 4 ls = take 4 ls' → (k < 4)%nat → ls !! k = ls' !! k.
Proof.
  intros Heq Hk.
  rewrite <- (lookup_take_lt ls 4 k Hk), <- (lookup_take_lt ls' 4 k Hk).
  by rewrite Heq.
Qed.

(** The loop body reads the first four fields and no other. *)
Lemma process_take4 ls ls' (sc : scan A) :
  take 4 ls = take 4 ls' →
  process features chrom_mapping bc_mapping valid_bcs_set ls sc
  = process features chrom_mapping bc_mapping valid_bcs_set ls' sc.
Proof.
  intros Heq. unfold process, intervals.
  rewrite (take4_lookup ls ls' 0 Heq), (take4_lookup ls ls' 1 Heq),
    (take4_lookup ls ls' 2 Heq), (take4_lookup ls ls' 3 Heq) by lia.
  done.
Qed.

Lemma scan_splits_take4 splits splits' (sc : scan A) :
  map (take 4) splits = map (take 4) splits' →
  scan_splits features chrom_mapping bc_mapping valid_bcs_set sc splits
  = scan_splits features chrom_mapping bc_mapping valid_bcs_set sc splits'.
Proof.
  revert splits' sc. induction splits as [|ls splits IH];
    intros [|ls' splits'] sc Heq; try done.
  inversion Heq as [[Hls Hrest]]. cbn [scan_splits].
  rewrite (process_take4 ls ls' sc Hls).
  destruct (process _ _ _ _ ls' sc); [by apply IH|done|done].
Qed.

End FirstFields.

Lemma barcodes_of_splits_take4 barcodes splits splits' :
  map (take 4) splits = map (take 4) splits' →
  barcodes_of_splits barcodes splits = barcodes_of_splits barcodes splits'.
Proof.
  revert splits' barcodes. induction splits as [|ls splits IH];
    intros [|ls' splits'] barcodes Heq; try done.
  inversion Heq as [[Hls Hrest]]. cbn [barcodes_of_splits].
  rewrite (take4_lookup ls ls' 3 Hls) by lia.
  destruct (ls' !! 3%nat); [by apply IH|done].
Qed.






(** * Further properties of the code *)

(** ** The two dictionaries *)

Lemma bc_mapping_dom valid_bcs bc :
  is_Some (bc_mapping_of valid_bcs !! bc) ↔ bc ∈ valid_bcs.
Proof.
  split.
  - intros [row Hrow]. apply bc_mapping_last in Hrow as [Hrow _].
    by eapply list_elem_of_lookup_2.
  - intros Hin. destruct (bc_mapping_valid valid_bcs bc Hin) as (row & Hrow & _).
    eauto.
Qed.

(** X1. The dictionary of line 145 has exactly the barcodes of [valid_bcs]
    as keys, and for a list without repetition it maps every barcode to its
    position and back. *)
Theorem bc_mapping_positions (valid_bcs : list string) (bc : string) (i : nat) :
  NoDup valid_bcs →
  (is_Some (bc_mapping_of valid_bcs !! bc) ↔ bc ∈ valid_bcs)
  ∧ (bc_mapping_of valid_bcs !! bc = Some i ↔ valid_bcs !! i = Some bc).
Proof.
  intros Hnd. split; [apply bc_mapping_dom|].
  rewrite bc_mapping_last. split; [by intros [? _]|].
  intros Hi. split; [done|]. intros k Hk Hbc.
  pose proof (NoDup_lookup _ _ _ _ Hnd Hi Hbc). lia.
Qed.

Lemma bc_mapping_positions_witness :
  NoDup ["bc1"; "bc2"; "bc3"]
  ∧ (bc_mapping_of ["bc1"; "bc2"; "bc3"] !! "bc2" = Some 1%nat
     ↔ ["bc1"; "bc2"; "bc3"] !! 1%nat = Some "bc2").
Proof.
  assert (NoDup ["bc1"; "bc2"; "bc3"]) as Hnd
    by (apply (bool_decide_unpack (NoDup ["bc1"; "bc2"; "bc3"])); vm_compute; exact I).
  split; [exact Hnd|].
  exact (proj2 (bc_mapping_positions ["bc1"; "bc2"; "bc3"] "bc2" 1 Hnd)).
Defined.

Lemma build_chrom_mapping_keeps chroms m c k r :
  m !! k = Some r → build_chrom_mapping chroms m c !! k = Some r.
Proof.
  revert m c. induction chroms as [|chrom chroms IH]; intros m c Hk; simpl; [done|].
  destruct (m !! chrom) eqn:Hm; [by apply IH|].
  apply IH. rewrite lookup_insert_ne; [done|]. congruence.
Qed.

Lemma build_chrom_mapping_fresh chroms m c k r :
  (∀ k' r', m !! k' = Some r' → (r' < c)%nat) →
  m !! k = None → build_chrom_mapping chroms m c !! k = Some r → (c <= r)%nat.
Proof.
  revert m c. induction chroms as [|chrom chroms IH]; intros m c Hlt Hk Hr; simpl in Hr.
  - congruence.
  - destruct (m !! chrom) eqn:Hm; [by eapply IH|].
    destruct (decide (chrom = k)) as [->|Hne].
    + rewrite (build_chrom_mapping_keeps chroms (<[k:=c]> m) (S c) k c) in Hr
        by apply lookup_insert_eq.
      inversion Hr. lia.
    + enough (S c <= r)%nat by lia. eapply (IH (<[chrom:=c]> m)); eauto.
      * intros k' r'. rewrite lookup_insert. case_decide; [intros [= <-]; lia|].
        intros Hk'. apply Hlt in Hk'. lia.
      * by rewrite lookup_insert_ne.
Qed.

Lemma build_chrom_mapping_dense chroms m c :
  (∀ r, (r < c)%nat ↔ ∃ k, m !! k = Some r) →
  ∃ c', ∀ r, (r < c')%nat ↔ ∃ k, build_chrom_mapping chroms m c !! k = Some r.
Proof.
  revert m c. induction chroms as [|chrom chroms IH]; intros m c Hd; simpl.
  - by exists c.
  - destruct (m !! chrom) eqn:Hm; [by apply IH|].
    apply IH. intros r. split.
    + intros Hr. destruct (decide (r = c)) as [->|Hne].
      * exists chrom. apply lookup_insert_eq.
      * destruct (proj1 (Hd r) ltac:(lia)) as [k Hk]. exists k.
        rewrite lookup_insert_ne; [done|]. congruence.
    + intros [k Hk]. rewrite lookup_insert in Hk. case_decide.
      * inversion Hk. lia.
      * enough (r < c)%nat by lia. apply Hd. eauto.
Qed.

Lemma build_chrom_mapping_has chroms m c k :
  k ∈ chroms → is_Some (build_chrom_mapping chroms m c !! k).
Proof.
  revert m c. induction chroms as [|chrom chroms IH]; intros m c Hin; simpl.
  - by apply elem_of_nil in Hin.
  - destruct (decide (k = chrom)) as [->|Hne].
    + destruct (m !! chrom) as [r|] eqn:Hm.
      * exists r. by apply build_chrom_mapping_keeps.
      * exists c. apply build_chrom_mapping_keeps, lookup_insert_eq.
    + apply elem_of_cons in Hin as [?|Hin]; [done|].
      destruct (m !! chrom); by apply IH.
Qed.

Lemma build_chrom_mapping_order chroms m c i j c1 c2 :
  (∀ k r, m !! k = Some r → (r < c)%nat) →
  chroms !! i = Some c1 → chroms !! j = Some c2 → (i < j)%nat →
  m !! c2 = None → c2 ∉ take j chroms →
  ∃ r1 r2, build_chrom_mapping chroms m c !! c1 = Some r1
           ∧ build_chrom_mapping chroms m c !! c2 = Some r2 ∧ (r1 < r2)%nat.
Proof.
  revert m c i j. induction chroms as [|chrom chroms IH];
    intros m c i j Hlt Hi Hj Hij Hc2 Hfirst; [done|].
  destruct j as [|j]; [lia|]. simpl in Hj, Hfirst.
  apply not_elem_of_cons in Hfirst as [Hne Hfirst].
  cbn [build_chrom_mapping].
  set (m1 := match m !! chrom with None => <[chrom:=c]> m | Some _ => m end).
  set (c' := match m !! chrom with None => S c | Some _ => c end).
  assert (build_chrom_mapping chroms m1 c'
          = match m !! chrom with
            | None => build_chrom_mapping chroms (<[chrom:=c]> m) (S c)
            | Some _ => build_chrom_mapping chroms m c
            end) as <- by (unfold m1, c'; by destruct (m !! chrom)).
  assert (∀ k r, m1 !! k = Some r → (r < c')%nat) as Hlt1.
  { unfold m1, c'. destruct (m !! chrom) eqn:Hm; [done|]. intros k r.
    rewrite lookup_insert. case_decide; [intros [= <-]; lia|].
    intros Hk. apply Hlt in Hk. lia. }
  assert (m1 !! c2 = None) as Hc2'.
  { unfold m1. destruct (m !! chrom); [done|]. by rewrite lookup_insert_ne. }
  destruct i as [|i]; simpl in Hi.
  - inversion Hi; subst c1.
    assert (∃ r1, m1 !! chrom = Some r1) as [r1 Hr1].
    { unfold m1. destruct (m !! chrom) eqn:Hm; [eauto|].
      exists c. apply lookup_insert_eq. }
    assert (is_Some (build_chrom_mapping chroms m1 c' !! c2)) as [r2 Hr2].
    { apply build_chrom_mapping_has. by eapply list_elem_of_lookup_2. }
    exists r1, r2. split; [by apply build_chrom_mapping_keeps|]. split; [done|].
    pose proof (Hlt1 _ _ Hr1).
    pose proof (build_chrom_mapping_fresh chroms m1 c' c2 r2 Hlt1 Hc2' Hr2). lia.
  - apply (IH m1 c' i j); auto. lia.
Qed.

(** X2. The ranks of lines 161-165: the chromosomes with a rank are those
    of the features, different chromosomes have different ranks, the ranks
    leave no gap from 0 on, and a chromosome that first appears later in
    the feature list has the higher rank. *)
Theorem chrom_ranks_first_appearance (features : list feature) :
  (∀ c, is_Some (chrom_mapping_of features !! c)
        ↔ ∃ f, f ∈ features ∧ f_chrom f = c)
  ∧ (∀ c1 c2 r, chrom_mapping_of features !! c1 = Some r →
                chrom_mapping_of features !! c2 = Some r → c1 = c2)
  ∧ (∀ c r r', chrom_mapping_of features !! c = Some r → (r' < r)%nat →
               ∃ c', chrom_mapping_of features !! c' = Some r')
  ∧ (∀ i j f g, features !! i = Some f → features !! j = Some g → (i < j)%nat →
       f_chrom g ∉ f_chrom <$> take j features →
       ∃ r1 r2, chrom_mapping_of features !! f_chrom f = Some r1
                ∧ chrom_mapping_of features !! f_chrom g = Some r2
                ∧ (r1 < r2)%nat).
Proof.
  split; [apply chrom_mapping_dom|]. split; [apply chrom_mapping_inj|]. split.
  - intros c r r' Hc Hlt. unfold chrom_mapping_of in *.
    destruct (build_chrom_mapping_dense (map f_chrom features) ∅ 0) as [c' Hd].
    { intros r0. split; [lia|]. intros [k Hk]. by rewrite lookup_empty in Hk. }
    apply Hd. assert (r < c')%nat by (apply Hd; eauto). lia.
  - intros i j f g Hi Hj Hij Hfirst. unfold chrom_mapping_of.
    apply (build_chrom_mapping_order (map f_chrom features) ∅ 0 i j).
    + intros k r. by rewrite lookup_empty.
    + change (map f_chrom features) with (f_chrom <$> features).
      by rewrite list_lookup_fmap, Hi.
    + change (map f_chrom features) with (f_chrom <$> features).
      by rewrite list_lookup_fmap, Hj.
    + done.
    + apply lookup_empty.
    + change (map f_chrom features) with (f_chrom <$> features).
      by rewrite <- fmap_take.
Qed.

(** ** get_barcodes *)

Lemma barcodes_of_splits_spec barcodes splits :
  match barcodes_of_splits barcodes splits with
  | Ok found =>
      Forall (λ ls : list string, (4 <= length ls)%nat) splits
      ∧ ∀ bc, bc ∈ found
              ↔ bc ∈ barcodes ∨ ∃ ls, ls ∈ splits ∧ ls !! 3%nat = Some bc
  | Err e => e = IndexError ∧ ∃ ls, ls ∈ splits ∧ (length ls < 4)%nat
  end.
Proof.
  revert barcodes. induction splits as [|ls splits IH]; intros barcodes; simpl.
  - split; [done|]. intros bc. split; [by left|].
    intros [?|(ls & Hls & _)]; [done|]. by apply elem_of_nil in Hls.
  - destruct (ls !! 3%nat) as [bc0|] eqn:Hbc.
    + specialize (IH ({[bc0]} ∪ barcodes)).
      destruct (barcodes_of_splits _ splits) as [found|e].
      * destruct IH as [Hall Hfound]. split.
        -- apply Forall_cons. split; [|done]. apply lookup_lt_Some in Hbc. lia.
        -- intros bc. rewrite Hfound, elem_of_union, elem_of_singleton. split.
           ++ intros [[->|?]|(ls' & Hls' & Hbc')]; [right|by left|right].
              ** exists ls. split; [by left|done].
              ** exists ls'. split; [by right|done].
           ++ intros [?|(ls' & Hls' & Hbc')]; [left; by right|].
              apply elem_of_cons in Hls' as [->|Hls'].
              ** left. left. congruence.
              ** right. eauto.
      * destruct IH as [-> (ls' & Hls' & Hlen)]. split; [done|].
        exists ls'. split; [by right|done].
    + split; [done|]. exists ls. split; [by left|].
      apply lookup_ge_None in Hbc. lia.
Qed.

(** X3. [get_barcodes] returns exactly the fourth fields of the lines it
    reads, when all of these have four fields at least; otherwise it raises
    IndexError, and nothing else ever. *)
Theorem get_barcodes_fourth_fields (fragments : list string) (comment : string) :
  match get_barcodes fragments comment with
  | Ok barcodes =>
      Forall (λ ls : list string, (4 <= length ls)%nat)
             (line_splits comment reader0 fragments)
      ∧ ∀ bc, bc ∈ barcodes
              ↔ ∃ ls, ls ∈ line_splits comment reader0 fragments
                      ∧ ls !! 3%nat = Some bc
  | Err e =>
      e = IndexError
      ∧ ∃ ls, ls ∈ line_splits comment reader0 fragments ∧ (length ls < 4)%nat
  end.
Proof.
  unfold get_barcodes. rewrite get_barcodes_loop_splits.
  pose proof (barcodes_of_splits_spec ∅ (line_splits comment reader0 fragments))
    as Hspec.
  destruct (barcodes_of_splits _ _) as [found|e]; [|done].
  destruct Hspec as [Hall Hfound]. split; [done|].
  intros bc. rewrite Hfound. split; [|by right].
  intros [Hin|?]; [|done]. by apply not_elem_of_empty in Hin.
Qed.

(** ** Comment lines *)

Lemma line_splits_all comment rd lines :
  check_for_comments rd = false →
  length (line_splits comment rd lines) = length lines.
Proof.
  revert rd. induction lines as [|l lines IH]; intros rd Hcheck; [done|].
  destruct (read_line_data comment rd l (or_introl Hcheck))
    as (rd' & ls & Hread & Hcheck' & _).
  cbn [line_splits]. rewrite Hread. simpl. f_equal. by apply IH.
Qed.

(** X4. Only the comment lines at the head of the file are skipped:
    [get_barcodes] and [count] give the same on the file without them, and
    from the first line that does not start with the marker on, every line
    is read as a fragment, also one that starts with the marker. *)
Theorem only_leading_comments_skipped (fragments : list string)
    (features : list feature) (valid_bcs : list string) (fast : bool)
    (comment : string) :
  get_barcodes fragments comment
  = get_barcodes (drop_comments comment fragments) comment
  ∧ count fragments features valid_bcs fast comment
    = count (drop_comments comment fragments) features valid_bcs fast comment
  ∧ length (line_splits comment reader0 fragments)
    = length (drop_comments comment fragments).
Proof.
  assert (line_splits comment reader0 (drop_comments comment fragments)
          = line_splits comment reader0 fragments) as Hsame.
  { rewrite (line_splits_skip_comments comment reader0 fragments) by done.
    destruct (drop_comments comment fragments) as [|l rest] eqn:Hdrop; [done|].
    apply drop_comments_head in Hdrop. cbn [line_splits]. unfold read_line.
    simpl. by rewrite Hdrop. }
  split; [|split].
  - unfold get_barcodes. by rewrite !get_barcodes_loop_splits, Hsame.
  - unfold count, count_run.
    by rewrite <- !ctl_returned_outcome, !run_scan_splits, Hsame.
  - rewrite (line_splits_skip_comments comment reader0 fragments) by done.
    destruct (drop_comments comment fragments) as [|l rest] eqn:Hdrop; [done|].
    apply drop_comments_head in Hdrop.
    destruct (read_line_data comment reader0 l (or_intror Hdrop))
      as (rd' & ls & Hread & Hcheck' & _).
    cbn [line_splits]. rewrite Hread. simpl. f_equal.
    by apply line_splits_all.
Qed.

(** ** What the table keeps *)

Lemma dense_incr_cell m r c m' r' c' :
  dense_incr m r c = Some m' →
  dense_cell m' r' c'
  = dense_cell m r' c' + (if decide (r' = r ∧ c' = c) then 1 else 0).
Proof.
  unfold dense_incr. intros Hincr.
  destruct (m !! r) as [row|] eqn:Hr; [|done].
  destruct (row !! c) as [v|] eqn:Hc; [|done].
  inversion Hincr; subst m'. unfold dense_cell.
  assert (r < length m)%nat by (by eapply lookup_lt_Some).
  assert (c < length row)%nat by (by eapply lookup_lt_Some).
  destruct (decide (r' = r)) as [->|Hner].
  - rewrite list_lookup_insert_eq by done. rewrite Hr. simpl.
    destruct (decide (c' = c)) as [->|Hnec].
    + rewrite list_lookup_insert_eq by done. rewrite Hc. simpl.
      by rewrite decide_True.
    + rewrite list_lookup_insert_ne by done.
      rewrite decide_False by (intros [_ ?]; done). lia.
  - rewrite list_lookup_insert_ne by done.
    rewrite decide_False by (intros [? _]; done). lia.
Qed.

Lemma dense_shaped_incr n k (a b : dense) r c :
  dense_shaped n k a b →
  option_Forall2 (dense_shaped n k) (dense_incr a r c) (dense_incr b r c).
Proof.
  intros (-> & Hn & Hk). unfold dense_incr.
  destruct (b !! r) as [row|] eqn:Hr; [|constructor].
  destruct (row !! c) as [v|]; constructor.
  split; [done|]. split; [by rewrite length_insert|].
  apply Forall_insert; [done|]. rewrite length_insert.
  eapply (proj1 (Forall_lookup _ _)) in Hk; eauto.
Qed.

Lemma lil_shaped_incr n k (a b : lil) r c :
  lil_shaped n k a b →
  option_Forall2 (lil_shaped n k) (lil_incr a r c) (lil_incr b r c).
Proof.
  intros (-> & Hshape & Hrows). unfold lil_incr, lil_set.
  destruct (lil_get b r c) as [v|]; [|constructor].
  destruct (in_shape b r c); [|constructor].
  destruct (lil_rows b !! r) as [row|]; constructor.
  split; [done|]. split; [done|]. simpl. by rewrite length_insert.
Qed.

Lemma dense_above_incr m0 (a b : dense) r c :
  dense_above m0 a b →
  option_Forall2 (dense_above m0) (dense_incr a r c) (dense_incr b r c).
Proof.
  intros (-> & Habove).
  destruct (dense_incr b r c) as [b'|] eqn:Hincr; constructor.
  split; [done|]. intros r' c'.
  rewrite (dense_incr_cell b r c b' r' c' Hincr).
  specialize (Habove r' c'). case_decide; lia.
Qed.

Lemma dense_new_cell n k r c : dense_cell (dense_new n k) r c = 0.
Proof.
  pose proof (dense_trace_new n k) as (_ & _ & _ & Hcell). by rewrite Hcell.
Qed.

Lemma count_run_dense_shaped fragments features valid_bcs comment m :
  returned (count_run (A := dense) fragments features valid_bcs comment) = Ok m →
  length m = length valid_bcs
  ∧ Forall (λ row, length row = length features) m
  ∧ ∀ r c, 0 <= dense_cell m r c.
Proof.
  intros Hret.
  assert (dense_shaped (length valid_bcs) (length features)
            (dense_new (length valid_bcs) (length features))
            (dense_new (length valid_bcs) (length features))) as Hinit.
  { split; [done|]. unfold dense_new. split.
    - by rewrite length_replicate.
    - apply Forall_replicate. by rewrite length_replicate. }
  assert (dense_above (dense_new (length valid_bcs) (length features))
            (dense_new (length valid_bcs) (length features))
            (dense_new (length valid_bcs) (length features))) as Hinit'.
  { split; [done|]. intros r c. reflexivity. }
  pose proof (outcome_rel_returned _ _ _
                (run_sim features (chrom_mapping_of features)
                   (bc_mapping_of valid_bcs) (list_to_set valid_bcs)
                   (dense_shaped (length valid_bcs) (length features))
                   (λ a b _ r c _, dense_shaped_incr _ _ a b r c)
                   comment reader0
                   (mkScan 0%nat (acc_new (length valid_bcs) (length features)))
                   (mkScan 0%nat (acc_new (length valid_bcs) (length features)))
                   fragments eq_refl Hinit)) as Hshape.
  pose proof (outcome_rel_returned _ _ _
                (run_sim features (chrom_mapping_of features)
                   (bc_mapping_of valid_bcs) (list_to_set valid_bcs)
                   (dense_above (dense_new (length valid_bcs) (length features)))
                   (λ a b _ r c _, dense_above_incr _ a b r c)
                   comment reader0
                   (mkScan 0%nat (acc_new (length valid_bcs) (length features)))
                   (mkScan 0%nat (acc_new (length valid_bcs) (length features)))
                   fragments eq_refl Hinit')) as Habove.
  fold (count_run (A := dense) fragments features valid_bcs comment) in *.
  rewrite Hret in *. simpl in *.
  destruct Hshape as (_ & Hn & Hk). destruct Habove as (_ & Hab).
  split; [done|]. split; [done|]. intros r c.
  specialize (Hab r c). by rewrite dense_new_cell in Hab.
Qed.

Lemma count_run_lil_shaped fragments features valid_bcs comment l :
  returned (count_run (A := lil) fragments features valid_bcs comment) = Ok l →
  lil_shape l = (length valid_bcs, length features)
  ∧ length (lil_rows l) = length valid_bcs.
Proof.
  intros Hret.
  assert (lil_shaped (length valid_bcs) (length features)
            (lil_new (length valid_bcs) (length features))
            (lil_new (length valid_bcs) (length features))) as Hinit.
  { split; [done|]. split; [done|]. simpl. by rewrite length_replicate. }
  pose proof (outcome_rel_returned _ _ _
                (run_sim features (chrom_mapping_of features)
                   (bc_mapping_of valid_bcs) (list_to_set valid_bcs)
                   (lil_shaped (length valid_bcs) (length features))
                   (λ a b _ r c _, lil_shaped_incr _ _ a b r c)
                   comment reader0
                   (mkScan 0%nat (acc_new (length valid_bcs) (length features)))
                   (mkScan 0%nat (acc_new (length valid_bcs) (length features)))
                   fragments eq_refl Hinit)) as Hshape.
  fold (count_run (A := lil) fragments features valid_bcs comment) in *.
  rewrite Hret in *. simpl in *. by destruct Hshape as (_ & ? & ?).
Qed.

Lemma dense_get_shaped (m : dense) n k :
  length m = n →
  Forall (λ row, length row = k) m →
  (∀ r c, 0 <= dense_cell m r c) →
  (∀ r c, (r < n)%nat → (c < k)%nat → ∃ v, dense_get m r c = Some v ∧ 0 <= v)
  ∧ (∀ r c, (n <= r)%nat ∨ (k <= c)%nat → dense_get m r c = None).
Proof.
  intros Hn Hk Hpos. split.
  - intros r c Hr Hc. specialize (Hpos r c). unfold dense_cell in Hpos.
    unfold dense_get in *.
    destruct (lookup_lt_is_Some_2 m r ltac:(lia)) as [row Hrow].
    rewrite Hrow in *. simpl in *.
    assert (length row = k) as Hlen.
    { eapply (proj1 (Forall_lookup _ _)) in Hk; eauto. }
    destruct (lookup_lt_is_Some_2 row c ltac:(lia)) as [v Hv].
    rewrite Hv in *. by exists v.
  - intros r c Hout. unfold dense_get.
    destruct (m !! r) as [row|] eqn:Hrow; [|done]. simpl.
    assert (length row = k) as Hlen.
    { eapply (proj1 (Forall_lookup _ _)) in Hk; eauto. }
    apply lookup_lt_Some in Hrow. apply lookup_ge_None. lia.
Qed.

(** X5. A table that [count] returns has one row for each entry of
    [valid_bcs] and one column for each feature; reading a cell of this
    shape gives a number that is not below zero, and reading outside it
    fails. *)
Theorem count_table_shape (fragments : list string) (features : list feature)
    (valid_bcs : list string) (fast : bool) (comment : string) (t : table) :
  count fragments features valid_bcs fast comment = Ok t →
  n_rows t = length valid_bcs
  ∧ match t with
    | DenseT m => Forall (λ row, length row = length features) m
    | SparseT l =>
        lil_shape l = (length valid_bcs, length features)
        ∧ length (lil_rows l) = length valid_bcs
    end
  ∧ (∀ r c, (r < length valid_bcs)%nat → (c < length features)%nat →
            ∃ v, get t r c = Some v ∧ 0 <= v)
  ∧ (∀ r c, (length valid_bcs <= r)%nat ∨ (length features <= c)%nat →
            get t r c = None).
Proof.
  intros Hcount. unfold count in Hcount.
  pose proof (count_run_dense_lil fragments features valid_bcs comment) as Hdl.
  destruct fast.
  - destruct (returned (count_run (A := dense) _ _ _ _)) as [m|] eqn:Hret;
      [|done].
    inversion Hcount; subst t.
    destruct (count_run_dense_shaped _ _ _ _ m Hret) as (Hn & Hk & Hpos).
    split; [done|]. split; [done|].
    exact (dense_get_shaped m _ _ Hn Hk Hpos).
  - destruct (returned (count_run (A := lil) _ _ _ _)) as [l|] eqn:Hret;
      [|done].
    inversion Hcount; subst t.
    destruct (count_run_lil_shaped _ _ _ _ l Hret) as (Hshape & Hrows).
    destruct (returned (count_run (A := dense) _ _ _ _)) as [m|] eqn:Hretd;
      [|done].
    simpl in Hdl.
    destruct (count_run_dense_shaped _ _ _ _ m Hretd) as (Hn & Hk & Hpos).
    split; [simpl; by rewrite Hshape|]. split; [done|].
    destruct (dense_get_shaped m _ _ Hn Hk Hpos) as [Hin Hout].
    split; intros r c; simpl; rewrite <- (dense_lil_get m l r c Hdl); auto.
Qed.

Lemma count_table_shape_witness :
  let t := SparseT {| lil_shape := (2, 3)%nat;
                      lil_rows := [[(0%nat, 1); (1%nat, 1); (2%nat, 1)];
                                   [(1%nat, 1)]] |} in
  count demo_fragments demo_features ["bc1"; "bc2"] false "#" = Ok t
  ∧ n_rows t = length ["bc1"; "bc2"]
  ∧ (lil_shape {| lil_shape := (2, 3)%nat;
                  lil_rows := [[(0%nat, 1); (1%nat, 1); (2%nat, 1)];
                               [(1%nat, 1)]] |}
     = (length ["bc1"; "bc2"], length demo_features)
     ∧ length [[(0%nat, 1); (1%nat, 1); (2%nat, 1)]; [(1%nat, 1)]]
       = length ["bc1"; "bc2"])
  ∧ (∀ r c, (r < length ["bc1"; "bc2"])%nat → (c < length demo_features)%nat →
            ∃ v, get t r c = Some v ∧ 0 <= v)
  ∧ (∀ r c, (length ["bc1"; "bc2"] <= r)%nat ∨ (length demo_features <= c)%nat →
            get t r c = None).
Proof.
  assert (count demo_fragments demo_features ["bc1"; "bc2"] false "#"
          = Ok (SparseT {| lil_shape := (2, 3)%nat;
                           lil_rows := [[(0%nat, 1); (1%nat, 1); (2%nat, 1)];
                                        [(1%nat, 1)]] |})) as Hcount
    by (vm_compute; reflexivity).
  split; [exact Hcount|].
  exact (count_table_shape demo_fragments demo_features ["bc1"; "bc2"]
           false "#" _ Hcount).
Defined.

Lemma count_run_dense_grows pre rest features valid_bcs comment m m' :
  returned (count_run (A := dense) pre features valid_bcs comment) = Ok m →
  returned (count_run (A := dense) (pre ++ rest) features valid_bcs comment)
  = Ok m' →
  ∀ r c, dense_cell m r c <= dense_cell m' r c.
Proof.
  unfold count_run. rewrite run_app.
  destruct (run _ _ _ _ comment reader0 _ pre) as [rd sc|sc|e i]; simpl.
  - intros [= <-] Hret.
    assert (dense_above (count_mtx sc) (count_mtx sc) (count_mtx sc)) as Hinit.
    { split; [done|]. intros r c. reflexivity. }
    pose proof (outcome_rel_returned _ _ _
                  (run_sim features (chrom_mapping_of features)
                     (bc_mapping_of valid_bcs) (list_to_set valid_bcs)
                     (dense_above (count_mtx sc))
                     (λ a b _ r c _, dense_above_incr _ a b r c)
                     comment rd sc sc rest eq_refl Hinit)) as Habove.
    rewrite Hret in Habove. simpl in Habove. by destruct Habove.
  - intros [= <-] [= <-] r c. reflexivity.
  - done.
Qed.

(** X6. Cells are only ever incremented: the table that [count] returns for
    a file extended by more lines has, in every cell, at least what the
    table for the file has. *)
Theorem counts_never_decrease (pre rest : list string)
    (features : list feature) (valid_bcs : list string) (fast : bool)
    (comment : string) (t t' : table) :
  count pre features valid_bcs fast comment = Ok t →
  count (pre ++ rest) features valid_bcs fast comment = Ok t' →
  ∀ r c, cell t r c <= cell t' r c.
Proof.
  unfold count. intros Hpre Hall r c.
  pose proof (count_run_dense_lil pre features valid_bcs comment) as Hdl.
  pose proof (count_run_dense_lil (pre ++ rest) features valid_bcs comment) as Hdl'.
  pose proof (count_run_dense_grows pre rest features valid_bcs comment) as Hgrow.
  destruct (returned (count_run (A := dense) pre _ _ _)) as [m|];
    [|by destruct fast, (returned (count_run (A := lil) pre _ _ _))].
  destruct (returned (count_run (A := dense) (pre ++ rest) _ _ _)) as [m'|];
    [|by destruct fast, (returned (count_run (A := lil) (pre ++ rest) _ _ _))].
  specialize (Hgrow m m' eq_refl eq_refl r c).
  destruct fast; simpl in Hpre, Hall.
  - by inversion Hpre; inversion Hall; subst.
  - destruct (returned (count_run (A := lil) pre _ _ _)) as [l|]; [|done].
    destruct (returned (count_run (A := lil) (pre ++ rest) _ _ _)) as [l'|];
      [|done].
    simpl in Hdl, Hdl'. inversion Hpre; inversion Hall; subst. simpl.
    by rewrite (dense_lil_cell m l r c Hdl), (dense_lil_cell m' l' r c Hdl').
Qed.

Lemma counts_never_decrease_witness :
  count (take 2 demo_fragments) demo_features ["bc1"; "bc2"] true "#"
  = Ok (DenseT [[1; 1; 0]; [0; 0; 0]])
  ∧ count (take 2 demo_fragments ++ drop 2 demo_fragments) demo_features
      ["bc1"; "bc2"] true "#"
    = Ok (DenseT [[1; 1; 1]; [0; 1; 0]])
  ∧ ∀ r c, cell (DenseT [[1; 1; 0]; [0; 0; 0]]) r c
           <= cell (DenseT [[1; 1; 1]; [0; 1; 0]]) r c.
Proof.
  assert (count (take 2 demo_fragments) demo_features ["bc1"; "bc2"] true "#"
          = Ok (DenseT [[1; 1; 0]; [0; 0; 0]])) as Hpre
    by (vm_compute; reflexivity).
  assert (count (take 2 demo_fragments ++ drop 2 demo_fragments) demo_features
            ["bc1"; "bc2"] true "#"
          = Ok (DenseT [[1; 1; 1]; [0; 1; 0]])) as Hall
    by (vm_compute; reflexivity).
  split; [exact Hpre|]. split; [exact Hall|].
  exact (counts_never_decrease (take 2 demo_fragments) (drop 2 demo_fragments)
           demo_features ["bc1"; "bc2"] true "#" _ _ Hpre Hall).
Defined.

(** ** What the loop can raise, and what it can count *)

Section Safety.
Variable features : list feature.
Variable valid_bcs : list string.

Local Abbreviation cm := (chrom_mapping_of features).
Local Abbreviation bm := (bc_mapping_of valid_bcs).
Local Abbreviation vs := (list_to_set valid_bcs : gset string).

Lemma counted_le_refl fr tr : counted_le features valid_bcs fr tr tr.
Proof. split; [done|]. intros j f _. lia. Qed.

Lemma follow_up_sound fr chrom_int row fs tmp_idx tr :
  cm !! fr_chrom fr = Some chrom_int → bm !! fr_barcode fr = Some row →
  (row < fst (tr_shape tr))%nat → snd (tr_shape tr) = length features →
  (∀ k, fs !! k = features !! (tmp_idx + k)%nat) →
  ∃ tr',
    follow_up cm bm (fr_barcode fr) chrom_int (fr_start fr) (fr_stop fr)
      fs tmp_idx tr = Ok tr'
    ∧ tr_shape tr' = tr_shape tr
    ∧ ∀ j f, features !! j = Some f →
        (col_count j tr'
         <= col_count j tr
            + if decide ((tmp_idx <= j)%nat ∧ hits fr f = true) then 1 else 0)%nat.
Proof.
  intros Hci Hrow. revert tmp_idx tr.
  induction fs as [|f fs IH]; intros tmp_idx tr Hr Hcols Hs; simpl.
  - exists tr. split; [done|]. split; [done|]. intros j g _. lia.
  - apply (suffix_head features []) in Hs as [Hf Hs].
    destruct (feature_ranked _ _ _ Hf) as [r Hrk]. rewrite Hrk.
    rewrite (cond_hits features fr f chrom_int r Hci Hrk).
    destruct (hits fr f) eqn:Hh.
    + destruct (hit_spec valid_bcs (fr_barcode fr) row tmp_idx tr Hrow Hr)
        as (tr1 & -> & Hsh1 & Hc1).
      { rewrite Hcols. by eapply lookup_lt_Some. }
      destruct (IH (S tmp_idx) tr1) as (tr' & -> & Hsh' & Hc');
        [by rewrite Hsh1|by rewrite Hsh1|done|].
      exists tr'. split; [done|]. split; [congruence|].
      intros j g Hg. specialize (Hc' j g Hg). rewrite Hc1 in Hc'.
      destruct (decide (tmp_idx = j)) as [->|Hne].
      * rewrite Hf in Hg. inversion Hg; subst g.
        rewrite decide_False in Hc' by lia.
        rewrite decide_True by (split; [lia|done]). lia.
      * repeat case_decide; try lia; exfalso;
          match goal with
          | Hn : ¬ (_ ∧ _) |- _ => apply Hn; split; [lia|tauto]
          end.
    + exists tr. split; [done|]. split; [done|]. intros j g _. lia.
Qed.

Lemma overlap_ok fr chrom_int idx tr :
  cm !! fr_chrom fr = Some chrom_int → fr_barcode fr ∈ valid_bcs →
  tr_shape tr = (length valid_bcs, length features) →
  (idx < length features)%nat →
  ∃ tr',
    overlap features cm bm (fr_barcode fr) chrom_int (fr_start fr) (fr_stop fr)
      idx tr = Next (mkScan idx tr')
    ∧ tr_shape tr' = tr_shape tr
    ∧ ∀ j f, features !! j = Some f →
        (col_count j tr'
         <= col_count j tr + (if decide (idx = j) then 1 else 0)
            + if decide ((S idx <= j)%nat ∧ hits fr f = true) then 1 else 0)%nat.
Proof.
  intros Hci Hbc Hshape Hidx. unfold overlap.
  destruct (bc_mapping_valid valid_bcs _ Hbc) as (row & Hrow & Hlt).
  destruct (hit_spec valid_bcs (fr_barcode fr) row idx tr Hrow)
    as (tr1 & -> & Hsh1 & Hc1); [by rewrite Hshape|by rewrite Hshape|].
  destruct (follow_up_sound fr chrom_int row (drop (S idx) features) (S idx) tr1)
    as (tr' & -> & Hsh' & Hc'); try done.
  - by rewrite Hsh1, Hshape.
  - by rewrite Hsh1, Hshape.
  - intros k. apply lookup_drop.
  - exists tr'. split; [done|]. split; [congruence|].
    intros j f Hf. specialize (Hc' j f Hf). rewrite Hc1 in Hc'. lia.
Qed.

Lemma overlap_sound fr chrom_int idx f tr :
  cm !! fr_chrom fr = Some chrom_int → fr_barcode fr ∈ valid_bcs →
  tr_shape tr = (length valid_bcs, length features) →
  features !! idx = Some f → hits fr f = true →
  ∃ tr',
    overlap features cm bm (fr_barcode fr) chrom_int (fr_start fr) (fr_stop fr)
      idx tr = Next (mkScan idx tr')
    ∧ counted_le features valid_bcs fr tr tr'.
Proof.
  intros Hci Hbc Hshape Hf Hh.
  destruct (overlap_ok fr chrom_int idx tr Hci Hbc Hshape)
    as (tr' & Hov & Hsh & Hc); [by eapply lookup_lt_Some|].
  exists tr'. split; [done|]. split; [done|].
  intros j g Hg. specialize (Hc j g Hg). unfold hit_once.
  destruct (decide (idx = j)) as [->|Hne].
  - rewrite Hf in Hg. inversion Hg; subst g.
    rewrite decide_False in Hc by lia.
    rewrite decide_True by (split; assumption). lia.
  - repeat case_decide; try lia; exfalso;
      match goal with
      | Hn : ¬ (_ ∧ _) |- _ => apply Hn; split; solve [lia|tauto|assumption]
      end.
Qed.

(** Lines 226-294 on a line of four fields or more: no exception but that
    of [int]; and, when the coordinates are read and the cursor's feature is
    on the fragment's chromosome, only hits are counted. *)
Lemma intervals_post chrom s1 s2 bc more chrom_int idx tr :
  cm !! chrom = Some chrom_int → bc ∈ valid_bcs →
  tr_shape tr = (length valid_bcs, length features) →
  (idx < length features)%nat →
  match intervals features cm bm (chrom :: s1 :: s2 :: bc :: more) bc
          chrom_int idx tr with
  | Next sc' | Break sc' =>
      tr_shape (count_mtx sc') = tr_shape tr
      ∧ ∀ start stop f,
          PyStr.int s1 = Some start → PyStr.int s2 = Some stop →
          features !! idx = Some f → cm !! f_chrom f = Some chrom_int →
          counted_le features valid_bcs (mkFragment chrom start stop bc)
            tr (count_mtx sc')
  | Raise e _ => raises_on (chrom :: s1 :: s2 :: bc :: more) e
  end.
Proof.
  intros Hci Hbc Hshape Hidx. unfold intervals. cbn [lookup list_lookup].
  destruct (PyStr.int s1) as [start|] eqn:Hs1.
  2:{ right. split; [done|]. exists 1%nat, s1. by split; [left|]. }
  destruct (PyStr.int s2) as [stop|] eqn:Hs2.
  2:{ right. split; [done|]. exists 2%nat, s2. by split; [right|]. }
  destruct (lookup_lt_is_Some_2 features idx Hidx) as [f Hf]. rewrite Hf.
  set (fr := mkFragment chrom start stop bc).
  destruct (Z.ltb_spec stop (f_start f)) as [Hbefore|Hnb].
  { simpl. split; [done|]. intros start' stop' f' [= <-] [= <-] _ _.
    apply counted_le_refl. }
  destruct (Z.ltb_spec (f_stop f) start) as [Hbehind|Hnbh].
  2:{ destruct (overlap_ok fr chrom_int idx tr Hci Hbc Hshape Hidx)
        as (tr' & Hov & Hsh & _).
      simpl in Hov. rewrite Hov. split; [done|].
      intros start' stop' f' [= <-] [= <-] [= <-] Hr'.
      destruct (overlap_sound fr chrom_int idx f tr Hci Hbc Hshape Hf)
        as (tr'' & Hov' & Hcnt).
      { apply same_rank_hits with features chrom_int; simpl; auto. }
      simpl in Hov'. rewrite Hov in Hov'. by inversion Hov'; subst. }
  destruct (skip_behind_spec features start chrom_int (drop idx features) idx)
    as (idx' & -> & Hge & Hbelow & Hat); [intros k; apply lookup_drop|].
  destruct (Nat.leb_spec (length features) idx') as [Hend|Hin].
  { simpl. split; [done|]. intros start' stop' f' [= <-] [= <-] _ _.
    apply counted_le_refl. }
  destruct (lookup_lt_is_Some_2 features idx' Hin) as [f' Hf']. rewrite Hf'.
  destruct (feature_ranked _ _ _ Hf') as [r' Hr']. rewrite Hr'.
  destruct (Nat.eqb_spec chrom_int r') as [<-|Hne]; simpl.
  2:{ split; [done|]. intros start' stop' f0 [= <-] [= <-] _ _.
      apply counted_le_refl. }
  destruct (Z.ltb_spec stop (f_start f')) as [Hbefore'|Hnb']; simpl.
  { split; [done|]. intros start' stop' f0 [= <-] [= <-] _ _.
    apply counted_le_refl. }
  destruct (overlap_sound fr chrom_int idx' f' tr Hci Hbc Hshape Hf')
    as (tr' & Hov & Hcnt).
  { apply same_rank_hits with features chrom_int; simpl; auto.
    destruct (Z.le_gt_cases start (f_stop f')) as [?|Hgt]; [done|].
    exfalso. apply (Hat f' Hf'). split; [lia|done]. }
  simpl in Hov. rewrite Hov. split; [by destruct Hcnt|].
  by intros start' stop' f0 [= <-] [= <-] _ _.
Qed.

Lemma parse_fragment_cons chrom s1 s2 bc more fr :
  parse_fragment (chrom :: s1 :: s2 :: bc :: more) = Some fr →
  ∃ start stop, PyStr.int s1 = Some start ∧ PyStr.int s2 = Some stop
                ∧ fr = mkFragment chrom start stop bc.
Proof.
  unfold parse_fragment.
  destruct (PyStr.int s1) as [start|]; [|done].
  destruct (PyStr.int s2) as [stop|]; [|done].
  intros [= <-]. by exists start, stop.
Qed.

Lemma grouped_pair i j fi fj :
  features_grouped features = true →
  (i <= j)%nat → features !! i = Some fi → features !! j = Some fj →
  ∃ a b, cm !! f_chrom fi = Some a ∧ cm !! f_chrom fj = Some b ∧ (a <= b)%nat.
Proof.
  intros Hgr Hij Hi Hj. destruct (decide (i = j)) as [->|Hne].
  - rewrite Hi in Hj. inversion Hj; subst fj.
    destruct (feature_ranked _ _ _ Hi) as [a Ha]. by exists a, a.
  - pose proof (all_pairs_lookup _ _ i j fi fj Hgr ltac:(lia) Hi Hj) as Hle.
    unfold rank_le in Hle.
    destruct (cm !! f_chrom fi) as [a|]; [|done].
    destruct (cm !! f_chrom fj) as [b|]; [|done].
    exists a, b. apply Nat.leb_le in Hle. done.
Qed.

(** Lines 199-294: the loop body raises only for a short line or a
    coordinate that is no integer, keeps the shape of the table, and, for
    grouped features, counts only hits. *)
Lemma process_post ls sc :
  tr_shape (count_mtx sc) = (length valid_bcs, length features) →
  (feature_idx sc < length features)%nat ∨ features = [] →
  match process features cm bm vs ls sc with
  | Next sc' | Break sc' =>
      tr_shape (count_mtx sc') = tr_shape (count_mtx sc)
      ∧ (features_grouped features = true →
         ∀ fr, parse_fragment ls = Some fr →
               counted_le features valid_bcs fr (count_mtx sc) (count_mtx sc'))
  | Raise e _ => raises_on ls e
  end.
Proof.
  intros Hshape Hrange. unfold process.
  destruct (ls !! 3%nat) as [bc0|] eqn:Hbc0.
  2:{ left. split; [done|]. apply lookup_ge_None in Hbc0. lia. }
  destruct ls as [|chrom [|s1 [|s2 [|bc more]]]]; try done.
  simpl in Hbc0. inversion Hbc0; subst bc0. cbn [lookup list_lookup].
  destruct (bool_decide_reflect (bc ∈ vs)) as [Hbc|Hbc].
  2:{ split; [done|]. intros _ fr _. apply counted_le_refl. }
  apply elem_of_list_to_set in Hbc.
  destruct (cm !! chrom) as [chrom_int|] eqn:Hci.
  2:{ split; [done|]. intros _ fr _. apply counted_le_refl. }
  destruct (ranked_nonempty _ _ _ Hci) as (k & g0 & Hk & Hc0).
  assert (feature_idx sc < length features)%nat as Hidx.
  { destruct Hrange as [?|Hnil]; [done|]. rewrite Hnil in Hk.
    by rewrite lookup_nil in Hk. }
  destruct (lookup_lt_is_Some_2 features _ Hidx) as [f Hf]. rewrite Hf.
  destruct (feature_ranked _ _ _ Hf) as [r Hr]. rewrite Hr.
  destruct (Nat.ltb_spec chrom_int r) as [Hlt|Hge].
  { split; [done|]. intros _ fr _. apply counted_le_refl. }
  destruct (Nat.ltb_spec r chrom_int) as [Hgt|Hle'].
  2:{ assert (r = chrom_int) as -> by lia.
      pose proof (intervals_post chrom s1 s2 bc more chrom_int (feature_idx sc)
                    (count_mtx sc) Hci Hbc Hshape Hidx) as Hpost.
      destruct (intervals _ _ _ _ _ _ _ _) as [sc'|sc'|e i]; [| |done].
      - destruct Hpost as [Hsh Hcnt]. split; [done|]. intros _ fr Hparse.
        apply parse_fragment_cons in Hparse as (start & stop & H1 & H2 & ->).
        by eapply Hcnt.
      - destruct Hpost as [Hsh Hcnt]. split; [done|]. intros _ fr Hparse.
        apply parse_fragment_cons in Hparse as (start & stop & H1 & H2 & ->).
        by eapply Hcnt. }
  destruct (skip_chroms_spec features chrom_int
              (drop (feature_idx sc) features) (feature_idx sc))
    as (idx' & -> & Hge' & Hbelow & Hat); [intros k'; apply lookup_drop|].
  destruct (Nat.leb_spec (length features) idx') as [Hend|Hin].
  { split; [done|]. intros _ fr _. apply counted_le_refl. }
  pose proof (intervals_post chrom s1 s2 bc more chrom_int idx'
                (count_mtx sc) Hci Hbc Hshape Hin) as Hpost.
  destruct (lookup_lt_is_Some_2 features idx' Hin) as [f' Hf'].
  destruct (feature_ranked _ _ _ Hf') as [r' Hr'].
  assert (features_grouped features = true → r' = chrom_int) as Hsame.
  { intros Hgr. pose proof (Hat f' r' Hf' Hr') as Hge''.
    assert (cm !! f_chrom g0 = Some chrom_int) as Hr0 by (by rewrite Hc0).
    destruct (decide (k < feature_idx sc)%nat) as [Hk1|Hk1].
    - destruct (grouped_pair k (feature_idx sc) g0 f Hgr ltac:(lia) Hk Hf)
        as (a & b & Ha & Hb0 & Hab).
      rewrite Hr0 in Ha. rewrite Hr in Hb0. inversion Ha. inversion Hb0. lia.
    - destruct (decide (k < idx')%nat) as [Hk2|Hk2].
      + pose proof (Hbelow k g0 chrom_int ltac:(lia) Hk Hr0). lia.
      + destruct (grouped_pair idx' k f' g0 Hgr ltac:(lia) Hf' Hk)
          as (a & b & Ha & Hb0 & Hab).
        rewrite Hr' in Ha. rewrite Hr0 in Hb0. inversion Ha. inversion Hb0. lia. }
  destruct (intervals _ _ _ _ _ _ _ _) as [sc'|sc'|e i]; [| |done].
  - destruct Hpost as [Hsh Hcnt]. split; [done|]. intros Hgr fr Hparse.
    apply parse_fragment_cons in Hparse as (start & stop & H1 & H2 & ->).
    eapply Hcnt; eauto. by rewrite Hr', (Hsame Hgr).
  - destruct Hpost as [Hsh Hcnt]. split; [done|]. intros Hgr fr Hparse.
    apply parse_fragment_cons in Hparse as (start & stop & H1 & H2 & ->).
    eapply Hcnt; eauto. by rewrite Hr', (Hsame Hgr).
Qed.

Lemma scan_splits_post splits sc :
  tr_shape (count_mtx sc) = (length valid_bcs, length features) →
  (feature_idx sc < length features)%nat ∨ features = [] →
  match scan_splits features cm bm vs sc splits with
  | Next sc' | Break sc' =>
      tr_shape (count_mtx sc') = (length valid_bcs, length features)
      ∧ (features_grouped features = true →
         ∀ frs, Forall2 (λ ls fr, parse_fragment ls = Some fr) splits frs →
           ∀ j f, features !! j = Some f →
             (col_count j (count_mtx sc')
              <= col_count j (count_mtx sc) + overlapping valid_bcs frs f)%nat)
  | Raise e _ => ∃ ls, ls ∈ splits ∧ raises_on ls e
  end.
Proof.
  revert sc. induction splits as [|ls splits IH]; intros sc Hshape Hrange.
  - simpl. split; [done|]. intros _ frs _ j f _. lia.
  - cbn [scan_splits].
    pose proof (process_post ls sc Hshape Hrange) as Hpost.
    assert (ctl_in_range features (process features cm bm vs ls sc)
            ∨ features = []) as Hin.
    { destruct Hrange as [Hlt|Hnil]; [left|by right]. by apply process_in_range. }
    destruct (process features cm bm vs ls sc) as [sc'|sc'|e i].
    + destruct Hpost as [Hsh Hcnt].
      assert (tr_shape (count_mtx sc') = (length valid_bcs, length features))
        as Hshape' by congruence.
      assert ((feature_idx sc' < length features)%nat ∨ features = []) as Hrange'.
      { destruct Hin as [Hin|Hnil]; [by left|by right]. }
      specialize (IH sc' Hshape' Hrange').
      destruct (scan_splits _ _ _ _ sc' splits) as [sc''|sc''|e i].
      * destruct IH as [Hsh'' Hall]. split; [done|].
        intros Hgr frs Hparse j f Hf.
        apply Forall2_cons_inv_l in Hparse as (fr & frs' & Hfr & Hfrs & ->).
        rewrite overlapping_cons.
        pose proof (Hall Hgr frs' Hfrs j f Hf).
        destruct (Hcnt Hgr fr Hfr) as [_ Hc]. specialize (Hc j f Hf). lia.
      * destruct IH as [Hsh'' Hall]. split; [done|].
        intros Hgr frs Hparse j f Hf.
        apply Forall2_cons_inv_l in Hparse as (fr & frs' & Hfr & Hfrs & ->).
        rewrite overlapping_cons.
        pose proof (Hall Hgr frs' Hfrs j f Hf).
        destruct (Hcnt Hgr fr Hfr) as [_ Hc]. specialize (Hc j f Hf). lia.
      * destruct IH as (ls' & Hls' & Hraise). exists ls'. split; [by right|done].
    + destruct Hpost as [Hsh Hcnt]. split; [congruence|].
      intros Hgr frs Hparse j f Hf.
      apply Forall2_cons_inv_l in Hparse as (fr & frs' & Hfr & Hfrs & ->).
      rewrite overlapping_cons.
      destruct (Hcnt Hgr fr Hfr) as [_ Hc]. specialize (Hc j f Hf). lia.
    + exists ls. split; [by left|done].
Qed.

End Safety.

Lemma count_run_trace_post fragments features valid_bcs comment :
  match returned (count_run (A := trace) fragments features valid_bcs comment) with
  | Ok t =>
      tr_shape t = (length valid_bcs, length features)
      ∧ (features_grouped features = true →
         ∀ frs, read_fragments comment fragments = Some frs →
           ∀ j f, features !! j = Some f →
             (col_count j t <= overlapping valid_bcs frs f)%nat)
  | Err e =>
      ∃ ls, ls ∈ line_splits comment reader0 fragments ∧ raises_on ls e
  end.
Proof.
  unfold count_run. rewrite <- ctl_returned_outcome, run_scan_splits.
  pose proof (scan_splits_post features valid_bcs
                (line_splits comment reader0 fragments)
                (mkScan 0%nat (acc_new (length valid_bcs) (length features)))
                eq_refl) as Hpost.
  destruct (scan_splits _ _ _ _ _ _) as [sc'|sc'|e i]; simpl.
  - destruct Hpost as [Hsh Hall].
    { simpl. destruct features; [by right|left; simpl; lia]. }
    split; [done|]. intros Hgr frs Hread j f Hf.
    apply read_fragments_Some in Hread. apply (Hall Hgr frs Hread j f Hf).
  - destruct Hpost as [Hsh Hall].
    { simpl. destruct features; [by right|left; simpl; lia]. }
    split; [done|]. intros Hgr frs Hread j f Hf.
    apply read_fragments_Some in Hread. apply (Hall Hgr frs Hread j f Hf).
  - apply Hpost. simpl. destruct features; [by right|left; simpl; lia].
Qed.

Lemma count_err_trace fragments features valid_bcs fast comment e :
  count fragments features valid_bcs fast comment = Err e →
  returned (count_run (A := trace) fragments features valid_bcs comment) = Err e.
Proof.
  unfold count. intros Hcount.
  pose proof (count_run_dense_trace fragments features valid_bcs comment) as Hdt.
  pose proof (count_run_dense_lil fragments features valid_bcs comment) as Hdl.
  destruct (returned (count_run (A := dense) _ _ _ _)) as [m|e1],
           (returned (count_run (A := lil) _ _ _ _)) as [l|e2],
           (returned (count_run (A := trace) _ _ _ _)) as [t|e3];
    simpl in *; try done; destruct fast; simpl in *; congruence.
Qed.

(** X7. [count] raises only on account of a line it reads: IndexError for
    a line of fewer than four fields, ValueError for a second or third field
    that [int] does not read.  Its own dictionaries and tables never fail
    it: there is no KeyError and no index out of range. *)
Theorem count_raises_only_on_bad_line (fragments : list string)
    (features : list feature) (valid_bcs : list string) (fast : bool)
    (comment : string) (e : exn) :
  count fragments features valid_bcs fast comment = Err e →
  ∃ ls, ls ∈ line_splits comment reader0 fragments
        ∧ ((e = IndexError ∧ (length ls < 4)%nat)
           ∨ (e = ValueError
              ∧ ∃ k s, (k = 1%nat ∨ k = 2%nat) ∧ ls !! k = Some s
                       ∧ PyStr.int s = None)).
Proof.
  intros Hcount. apply count_err_trace in Hcount.
  pose proof (count_run_trace_post fragments features valid_bcs comment) as Hpost.
  rewrite Hcount in Hpost. exact Hpost.
Qed.

Lemma count_raises_only_on_bad_line_witness :
  count [bc1_line "chr1" "x" "200"] feature_200_300 ["bc1"] true "#"
  = Err ValueError
  ∧ ∃ ls, ls ∈ line_splits "#" reader0 [bc1_line "chr1" "x" "200"]
          ∧ ((ValueError = IndexError ∧ (length ls < 4)%nat)
             ∨ (ValueError = ValueError
                ∧ ∃ k s, (k = 1%nat ∨ k = 2%nat) ∧ ls !! k = Some s
                         ∧ PyStr.int s = None)).
Proof.
  assert (count [bc1_line "chr1" "x" "200"] feature_200_300 ["bc1"] true "#"
          = Err ValueError) as Hcount by (vm_compute; reflexivity).
  split; [exact Hcount|].
  exact (count_raises_only_on_bad_line [bc1_line "chr1" "x" "200"]
           feature_200_300 ["bc1"] true "#" ValueError Hcount).
Defined.

Lemma parsed_not_raising splits frs ls e :
  Forall2 (λ ls fr, parse_fragment ls = Some fr) splits frs →
  ls ∈ splits → ¬ raises_on ls e.
Proof.
  intros Hparse Hls Hraise.
  apply list_elem_of_lookup_1 in Hls as [i Hi].
  destruct (Forall2_lookup_l _ _ _ _ _ Hparse Hi) as (fr & _ & Hfr).
  apply parse_fragment_Some in Hfr as (s1 & s2 & more & -> & Hs1 & Hs2).
  destruct Hraise as [[_ Hlen]|[_ (k & s & [->| ->] & Hk & Hs)]].
  - simpl in Hlen. lia.
  - simpl in Hk. inversion Hk; subst. congruence.
  - simpl in Hk. inversion Hk; subst. congruence.
Qed.

(** X8. On a file in which every line read is a record (four fields or
    more, integer coordinates), [count] returns a table: whatever the order
    of the fragments and of the features, and whatever the barcodes. *)
Theorem count_returns_on_records (fragments : list string)
    (features : list feature) (valid_bcs : list string) (fast : bool)
    (comment : string) (frs : list fragment) :
  read_fragments comment fragments = Some frs →
  ∃ t, count fragments features valid_bcs fast comment = Ok t.
Proof.
  intros Hread. apply read_fragments_Some in Hread.
  destruct (count fragments features valid_bcs fast comment) as [t|e] eqn:Hcount;
    [by exists t|].
  exfalso. apply count_err_trace in Hcount.
  pose proof (count_run_trace_post fragments features valid_bcs comment) as Hpost.
  rewrite Hcount in Hpost. destruct Hpost as (ls & Hls & Hraise).
  by eapply parsed_not_raising.
Qed.

Lemma count_returns_on_records_witness :
  read_fragments "#" (reverse (drop 1 demo_fragments)) = Some (reverse demo_records)
  ∧ ∃ t, count (reverse (drop 1 demo_fragments)) (reverse demo_features) ["bc2"; "bc2"]
           false "#" = Ok t.
Proof.
  assert (read_fragments "#" (reverse (drop 1 demo_fragments))
          = Some (reverse demo_records)) as Hread by (vm_compute; reflexivity).
  split; [exact Hread|].
  exact (count_returns_on_records (reverse (drop 1 demo_fragments))
           (reverse demo_features) ["bc2"; "bc2"] false "#" _ Hread).
Defined.

(** X10. With features whose chromosomes come in groups, in whatever order
    inside a group and whether nested or not, and fragments in whatever
    order, [count] never counts too much: the total of a feature's column is
    at most the number of fragments of valid barcode that overlap it. *)
Theorem hit_counts_never_exceed (fragments : list string)
    (features : list feature) (valid_bcs : list string) (fast : bool)
    (comment : string) (frs : list fragment) :
  read_fragments comment fragments = Some frs →
  features_grouped features = true →
  ∃ t, count fragments features valid_bcs fast comment = Ok t
    ∧ ∀ j f, features !! j = Some f →
        feature_total t (length valid_bcs) j
        <= Z.of_nat (overlapping valid_bcs frs f).
Proof.
  intros Hread Hgr.
  pose proof (count_run_trace_post fragments features valid_bcs comment) as Hpost.
  pose proof (count_run_dense_trace fragments features valid_bcs comment) as Hdt.
  pose proof (count_run_dense_lil fragments features valid_bcs comment) as Hdl.
  unfold count.
  destruct (returned (count_run (A := trace) _ _ _ _)) as [t|e].
  2:{ exfalso. destruct Hpost as (ls & Hls & Hraise).
      apply read_fragments_Some in Hread. by eapply parsed_not_raising. }
  destruct Hpost as [Hshape Hall].
  destruct (returned (count_run (A := dense) _ _ _ _)) as [m|]; simpl in Hdt; [|done].
  assert (∀ j f, features !! j = Some f →
            feature_total (DenseT m) (length valid_bcs) j
            <= Z.of_nat (overlapping valid_bcs frs f)) as Hdense.
  { intros j f Hf. pose proof (Hall Hgr frs Hread j f Hf) as Hle.
    pose proof (feature_total_dense m t j Hdt) as Htot.
    rewrite Hshape in Htot. simpl in Htot. rewrite Htot. lia. }
  destruct fast; simpl.
  - by exists (DenseT m).
  - destruct (returned (count_run (A := lil) _ _ _ _)) as [l|]; simpl in Hdl; [|done].
    exists (SparseT l). split; [done|]. intros j f Hf.
    rewrite (feature_total_sparse m l _ j Hdl). by apply Hdense.
Qed.

Lemma hit_counts_never_exceed_witness :
  read_fragments "#" (reverse (drop 1 demo_fragments)) = Some (reverse demo_records)
  ∧ features_grouped features_nested = true
  ∧ ∃ t, count (reverse (drop 1 demo_fragments)) features_nested ["bc1"; "bc2"] true "#"
         = Ok t
      ∧ ∀ j f, features_nested !! j = Some f →
          feature_total t (length ["bc1"; "bc2"]) j
          <= Z.of_nat (overlapping ["bc1"; "bc2"] (reverse demo_records) f).
Proof.
  assert (read_fragments "#" (reverse (drop 1 demo_fragments))
          = Some (reverse demo_records)) as Hread by (vm_compute; reflexivity).
  assert (features_grouped features_nested = true) as Hgr
    by (vm_compute; reflexivity).
  split; [exact Hread|]. split; [exact Hgr|].
  exact (hit_counts_never_exceed (reverse (drop 1 demo_fragments)) features_nested
           ["bc1"; "bc2"] true "#" _ Hread Hgr).
Defined.

(** ** Lines that change nothing *)

Lemma read_line_decided comment rd l rd' ls :
  read_line comment rd l = (rd', Split ls) →
  check_for_comments rd' = false ∧ is_Some (use_strip rd').
Proof.
  unfold read_line. destruct (_ && _); [done|].
  destruct (use_strip rd) as [[|]|]; intros [= <- _]; simpl; eauto.
Qed.

Lemma read_line_skipped comment rd l rd' :
  read_line comment rd l = (rd', Skipped) → rd' = rd.
Proof.
  unfold read_line. destruct (_ && _); [by intros [= <-]|].
  by destruct (use_strip rd) as [[|]|].
Qed.

Lemma read_line_keeps comment rd l b :
  check_for_comments rd = false → use_strip rd = Some b →
  read_line comment rd l
  = (rd, Split (PyStr.split_tab (if b then PyStr.strip l else l))).
Proof.
  destruct rd as [check strip]. simpl. intros -> ->.
  unfold read_line. simpl. by destruct b.
Qed.

Lemma run_finished_reader {A : Type} `{Accumulator A} features chrom_mapping
    bc_mapping valid_bcs_set comment rd (sc : scan A) lines rd' sc' :
  run features chrom_mapping bc_mapping valid_bcs_set comment rd sc lines
  = Finished rd' sc' →
  line_splits comment rd lines ≠ []
  ∨ (check_for_comments rd = false ∧ is_Some (use_strip rd)) →
  check_for_comments rd' = false ∧ is_Some (use_strip rd').
Proof.
  revert rd sc. induction lines as [|l lines IH]; intros rd sc Hrun Hdec.
  - simpl in *. inversion Hrun; subst. by destruct Hdec.
  - cbn [run line_splits] in *.
    destruct (read_line comment rd l) as [rd1 [|ls]] eqn:Hread.
    + apply read_line_skipped in Hread as ->. by eapply IH.
    + apply read_line_decided in Hread.
      destruct (process _ _ _ _ ls sc) as [sc1|sc1|e i]; [|done|done].
      eapply IH; eauto.
Qed.

Lemma process_dropped {A : Type} `{Accumulator A} features valid_bcs ls
    (sc : scan A) :
  dropped_split features valid_bcs ls →
  process features (chrom_mapping_of features) (bc_mapping_of valid_bcs)
    (list_to_set valid_bcs) ls sc = Next sc.
Proof.
  intros (bc & Hbc & Hdrop). unfold process. rewrite Hbc.
  destruct (bool_decide_reflect (bc ∈ (list_to_set valid_bcs : gset string)))
    as [Hin|Hnin]; [|done].
  apply elem_of_list_to_set in Hin.
  destruct Hdrop as [Hnot|(chrom & Hchrom & Hrank)]; [done|].
  by rewrite Hchrom, Hrank.
Qed.

Lemma count_run_without {A : Type} `{Accumulator A} pre l post features
    valid_bcs comment :
  line_splits comment reader0 pre ≠ [] →
  dropped_split features valid_bcs (PyStr.split_tab l) →
  dropped_split features valid_bcs (PyStr.split_tab (PyStr.strip l)) →
  count_run (A := A) (pre ++ l :: post) features valid_bcs comment
  = count_run (A := A) (pre ++ post) features valid_bcs comment.
Proof.
  intros Hdata Hraw Hstripped. unfold count_run. rewrite !run_app.
  destruct (run _ _ _ _ comment reader0 _ pre) as [rd sc|sc|e i] eqn:Hpre;
    [|done|done].
  destruct (run_finished_reader _ _ _ _ _ _ _ _ _ _ Hpre (or_introl Hdata))
    as [Hcheck [b Hb]].
  cbn [run]. rewrite (read_line_keeps comment rd l b Hcheck Hb).
  rewrite process_dropped; [done|]. by destruct b.
Qed.

(** X9. A line after the first line of data whose barcode is not valid, or
    whose chromosome has no feature, can be taken out of the file: [count]
    returns the same; its coordinates are not even read. *)
Theorem dropped_line_removable (pre post : list string) (l : string)
    (features : list feature) (valid_bcs : list string) (fast : bool)
    (comment : string) :
  line_splits comment reader0 pre ≠ [] →
  dropped_split features valid_bcs (PyStr.split_tab l) →
  dropped_split features valid_bcs (PyStr.split_tab (PyStr.strip l)) →
  count (pre ++ l :: post) features valid_bcs fast comment
  = count (pre ++ post) features valid_bcs fast comment.
Proof.
  intros Hdata Hraw Hstripped. unfold count.
  rewrite (count_run_without (A := dense) pre l post features valid_bcs comment)
    by done.
  by rewrite (count_run_without (A := lil) pre l post features valid_bcs comment)
    by done.
Qed.

Lemma dropped_line_removable_witness :
  line_splits "#" reader0 (take 2 demo_fragments) ≠ []
  ∧ dropped_split demo_features ["bc1"; "bc2"]
      (PyStr.split_tab (mk_line ["chr1"; "x"; "400"; "bc9"; "1"]))
  ∧ dropped_split demo_features ["bc1"; "bc2"]
      (PyStr.split_tab (PyStr.strip (mk_line ["chr1"; "x"; "400"; "bc9"; "1"])))
  ∧ count (take 2 demo_fragments
           ++ mk_line ["chr1"; "x"; "400"; "bc9"; "1"] :: drop 2 demo_fragments)
      demo_features ["bc1"; "bc2"] true "#"
    = count (take 2 demo_fragments ++ drop 2 demo_fragments)
        demo_features ["bc1"; "bc2"] true "#".
Proof.
  assert (line_splits "#" reader0 (take 2 demo_fragments) ≠ []) as Hdata
    by (vm_compute; discriminate).
  assert (dropped_split demo_features ["bc1"; "bc2"]
            (PyStr.split_tab (mk_line ["chr1"; "x"; "400"; "bc9"; "1"]))) as Hraw.
  { exists "bc9". split; [vm_compute; reflexivity|]. left.
    apply (bool_decide_unpack ("bc9" ∉ ["bc1"; "bc2"])). vm_compute. exact I. }
  assert (dropped_split demo_features ["bc1"; "bc2"]
            (PyStr.split_tab
               (PyStr.strip (mk_line ["chr1"; "x"; "400"; "bc9"; "1"]))))
    as Hstripped.
  { exists "bc9". split; [vm_compute; reflexivity|]. left.
    apply (bool_decide_unpack ("bc9" ∉ ["bc1"; "bc2"])). vm_compute. exact I. }
  split; [exact Hdata|]. split; [exact Hraw|]. split; [exact Hstripped|].
  exact (dropped_line_removable (take 2 demo_fragments) (drop 2 demo_fragments)
           (mk_line ["chr1"; "x"; "400"; "bc9"; "1"]) demo_features
           ["bc1"; "bc2"] true "#" Hdata Hraw Hstripped).
Defined.

(** X11. Of a line, [get_barcodes] and [count] read the first four fields
    and nothing else: two files whose lines, as read, agree on these give
    the same barcodes and the same table or exception. *)
Theorem only_first_four_fields_read (fragments fragments' : list string)
    (features : list feature) (valid_bcs : list string) (fast : bool)
    (comment : string) :
  map (take 4) (line_splits comment reader0 fragments)
  = map (take 4) (line_splits comment reader0 fragments') →
  get_barcodes fragments comment = get_barcodes fragments' comment
  ∧ count fragments features valid_bcs fast comment
    = count fragments' features valid_bcs fast comment.
Proof.
  intros Hsame. split.
  - unfold get_barcodes. rewrite !get_barcodes_loop_splits.
    by apply barcodes_of_splits_take4.
  - unfold count, count_run.
    rewrite <- !ctl_returned_outcome, !run_scan_splits.
    by rewrite !(scan_splits_take4 _ _ _ _ _ _ _ Hsame).
Qed.

Lemma only_first_four_fields_read_witness :
  map (take 4) (line_splits "#" reader0
                  [mk_line ["chr1"; "100"; "200"; "bc1"; "7"; "x"]])
  = map (take 4) (line_splits "#" reader0 [bc1_line "chr1" "100" "200"])
  ∧ count [mk_line ["chr1"; "100"; "200"; "bc1"; "7"; "x"]] feature_200_300
      ["bc1"] true "#"
    = count [bc1_line "chr1" "100" "200"] feature_200_300 ["bc1"] true "#".
Proof.
  assert (map (take 4) (line_splits "#" reader0
                          [mk_line ["chr1"; "100"; "200"; "bc1"; "7"; "x"]])
          = map (take 4) (line_splits "#" reader0 [bc1_line "chr1" "100" "200"]))
    as Hsame by (vm_compute; reflexivity).
  split; [exact Hsame|].
  exact (proj2 (only_first_four_fields_read
                  [mk_line ["chr1"; "100"; "200"; "bc1"; "7"; "x"]]
                  [bc1_line "chr1" "100" "200"] feature_200_300 ["bc1"] true "#"
                  Hsame)).
Defined.
